(** * Bracket generation, match resolution and registration of the DMEC
      tournament application: a shallow embedding of [App.tsx] and
      [convex/sessions.ts], with the properties they satisfy.

    Numbers of the program are modelled as [Z] where they are integers
    (identifiers, seeds, indices, counters) and as [Q] where they need not be
    (qualification scores, and season points, which take the values 0.5 and
    0.25).  [Math.log2], [Math.ceil] and [Math.pow] are only ever applied to
    positive integers and are taken exact.  [JSON.parse(JSON.stringify(b))]
    is a deep copy, the identity on values. *)

From Stdlib Require Import ZArith QArith String Ascii Lia Lqa ZifyNat.
From stdpp Require Import base option list sorting gmap strings.

Local Open Scope string_scope.
Local Open Scope nat_scope.

(** ** Data model ([types.ts], [convex/schema.ts]) *)

Inductive AppPhase := CHAMPIONSHIP_VIEW | QUALIFICATION | BRACKET | FINISHED.

Module Participant.
Record t := mk { id : Z; name : string; score : option Q; seed : Z }.
End Participant.

Module Match.
Record t := mk {
  id : Z;
  roundIndex : Z;
  matchIndex : Z;
  participant1 : option Participant.t;
  participant2 : option Participant.t;
  winner : option Participant.t;
  nextMatchId : option Z
}.
End Match.

Module ChampionshipStanding.
Record t := mk { id : Z; name : string; pointsPerCompetition : list Q }.
End ChampionshipStanding.

Abbreviation BracketData := (list (list Match.t)).

Record AppState := mkAppState {
  phase : AppPhase;
  standings : list ChampionshipStanding.t;
  competitionParticipants : list Participant.t;
  bracket : BracketData;
  thirdPlaceMatch : option Match.t;
  totalCompetitions : option Z;
  competitionsHeld : Z
}.

#[global] Instance AppPhase_eq_dec : EqDecision AppPhase.
Proof. solve_decision. Defined.

Definition getInitialState : AppState :=
  {| phase := CHAMPIONSHIP_VIEW; standings := []; competitionParticipants := [];
     bracket := []; thirdPlaceMatch := None; totalCompetitions := None;
     competitionsHeld := 0 |}.

(** ** handleStartCompetition *)

Definition handleStartCompetition (prev : AppState) : AppState :=
  {| phase := QUALIFICATION;
     standings := standings prev;
     competitionParticipants :=
       (λ p, Participant.mk (ChampionshipStanding.id p) (ChampionshipStanding.name p) None 0)
         <$> standings prev;
     bracket := [];
     thirdPlaceMatch := None;
     totalCompetitions := totalCompetitions prev;
     competitionsHeld := competitionsHeld prev |}.

(** ** handleStartBracket: qualification filter, ranking and seeding *)

(** The test [x < y] on numbers. *)
Definition Qltb (x y : Q) : bool := negb (Qle_bool y x).

(** [p.score !== null && p.score > 0] *)
Definition hasPositiveScore (p : Participant.t) : bool :=
  match Participant.score p with
  | Some sc => Qltb 0 sc
  | None => false
  end.

(** [p.score as number], read only where the score is not [null]. *)
Definition scoreOf (p : Participant.t) : Q := default 0%Q (Participant.score p).

(** [Array.prototype.sort] is stable; with the comparator
    [(a, b) => b.score - a.score] an element is placed after every element
    whose score is at least its own, which is what insertion from the right
    does. *)
Fixpoint insertByScore (a : Participant.t) (l : list Participant.t) : list Participant.t :=
  match l with
  | [] => [a]
  | b :: l' =>
      if Qltb (scoreOf a) (scoreOf b) then b :: insertByScore a l' else a :: b :: l'
  end.

Definition sortByScoreDesc (l : list Participant.t) : list Participant.t :=
  foldr insertByScore [] l.

Definition withSeed (index : nat) (p : Participant.t) : Participant.t :=
  Participant.mk (Participant.id p) (Participant.name p) (Participant.score p)
    (Z.of_nat index + 1).

Definition qualifiedParticipants (allParticipants : list Participant.t) : list Participant.t :=
  imap withSeed (sortByScoreDesc (filter (λ p, hasPositiveScore p = true) allParticipants)).

Definition MIN_PARTICIPANTS : nat := 2.

(** [Math.pow(2, Math.ceil(Math.log2(n)))] *)
Definition numRoundsOf (n : nat) : nat := Z.to_nat (Z.log2_up (Z.of_nat n)).
Definition bracketSizeOf (n : nat) : nat := 2 ^ numRoundsOf n.

(** [participantMap.set(p.seed, p)] for every qualifier, in order. *)
Definition participantMapOf (qualified : list Participant.t) : gmap Z Participant.t :=
  foldl (λ m p, <[Participant.seed p := p]> m) ∅ qualified.

(** One pass of the body of the seeding [while] loop. *)
Definition nextSeedsOf (seeds : list Z) : list Z :=
  let currentBracketSize := (Z.of_nat (length seeds) * 2)%Z in
  seeds ≫= (λ seed, [seed; (currentBracketSize + 1 - seed)%Z]).

(** [while (seeds.length < bracketSize)]; the list grows at every pass, so
    [bracketSize] passes are more than the loop can make. *)
Fixpoint seedLoop (fuel : nat) (bracketSize : nat) (seeds : list Z) : list Z :=
  match fuel with
  | O => seeds
  | S fuel' =>
      if decide (length seeds < bracketSize)
      then seedLoop fuel' bracketSize (nextSeedsOf seeds)
      else seeds
  end.

Definition finalSeedOrder (bracketSize : nat) : list Z :=
  seedLoop bracketSize bracketSize [1%Z].

(** ** handleStartBracket: round construction *)

Definition byeWinner (participant1 participant2 : option Participant.t)
  : option Participant.t :=
  match participant1, participant2 with
  | Some p, None => Some p
  | None, Some p => Some p
  | _, _ => None
  end.

(** The first-round loop, [for (i = 0; i < finalSeedOrder.length; i += 2)];
    [matchIdCounter] and [i / 2] coincide in it.  A seed missing from the
    map, or read past the end of the order, gives a [null] slot. *)
Fixpoint firstRoundFrom (matchIndex : nat) (participantMap : gmap Z Participant.t)
    (order : list Z) : list Match.t :=
  match order with
  | [] => []
  | [p1Seed] =>
      let participant1 := participantMap !! p1Seed in
      [Match.mk (Z.of_nat matchIndex) 0 (Z.of_nat matchIndex)
         participant1 None (byeWinner participant1 None) None]
  | p1Seed :: p2Seed :: rest =>
      let participant1 := participantMap !! p1Seed in
      let participant2 := participantMap !! p2Seed in
      Match.mk (Z.of_nat matchIndex) 0 (Z.of_nat matchIndex)
        participant1 participant2 (byeWinner participant1 participant2) None
      :: firstRoundFrom (S matchIndex) participantMap rest
  end.

(** The seed-ordering rule, [if (p1 && p2 && p1.seed > p2.seed) swap]. *)
Definition orderBySeed (p1 p2 : option Participant.t)
  : option Participant.t * option Participant.t :=
  match p1, p2 with
  | Some a, Some b =>
      if (Participant.seed b <? Participant.seed a)%Z then (p2, p1) else (p1, p2)
  | _, _ => (p1, p2)
  end.

Definition pairUp (previousRound : list Match.t) (roundIndex matchIdCounter : Z)
    (matchIndex : nat) : Match.t :=
  let p1 := previousRound !! (matchIndex * 2) ≫= Match.winner in
  let p2 := previousRound !! (matchIndex * 2 + 1) ≫= Match.winner in
  let '(p1, p2) := orderBySeed p1 p2 in
  Match.mk (matchIdCounter + Z.of_nat matchIndex) roundIndex (Z.of_nat matchIndex)
    p1 p2 None None.

Definition withNextMatchId (next : option Z) (m : Match.t) : Match.t :=
  Match.mk (Match.id m) (Match.roundIndex m) (Match.matchIndex m)
    (Match.participant1 m) (Match.participant2 m) (Match.winner m) next.

(** [previousRound[i].nextMatchId = currentRound[Math.floor(i / 2)].id].
    The read is in range in every bracket the builder makes
    ([buildBracket_links_in_range]). *)
Definition linkTo (currentRound : list Match.t) (i : nat) (m : Match.t) : Match.t :=
  withNextMatchId (Match.id <$> currentRound !! (i / 2)) m.

(** The loop [for (roundIndex = 1; roundIndex < numRounds; roundIndex++)],
    [remaining] passes of it; the previous round is linked in place, then
    the current round is pushed. *)
Fixpoint buildRounds (remaining : nat) (roundIndex matchIdCounter : Z)
    (numMatchesInPreviousRound : nat) (previousRound : list Match.t) : BracketData :=
  match remaining with
  | O => [previousRound]
  | S remaining' =>
      let numMatchesInCurrentRound := numMatchesInPreviousRound / 2 in
      let currentRound :=
        pairUp previousRound roundIndex matchIdCounter <$> seq 0 numMatchesInCurrentRound in
      imap (linkTo currentRound) previousRound
      :: buildRounds remaining' (roundIndex + 1)
           (matchIdCounter + Z.of_nat numMatchesInCurrentRound)
           numMatchesInCurrentRound currentRound
  end.

Definition buildBracket (qualified : list Participant.t) : BracketData :=
  let bracketSize := bracketSizeOf (length qualified) in
  let participantMap := participantMapOf qualified in
  let firstRound := firstRoundFrom 0 participantMap (finalSeedOrder bracketSize) in
  buildRounds (numRoundsOf (length qualified) - 1) 1 (Z.of_nat (length firstRound))
    (bracketSize / 2) firstRound.

Inductive Alert := NotEnoughQualifiers (minimum : nat).

(** The handler either alerts and returns without touching the state, or
    installs the new bracket. *)
Definition handleStartBracket (allParticipants : list Participant.t) (prev : AppState)
  : option Alert * AppState :=
  let qualified := qualifiedParticipants allParticipants in
  if decide (length qualified < MIN_PARTICIPANTS)
  then (Some (NotEnoughQualifiers MIN_PARTICIPANTS), prev)
  else (None,
        {| phase := BRACKET;
           standings := standings prev;
           competitionParticipants := competitionParticipants prev;
           bracket := buildBracket qualified;
           thirdPlaceMatch := thirdPlaceMatch prev;
           totalCompetitions := totalCompetitions prev;
           competitionsHeld := competitionsHeld prev |}).

(** ** handleSetWinner *)

Definition withWinner (w : option Participant.t) (m : Match.t) : Match.t :=
  Match.mk (Match.id m) (Match.roundIndex m) (Match.matchIndex m)
    (Match.participant1 m) (Match.participant2 m) w (Match.nextMatchId m).

Definition withParticipants (p1 p2 : option Participant.t) (m : Match.t) : Match.t :=
  Match.mk (Match.id m) (Match.roundIndex m) (Match.matchIndex m)
    p1 p2 (Match.winner m) (Match.nextMatchId m).

(** The search [for (round of bracket) { round.find(m => m.id === matchId) }],
    stopping at the first round that has the id: round position, position in
    the round, and the match. *)
Fixpoint findMatch (matchId : Z) (b : BracketData) : option (nat * nat * Match.t) :=
  match b with
  | [] => None
  | round :: rest =>
      match list_find (λ m, Match.id m = matchId) round with
      | Some (j, m) => Some (0, j, m)
      | None => (λ '(i, j, m), (S i, j, m)) <$> findMatch matchId rest
      end
  end.

(** Mutation of the match object at round [i], position [j]. *)
Definition updateMatch (i j : nat) (f : Match.t → Match.t) (b : BracketData) : BracketData :=
  alter (alter f j) i b.

(** Placement of the winner in the next match, then the seed-ordering swap. *)
Definition placeWinner (matchIndex : Z) (winner : Participant.t) (nextMatch : Match.t)
  : Match.t :=
  let placed :=
    if (Z.rem matchIndex 2 =? 0)%Z
    then withParticipants (Some winner) (Match.participant2 nextMatch) nextMatch
    else withParticipants (Match.participant1 nextMatch) (Some winner) nextMatch in
  let '(p1, p2) := orderBySeed (Match.participant1 placed) (Match.participant2 placed) in
  withParticipants p1 p2 placed.

(** The [else] branch of the handler, on the copied bracket. *)
Definition resolveInBracket (matchId : Z) (winner : Participant.t) (b : BracketData)
  : BracketData :=
  match findMatch matchId b with
  | Some (i, j, matchToUpdate) =>
      match Match.winner matchToUpdate with
      | Some _ => b
      | None =>
          let b1 := updateMatch i j (withWinner (Some winner)) b in
          match Match.nextMatchId matchToUpdate with
          | None => b1
          | Some nextId =>
              match findMatch nextId b1 with
              | Some (i', j', _) =>
                  updateMatch i' j' (placeWinner (Match.matchIndex matchToUpdate) winner) b1
              | None => b1
              end
          end
      end
  | None => b
  end.

Definition hasWinner (m : Match.t) : bool := bool_decide (is_Some (Match.winner m)).

Definition findLoser (m : Match.t) : option Participant.t :=
  match Match.participant1 m, Match.participant2 m with
  | Some p1, Some p2 =>
      if decide (Participant.id <$> Match.winner m = Some (Participant.id p1))
      then Some p2 else Some p1
  | _, _ => None
  end.

Definition losersOf (semiFinals : list Match.t) : list Participant.t :=
  omap findLoser semiFinals.

Definition THIRD_PLACE_ID : Z := 999.

Definition thirdPlaceOf (p1 p2 winner : option Participant.t) : Match.t :=
  Match.mk THIRD_PLACE_ID (-1) 0 p1 p2 winner None.

(** The synthesis block, run when [numRounds > 1 && !newThirdPlaceMatch]. *)
Definition synthesizeThirdPlace (b : BracketData) : option Match.t :=
  match b !! (length b - 2) with
  | Some semiFinals =>
      if forallb hasWinner semiFinals then
        match losersOf semiFinals with
        | [l0; l1] =>
            if (Participant.seed l0 <? Participant.seed l1)%Z
            then Some (thirdPlaceOf (Some l0) (Some l1) None)
            else Some (thirdPlaceOf (Some l1) (Some l0) None)
        | [singleLoser] =>
            Some (thirdPlaceOf (Some singleLoser) None (Some singleLoser))
        | _ => None
        end
      else None
  | None => None
  end.

Definition isTournamentFinished (b : BracketData) (third : option Match.t) : bool :=
  match last b ≫= head with
  | Some finalMatch =>
      bool_decide (is_Some (Match.winner finalMatch))
      && match third with
         | None => true
         | Some t => bool_decide (is_Some (Match.winner t))
         end
  | None => false
  end.

Definition handleSetWinner (matchId : Z) (winner : Participant.t) (prev : AppState)
  : AppState :=
  let '(newThirdPlaceMatch, newBracket) :=
    match thirdPlaceMatch prev with
    | Some t =>
        if decide (matchId = Match.id t)
        then (Some (withWinner (Some winner) t), bracket prev)
        else (Some t, resolveInBracket matchId winner (bracket prev))
    | None => (None, resolveInBracket matchId winner (bracket prev))
    end in
  let newThirdPlaceMatch :=
    match newThirdPlaceMatch with
    | Some t => Some t
    | None =>
        if decide (1 < length newBracket) then synthesizeThirdPlace newBracket else None
    end in
  let newPhase :=
    if isTournamentFinished newBracket newThirdPlaceMatch then FINISHED else phase prev in
  {| phase := newPhase;
     standings := standings prev;
     competitionParticipants := competitionParticipants prev;
     bracket := newBracket;
     thirdPlaceMatch := newThirdPlaceMatch;
     totalCompetitions := totalCompetitions prev;
     competitionsHeld := competitionsHeld prev |}.


(** ** handleReturnToChampionship: qualification points *)

(** The chain of comparisons on [rank]. *)
Definition qualificationPointsOf (rank : Z) : Q :=
  if (rank =? 1)%Z then 12 else if (rank =? 2)%Z then 10
  else if (rank =? 3)%Z then 8 else if (rank =? 4)%Z then 6
  else if (5 <=? rank)%Z && (rank <=? 6)%Z then 4
  else if (7 <=? rank)%Z && (rank <=? 8)%Z then 3
  else if (9 <=? rank)%Z && (rank <=? 12)%Z then 2
  else if (13 <=? rank)%Z && (rank <=? 16)%Z then 1
  else if (17 <=? rank)%Z && (rank <=? 24)%Z then 1 # 2
  else if (25 <=? rank)%Z && (rank <=? 32)%Z then 1 # 4
  else 0.

(** [competitionParticipants.filter(score > 0).sort(by score, descending)];
    the seeds are not reassigned here. *)
Definition qualified (competitionParticipants : list Participant.t) : list Participant.t :=
  sortByScoreDesc (filter (λ p, hasPositiveScore p = true) competitionParticipants).

(** [pointsToAdd.set(p.id, (pointsToAdd.get(p.id) || 0) + points)] *)
Definition addPoints (id : Z) (points : Q) (pointsToAdd : gmap Z Q) : gmap Z Q :=
  <[id := (default 0 (pointsToAdd !! id) + points)%Q]> pointsToAdd.

(** [qualified.forEach((p, index) => ...)]: the participant at position
    [index] of the ranking receives the points of rank [index + 1]. *)
Fixpoint qualificationAwards (index : nat) (ranking : list Participant.t)
    (pointsToAdd : gmap Z Q) : gmap Z Q :=
  match ranking with
  | [] => pointsToAdd
  | p :: rest =>
      qualificationAwards (S index) rest
        (addPoints (Participant.id p) (qualificationPointsOf (Z.of_nat index + 1)) pointsToAdd)
  end.

(** The map [pointsToAdd] once the qualification ranking has been walked:
    every standing starts at 0.  The placement and round bonuses are added
    to this map afterwards. *)
Definition pointsAfterQualification (standings : list ChampionshipStanding.t)
    (competitionParticipants : list Participant.t) : gmap Z Q :=
  let pointsToAdd :=
    foldl (λ m p, <[ChampionshipStanding.id p := 0%Q]> m) (∅ : gmap Z Q) standings in
  qualificationAwards 0 (qualified competitionParticipants) pointsToAdd.

(** ** The session store ([convex/schema.ts], [convex/sessions.ts]) *)

Module Session.
(** A document of the [sessions] table; the seven state fields are kept
    together as an [AppState]. *)
Record t := mk {
  _id : Z;
  _creationTime : Z;
  sessionId : string;
  adminSecret : string;
  state : AppState;
  createdAt : Z;
  updatedAt : Z
}.
End Session.

Module PublicSession.
(** What is left of a session document once [adminSecret] is taken out
    by [const { adminSecret, ...publicSession } = session]. *)
Record t := mk {
  _id : Z;
  _creationTime : Z;
  sessionId : string;
  state : AppState;
  createdAt : Z;
  updatedAt : Z
}.
End PublicSession.

Module Registration.
Record t := mk {
  sessionId : string;
  participantId : Z;
  name : string;
  createdAt : Z;
  processed : bool
}.
End Registration.

Record Database := mkDatabase {
  sessions : list Session.t;
  registrations : list Registration.t
}.

(** [ctx.db.query("sessions").withIndex("by_sessionId", ...).first()] *)
Definition firstSession (sessionId : string) (db : Database) : option (nat * Session.t) :=
  list_find (λ s, Session.sessionId s = sessionId) (sessions db).

Definition publicSessionOf (s : Session.t) : PublicSession.t :=
  PublicSession.mk (Session._id s) (Session._creationTime s) (Session.sessionId s)
    (Session.state s) (Session.createdAt s) (Session.updatedAt s).

Definition getSession (sessionId : string) (db : Database) : option PublicSession.t :=
  match firstSession sessionId db with
  | None => None
  | Some (_, session) => Some (publicSessionOf session)
  end.

(** ** Strings ([String.prototype.toLowerCase], [String.prototype.trim])

    A string of the program is modelled by the bytes of its UTF-8 encoding,
    which is what a string literal of this file denotes; the values the
    store accepts are well-formed Unicode strings.  The two built-in
    functions work on the code points of the string.  [toLowerCase] is the
    default case conversion of Unicode: the lower-case mapping of each code
    point, the one unconditional special case (U+0130) and the rule for the
    final sigma.  The tables are those of Unicode 14.0. *)

Definition byteOf (c : ascii) : Z := Z.of_N (N_of_ascii c).
Definition asciiOf (b : Z) : ascii := ascii_of_N (Z.to_N b).

Definition isContinuation (c : ascii) : bool :=
  (0x80 <=? byteOf c)%Z && (byteOf c <=? 0xBF)%Z.

(** A byte that is not part of a well-formed sequence stands for itself,
    as a number above the code points. *)
Definition strayByte (c : ascii) : Z := (0x110000 + byteOf c)%Z.

(** The code points of a string, read from its UTF-8 bytes. *)
Fixpoint codePointsOf (s : string) : list Z :=
  match s with
  | EmptyString => []
  | String c0 rest =>
      let b0 := byteOf c0 in
      if (b0 <? 0x80)%Z then b0 :: codePointsOf rest
      else
        match rest with
        | String c1 rest1 =>
            if isContinuation c1 then
              let b1 := (byteOf c1 - 0x80)%Z in
              if (0xC2 <=? b0)%Z && (b0 <=? 0xDF)%Z
              then ((b0 - 0xC0) * 64 + b1)%Z :: codePointsOf rest1
              else
                match rest1 with
                | String c2 rest2 =>
                    if isContinuation c2 then
                      let b2 := (byteOf c2 - 0x80)%Z in
                      let cp3 := ((b0 - 0xE0) * 4096 + b1 * 64 + b2)%Z in
                      if (0xE0 <=? b0)%Z && (b0 <=? 0xEF)%Z && (0x800 <=? cp3)%Z
                         && negb ((0xD800 <=? cp3)%Z && (cp3 <=? 0xDFFF)%Z)
                      then cp3 :: codePointsOf rest2
                      else
                        match rest2 with
                        | String c3 rest3 =>
                            if isContinuation c3 then
                              let b3 := (byteOf c3 - 0x80)%Z in
                              let cp4 :=
                                ((b0 - 0xF0) * 262144 + b1 * 4096 + b2 * 64 + b3)%Z in
                              if (0xF0 <=? b0)%Z && (b0 <=? 0xF4)%Z
                                 && (0x10000 <=? cp4)%Z && (cp4 <=? 0x10FFFF)%Z
                              then cp4 :: codePointsOf rest3
                              else strayByte c0 :: codePointsOf rest
                            else strayByte c0 :: codePointsOf rest
                        | EmptyString => strayByte c0 :: codePointsOf rest
                        end
                    else strayByte c0 :: codePointsOf rest
                | EmptyString => strayByte c0 :: codePointsOf rest
                end
            else strayByte c0 :: codePointsOf rest
        | EmptyString => [strayByte c0]
        end
  end.

(** The UTF-8 bytes of one code point. *)
Definition utf8OfCodePoint (cp : Z) : list ascii :=
  if (cp <? 0x80)%Z then [asciiOf cp]
  else if (cp <? 0x800)%Z then
    [asciiOf (0xC0 + cp / 64); asciiOf (0x80 + cp mod 64)]
  else if (cp <? 0x10000)%Z then
    [asciiOf (0xE0 + cp / 4096); asciiOf (0x80 + (cp / 64) mod 64);
     asciiOf (0x80 + cp mod 64)]
  else if (cp <? 0x110000)%Z then
    [asciiOf (0xF0 + cp / 262144); asciiOf (0x80 + (cp / 4096) mod 64);
     asciiOf (0x80 + (cp / 64) mod 64); asciiOf (0x80 + cp mod 64)]
  else [asciiOf (cp - 0x110000)].

Definition stringOfCodePoints (l : list Z) : string :=
  string_of_list_ascii (l ≫= utf8OfCodePoint).

Definition inRanges (c : Z) (ranges : list (Z * Z)) : bool :=
  existsb (λ '(first, last), (first <=? c)%Z && (c <=? last)%Z) ranges.

(** The simple lower-case mappings: [(first, last, step, delta)] maps every
    code point [first], [first + step], ..., [last] to itself plus
    [delta]. *)
Definition lowerCaseMappings : list (Z * Z * Z * Z) :=
  [
   (0x0041, 0x005A, 1, 32); (0x00C0, 0x00D6, 1, 32); (0x00D8, 0x00DE, 1, 32);
   (0x0100, 0x012E, 2, 1); (0x0132, 0x0136, 2, 1); (0x0139, 0x0147, 2, 1);
   (0x014A, 0x0176, 2, 1); (0x0178, 0x0178, 1, -121); (0x0179, 0x017D, 2, 1);
   (0x0181, 0x0181, 1, 210); (0x0182, 0x0184, 2, 1); (0x0186, 0x0186, 1, 206);
   (0x0187, 0x0187, 1, 1); (0x0189, 0x018A, 1, 205); (0x018B, 0x018B, 1, 1);
   (0x018E, 0x018E, 1, 79); (0x018F, 0x018F, 1, 202); (0x0190, 0x0190, 1, 203);
   (0x0191, 0x0191, 1, 1); (0x0193, 0x0193, 1, 205); (0x0194, 0x0194, 1, 207);
   (0x0196, 0x0196, 1, 211); (0x0197, 0x0197, 1, 209); (0x0198, 0x0198, 1, 1);
   (0x019C, 0x019C, 1, 211); (0x019D, 0x019D, 1, 213); (0x019F, 0x019F, 1, 214);
   (0x01A0, 0x01A4, 2, 1); (0x01A6, 0x01A6, 1, 218); (0x01A7, 0x01A7, 1, 1);
   (0x01A9, 0x01A9, 1, 218); (0x01AC, 0x01AC, 1, 1); (0x01AE, 0x01AE, 1, 218);
   (0x01AF, 0x01AF, 1, 1); (0x01B1, 0x01B2, 1, 217); (0x01B3, 0x01B5, 2, 1);
   (0x01B7, 0x01B7, 1, 219); (0x01B8, 0x01B8, 1, 1); (0x01BC, 0x01BC, 1, 1);
   (0x01C4, 0x01C4, 1, 2); (0x01C5, 0x01C5, 1, 1); (0x01C7, 0x01C7, 1, 2);
   (0x01C8, 0x01C8, 1, 1); (0x01CA, 0x01CA, 1, 2); (0x01CB, 0x01DB, 2, 1);
   (0x01DE, 0x01EE, 2, 1); (0x01F1, 0x01F1, 1, 2); (0x01F2, 0x01F4, 2, 1);
   (0x01F6, 0x01F6, 1, -97); (0x01F7, 0x01F7, 1, -56); (0x01F8, 0x021E, 2, 1);
   (0x0220, 0x0220, 1, -130); (0x0222, 0x0232, 2, 1); (0x023A, 0x023A, 1, 10795);
   (0x023B, 0x023B, 1, 1); (0x023D, 0x023D, 1, -163); (0x023E, 0x023E, 1, 10792);
   (0x0241, 0x0241, 1, 1); (0x0243, 0x0243, 1, -195); (0x0244, 0x0244, 1, 69);
   (0x0245, 0x0245, 1, 71); (0x0246, 0x024E, 2, 1); (0x0370, 0x0372, 2, 1);
   (0x0376, 0x0376, 1, 1); (0x037F, 0x037F, 1, 116); (0x0386, 0x0386, 1, 38);
   (0x0388, 0x038A, 1, 37); (0x038C, 0x038C, 1, 64); (0x038E, 0x038F, 1, 63);
   (0x0391, 0x03A1, 1, 32); (0x03A3, 0x03AB, 1, 32); (0x03CF, 0x03CF, 1, 8);
   (0x03D8, 0x03EE, 2, 1); (0x03F4, 0x03F4, 1, -60); (0x03F7, 0x03F7, 1, 1);
   (0x03F9, 0x03F9, 1, -7); (0x03FA, 0x03FA, 1, 1); (0x03FD, 0x03FF, 1, -130);
   (0x0400, 0x040F, 1, 80); (0x0410, 0x042F, 1, 32); (0x0460, 0x0480, 2, 1);
   (0x048A, 0x04BE, 2, 1); (0x04C0, 0x04C0, 1, 15); (0x04C1, 0x04CD, 2, 1);
   (0x04D0, 0x052E, 2, 1); (0x0531, 0x0556, 1, 48); (0x10A0, 0x10C5, 1, 7264);
   (0x10C7, 0x10C7, 1, 7264); (0x10CD, 0x10CD, 1, 7264); (0x13A0, 0x13EF, 1, 38864);
   (0x13F0, 0x13F5, 1, 8); (0x1C90, 0x1CBA, 1, -3008); (0x1CBD, 0x1CBF, 1, -3008);
   (0x1E00, 0x1E94, 2, 1); (0x1E9E, 0x1E9E, 1, -7615); (0x1EA0, 0x1EFE, 2, 1);
   (0x1F08, 0x1F0F, 1, -8); (0x1F18, 0x1F1D, 1, -8); (0x1F28, 0x1F2F, 1, -8);
   (0x1F38, 0x1F3F, 1, -8); (0x1F48, 0x1F4D, 1, -8); (0x1F59, 0x1F5F, 2, -8);
   (0x1F68, 0x1F6F, 1, -8); (0x1F88, 0x1F8F, 1, -8); (0x1F98, 0x1F9F, 1, -8);
   (0x1FA8, 0x1FAF, 1, -8); (0x1FB8, 0x1FB9, 1, -8); (0x1FBA, 0x1FBB, 1, -74);
   (0x1FBC, 0x1FBC, 1, -9); (0x1FC8, 0x1FCB, 1, -86); (0x1FCC, 0x1FCC, 1, -9);
   (0x1FD8, 0x1FD9, 1, -8); (0x1FDA, 0x1FDB, 1, -100); (0x1FE8, 0x1FE9, 1, -8);
   (0x1FEA, 0x1FEB, 1, -112); (0x1FEC, 0x1FEC, 1, -7); (0x1FF8, 0x1FF9, 1, -128);
   (0x1FFA, 0x1FFB, 1, -126); (0x1FFC, 0x1FFC, 1, -9); (0x2126, 0x2126, 1, -7517);
   (0x212A, 0x212A, 1, -8383); (0x212B, 0x212B, 1, -8262); (0x2132, 0x2132, 1, 28);
   (0x2160, 0x216F, 1, 16); (0x2183, 0x2183, 1, 1); (0x24B6, 0x24CF, 1, 26);
   (0x2C00, 0x2C2F, 1, 48); (0x2C60, 0x2C60, 1, 1); (0x2C62, 0x2C62, 1, -10743);
   (0x2C63, 0x2C63, 1, -3814); (0x2C64, 0x2C64, 1, -10727); (0x2C67, 0x2C6B, 2, 1);
   (0x2C6D, 0x2C6D, 1, -10780); (0x2C6E, 0x2C6E, 1, -10749); (0x2C6F, 0x2C6F, 1, -10783);
   (0x2C70, 0x2C70, 1, -10782); (0x2C72, 0x2C72, 1, 1); (0x2C75, 0x2C75, 1, 1);
   (0x2C7E, 0x2C7F, 1, -10815); (0x2C80, 0x2CE2, 2, 1); (0x2CEB, 0x2CED, 2, 1);
   (0x2CF2, 0x2CF2, 1, 1); (0xA640, 0xA66C, 2, 1); (0xA680, 0xA69A, 2, 1);
   (0xA722, 0xA72E, 2, 1); (0xA732, 0xA76E, 2, 1); (0xA779, 0xA77B, 2, 1);
   (0xA77D, 0xA77D, 1, -35332); (0xA77E, 0xA786, 2, 1); (0xA78B, 0xA78B, 1, 1);
   (0xA78D, 0xA78D, 1, -42280); (0xA790, 0xA792, 2, 1); (0xA796, 0xA7A8, 2, 1);
   (0xA7AA, 0xA7AA, 1, -42308); (0xA7AB, 0xA7AB, 1, -42319); (0xA7AC, 0xA7AC, 1, -42315);
   (0xA7AD, 0xA7AD, 1, -42305); (0xA7AE, 0xA7AE, 1, -42308); (0xA7B0, 0xA7B0, 1, -42258);
   (0xA7B1, 0xA7B1, 1, -42282); (0xA7B2, 0xA7B2, 1, -42261); (0xA7B3, 0xA7B3, 1, 928);
   (0xA7B4, 0xA7C2, 2, 1); (0xA7C4, 0xA7C4, 1, -48); (0xA7C5, 0xA7C5, 1, -42307);
   (0xA7C6, 0xA7C6, 1, -35384); (0xA7C7, 0xA7C9, 2, 1); (0xA7D0, 0xA7D0, 1, 1);
   (0xA7D6, 0xA7D8, 2, 1); (0xA7F5, 0xA7F5, 1, 1); (0xFF21, 0xFF3A, 1, 32);
   (0x10400, 0x10427, 1, 40); (0x104B0, 0x104D3, 1, 40); (0x10570, 0x1057A, 1, 39);
   (0x1057C, 0x1058A, 1, 39); (0x1058C, 0x10592, 1, 39); (0x10594, 0x10595, 1, 39);
   (0x10C80, 0x10CB2, 1, 64); (0x118A0, 0x118BF, 1, 32); (0x16E40, 0x16E5F, 1, 32);
   (0x1E900, 0x1E921, 1, 34)
  ]%Z.

(** The code points with the property Case_Ignorable. *)
Definition caseIgnorable : list (Z * Z) :=
  [
   (0x0027, 0x0027); (0x002E, 0x002E); (0x003A, 0x003A); (0x005E, 0x005E);
   (0x0060, 0x0060); (0x00A8, 0x00A8); (0x00AD, 0x00AD); (0x00AF, 0x00AF);
   (0x00B4, 0x00B4); (0x00B7, 0x00B8); (0x02B0, 0x036F); (0x0374, 0x0375);
   (0x037A, 0x037A); (0x0384, 0x0385); (0x0387, 0x0387); (0x0483, 0x0489);
   (0x0559, 0x0559); (0x055F, 0x055F); (0x0591, 0x05BD); (0x05BF, 0x05BF);
   (0x05C1, 0x05C2); (0x05C4, 0x05C5); (0x05C7, 0x05C7); (0x05F4, 0x05F4);
   (0x0600, 0x0605); (0x0610, 0x061A); (0x061C, 0x061C); (0x0640, 0x0640);
   (0x064B, 0x065F); (0x0670, 0x0670); (0x06D6, 0x06DD); (0x06DF, 0x06E8);
   (0x06EA, 0x06ED); (0x070F, 0x070F); (0x0711, 0x0711); (0x0730, 0x074A);
   (0x07A6, 0x07B0); (0x07EB, 0x07F5); (0x07FA, 0x07FA); (0x07FD, 0x07FD);
   (0x0816, 0x082D); (0x0859, 0x085B); (0x0888, 0x0888); (0x0890, 0x0891);
   (0x0898, 0x089F); (0x08C9, 0x0902); (0x093A, 0x093A); (0x093C, 0x093C);
   (0x0941, 0x0948); (0x094D, 0x094D); (0x0951, 0x0957); (0x0962, 0x0963);
   (0x0971, 0x0971); (0x0981, 0x0981); (0x09BC, 0x09BC); (0x09C1, 0x09C4);
   (0x09CD, 0x09CD); (0x09E2, 0x09E3); (0x09FE, 0x09FE); (0x0A01, 0x0A02);
   (0x0A3C, 0x0A3C); (0x0A41, 0x0A42); (0x0A47, 0x0A48); (0x0A4B, 0x0A4D);
   (0x0A51, 0x0A51); (0x0A70, 0x0A71); (0x0A75, 0x0A75); (0x0A81, 0x0A82);
   (0x0ABC, 0x0ABC); (0x0AC1, 0x0AC5); (0x0AC7, 0x0AC8); (0x0ACD, 0x0ACD);
   (0x0AE2, 0x0AE3); (0x0AFA, 0x0AFF); (0x0B01, 0x0B01); (0x0B3C, 0x0B3C);
   (0x0B3F, 0x0B3F); (0x0B41, 0x0B44); (0x0B4D, 0x0B4D); (0x0B55, 0x0B56);
   (0x0B62, 0x0B63); (0x0B82, 0x0B82); (0x0BC0, 0x0BC0); (0x0BCD, 0x0BCD);
   (0x0C00, 0x0C00); (0x0C04, 0x0C04); (0x0C3C, 0x0C3C); (0x0C3E, 0x0C40);
   (0x0C46, 0x0C48); (0x0C4A, 0x0C4D); (0x0C55, 0x0C56); (0x0C62, 0x0C63);
   (0x0C81, 0x0C81); (0x0CBC, 0x0CBC); (0x0CBF, 0x0CBF); (0x0CC6, 0x0CC6);
   (0x0CCC, 0x0CCD); (0x0CE2, 0x0CE3); (0x0D00, 0x0D01); (0x0D3B, 0x0D3C);
   (0x0D41, 0x0D44); (0x0D4D, 0x0D4D); (0x0D62, 0x0D63); (0x0D81, 0x0D81);
   (0x0DCA, 0x0DCA); (0x0DD2, 0x0DD4); (0x0DD6, 0x0DD6); (0x0E31, 0x0E31);
   (0x0E34, 0x0E3A); (0x0E46, 0x0E4E); (0x0EB1, 0x0EB1); (0x0EB4, 0x0EBC);
   (0x0EC6, 0x0EC6); (0x0EC8, 0x0ECD); (0x0F18, 0x0F19); (0x0F35, 0x0F35);
   (0x0F37, 0x0F37); (0x0F39, 0x0F39); (0x0F71, 0x0F7E); (0x0F80, 0x0F84);
   (0x0F86, 0x0F87); (0x0F8D, 0x0F97); (0x0F99, 0x0FBC); (0x0FC6, 0x0FC6);
   (0x102D, 0x1030); (0x1032, 0x1037); (0x1039, 0x103A); (0x103D, 0x103E);
   (0x1058, 0x1059); (0x105E, 0x1060); (0x1071, 0x1074); (0x1082, 0x1082);
   (0x1085, 0x1086); (0x108D, 0x108D); (0x109D, 0x109D); (0x10FC, 0x10FC);
   (0x135D, 0x135F); (0x1712, 0x1714); (0x1732, 0x1733); (0x1752, 0x1753);
   (0x1772, 0x1773); (0x17B4, 0x17B5); (0x17B7, 0x17BD); (0x17C6, 0x17C6);
   (0x17C9, 0x17D3); (0x17D7, 0x17D7); (0x17DD, 0x17DD); (0x180B, 0x180F);
   (0x1843, 0x1843); (0x1885, 0x1886); (0x18A9, 0x18A9); (0x1920, 0x1922);
   (0x1927, 0x1928); (0x1932, 0x1932); (0x1939, 0x193B); (0x1A17, 0x1A18);
   (0x1A1B, 0x1A1B); (0x1A56, 0x1A56); (0x1A58, 0x1A5E); (0x1A60, 0x1A60);
   (0x1A62, 0x1A62); (0x1A65, 0x1A6C); (0x1A73, 0x1A7C); (0x1A7F, 0x1A7F);
   (0x1AA7, 0x1AA7); (0x1AB0, 0x1ACE); (0x1B00, 0x1B03); (0x1B34, 0x1B34);
   (0x1B36, 0x1B3A); (0x1B3C, 0x1B3C); (0x1B42, 0x1B42); (0x1B6B, 0x1B73);
   (0x1B80, 0x1B81); (0x1BA2, 0x1BA5); (0x1BA8, 0x1BA9); (0x1BAB, 0x1BAD);
   (0x1BE6, 0x1BE6); (0x1BE8, 0x1BE9); (0x1BED, 0x1BED); (0x1BEF, 0x1BF1);
   (0x1C2C, 0x1C33); (0x1C36, 0x1C37); (0x1C78, 0x1C7D); (0x1CD0, 0x1CD2);
   (0x1CD4, 0x1CE0); (0x1CE2, 0x1CE8); (0x1CED, 0x1CED); (0x1CF4, 0x1CF4);
   (0x1CF8, 0x1CF9); (0x1D2C, 0x1D6A); (0x1D78, 0x1D78); (0x1D9B, 0x1DFF);
   (0x1FBD, 0x1FBD); (0x1FBF, 0x1FC1); (0x1FCD, 0x1FCF); (0x1FDD, 0x1FDF);
   (0x1FED, 0x1FEF); (0x1FFD, 0x1FFE); (0x200B, 0x200F); (0x2018, 0x2019);
   (0x2024, 0x2024); (0x2027, 0x2027); (0x202A, 0x202E); (0x2060, 0x2064);
   (0x2066, 0x206F); (0x2071, 0x2071); (0x207F, 0x207F); (0x2090, 0x209C);
   (0x20D0, 0x20F0); (0x2C7C, 0x2C7D); (0x2CEF, 0x2CF1); (0x2D6F, 0x2D6F);
   (0x2D7F, 0x2D7F); (0x2DE0, 0x2DFF); (0x2E2F, 0x2E2F); (0x3005, 0x3005);
   (0x302A, 0x302D); (0x3031, 0x3035); (0x303B, 0x303B); (0x3099, 0x309E);
   (0x30FC, 0x30FE); (0xA015, 0xA015); (0xA4F8, 0xA4FD); (0xA60C, 0xA60C);
   (0xA66F, 0xA672); (0xA674, 0xA67D); (0xA67F, 0xA67F); (0xA69C, 0xA69F);
   (0xA6F0, 0xA6F1); (0xA700, 0xA721); (0xA770, 0xA770); (0xA788, 0xA78A);
   (0xA7F2, 0xA7F4); (0xA7F8, 0xA7F9); (0xA802, 0xA802); (0xA806, 0xA806);
   (0xA80B, 0xA80B); (0xA825, 0xA826); (0xA82C, 0xA82C); (0xA8C4, 0xA8C5);
   (0xA8E0, 0xA8F1); (0xA8FF, 0xA8FF); (0xA926, 0xA92D); (0xA947, 0xA951);
   (0xA980, 0xA982); (0xA9B3, 0xA9B3); (0xA9B6, 0xA9B9); (0xA9BC, 0xA9BD);
   (0xA9CF, 0xA9CF); (0xA9E5, 0xA9E6); (0xAA29, 0xAA2E); (0xAA31, 0xAA32);
   (0xAA35, 0xAA36); (0xAA43, 0xAA43); (0xAA4C, 0xAA4C); (0xAA70, 0xAA70);
   (0xAA7C, 0xAA7C); (0xAAB0, 0xAAB0); (0xAAB2, 0xAAB4); (0xAAB7, 0xAAB8);
   (0xAABE, 0xAABF); (0xAAC1, 0xAAC1); (0xAADD, 0xAADD); (0xAAEC, 0xAAED);
   (0xAAF3, 0xAAF4); (0xAAF6, 0xAAF6); (0xAB5B, 0xAB5F); (0xAB69, 0xAB6B);
   (0xABE5, 0xABE5); (0xABE8, 0xABE8); (0xABED, 0xABED); (0xFB1E, 0xFB1E);
   (0xFBB2, 0xFBC2); (0xFE00, 0xFE0F); (0xFE13, 0xFE13); (0xFE20, 0xFE2F);
   (0xFE52, 0xFE52); (0xFE55, 0xFE55); (0xFEFF, 0xFEFF); (0xFF07, 0xFF07);
   (0xFF0E, 0xFF0E); (0xFF1A, 0xFF1A); (0xFF3E, 0xFF3E); (0xFF40, 0xFF40);
   (0xFF70, 0xFF70); (0xFF9E, 0xFF9F); (0xFFE3, 0xFFE3); (0xFFF9, 0xFFFB);
   (0x101FD, 0x101FD); (0x102E0, 0x102E0); (0x10376, 0x1037A); (0x10780, 0x10785);
   (0x10787, 0x107B0); (0x107B2, 0x107BA); (0x10A01, 0x10A03); (0x10A05, 0x10A06);
   (0x10A0C, 0x10A0F); (0x10A38, 0x10A3A); (0x10A3F, 0x10A3F); (0x10AE5, 0x10AE6);
   (0x10D24, 0x10D27); (0x10EAB, 0x10EAC); (0x10F46, 0x10F50); (0x10F82, 0x10F85);
   (0x11001, 0x11001); (0x11038, 0x11046); (0x11070, 0x11070); (0x11073, 0x11074);
   (0x1107F, 0x11081); (0x110B3, 0x110B6); (0x110B9, 0x110BA); (0x110BD, 0x110BD);
   (0x110C2, 0x110C2); (0x110CD, 0x110CD); (0x11100, 0x11102); (0x11127, 0x1112B);
   (0x1112D, 0x11134); (0x11173, 0x11173); (0x11180, 0x11181); (0x111B6, 0x111BE);
   (0x111C9, 0x111CC); (0x111CF, 0x111CF); (0x1122F, 0x11231); (0x11234, 0x11234);
   (0x11236, 0x11237); (0x1123E, 0x1123E); (0x112DF, 0x112DF); (0x112E3, 0x112EA);
   (0x11300, 0x11301); (0x1133B, 0x1133C); (0x11340, 0x11340); (0x11366, 0x1136C);
   (0x11370, 0x11374); (0x11438, 0x1143F); (0x11442, 0x11444); (0x11446, 0x11446);
   (0x1145E, 0x1145E); (0x114B3, 0x114B8); (0x114BA, 0x114BA); (0x114BF, 0x114C0);
   (0x114C2, 0x114C3); (0x115B2, 0x115B5); (0x115BC, 0x115BD); (0x115BF, 0x115C0);
   (0x115DC, 0x115DD); (0x11633, 0x1163A); (0x1163D, 0x1163D); (0x1163F, 0x11640);
   (0x116AB, 0x116AB); (0x116AD, 0x116AD); (0x116B0, 0x116B5); (0x116B7, 0x116B7);
   (0x1171D, 0x1171F); (0x11722, 0x11725); (0x11727, 0x1172B); (0x1182F, 0x11837);
   (0x11839, 0x1183A); (0x1193B, 0x1193C); (0x1193E, 0x1193E); (0x11943, 0x11943);
   (0x119D4, 0x119D7); (0x119DA, 0x119DB); (0x119E0, 0x119E0); (0x11A01, 0x11A0A);
   (0x11A33, 0x11A38); (0x11A3B, 0x11A3E); (0x11A47, 0x11A47); (0x11A51, 0x11A56);
   (0x11A59, 0x11A5B); (0x11A8A, 0x11A96); (0x11A98, 0x11A99); (0x11C30, 0x11C36);
   (0x11C38, 0x11C3D); (0x11C3F, 0x11C3F); (0x11C92, 0x11CA7); (0x11CAA, 0x11CB0);
   (0x11CB2, 0x11CB3); (0x11CB5, 0x11CB6); (0x11D31, 0x11D36); (0x11D3A, 0x11D3A);
   (0x11D3C, 0x11D3D); (0x11D3F, 0x11D45); (0x11D47, 0x11D47); (0x11D90, 0x11D91);
   (0x11D95, 0x11D95); (0x11D97, 0x11D97); (0x11EF3, 0x11EF4); (0x13430, 0x13438);
   (0x16AF0, 0x16AF4); (0x16B30, 0x16B36); (0x16B40, 0x16B43); (0x16F4F, 0x16F4F);
   (0x16F8F, 0x16F9F); (0x16FE0, 0x16FE1); (0x16FE3, 0x16FE4); (0x1AFF0, 0x1AFF3);
   (0x1AFF5, 0x1AFFB); (0x1AFFD, 0x1AFFE); (0x1BC9D, 0x1BC9E); (0x1BCA0, 0x1BCA3);
   (0x1CF00, 0x1CF2D); (0x1CF30, 0x1CF46); (0x1D167, 0x1D169); (0x1D173, 0x1D182);
   (0x1D185, 0x1D18B); (0x1D1AA, 0x1D1AD); (0x1D242, 0x1D244); (0x1DA00, 0x1DA36);
   (0x1DA3B, 0x1DA6C); (0x1DA75, 0x1DA75); (0x1DA84, 0x1DA84); (0x1DA9B, 0x1DA9F);
   (0x1DAA1, 0x1DAAF); (0x1E000, 0x1E006); (0x1E008, 0x1E018); (0x1E01B, 0x1E021);
   (0x1E023, 0x1E024); (0x1E026, 0x1E02A); (0x1E130, 0x1E13D); (0x1E2AE, 0x1E2AE);
   (0x1E2EC, 0x1E2EF); (0x1E8D0, 0x1E8D6); (0x1E944, 0x1E94B); (0x1F3FB, 0x1F3FF);
   (0xE0001, 0xE0001); (0xE0020, 0xE007F); (0xE0100, 0xE01EF)
  ]%Z.

(** The code points with the property Cased that are not Case_Ignorable. *)
Definition casedLetters : list (Z * Z) :=
  [
   (0x0041, 0x005A); (0x0061, 0x007A); (0x00AA, 0x00AA); (0x00B5, 0x00B5);
   (0x00BA, 0x00BA); (0x00C0, 0x00D6); (0x00D8, 0x00F6); (0x00F8, 0x01BA);
   (0x01BC, 0x01BF); (0x01C4, 0x0293); (0x0295, 0x02AF); (0x0370, 0x0373);
   (0x0376, 0x0377); (0x037B, 0x037D); (0x037F, 0x037F); (0x0386, 0x0386);
   (0x0388, 0x038A); (0x038C, 0x038C); (0x038E, 0x03A1); (0x03A3, 0x03F5);
   (0x03F7, 0x0481); (0x048A, 0x052F); (0x0531, 0x0556); (0x0560, 0x0588);
   (0x10A0, 0x10C5); (0x10C7, 0x10C7); (0x10CD, 0x10CD); (0x10D0, 0x10FA);
   (0x10FD, 0x10FF); (0x13A0, 0x13F5); (0x13F8, 0x13FD); (0x1C80, 0x1C88);
   (0x1C90, 0x1CBA); (0x1CBD, 0x1CBF); (0x1D00, 0x1D2B); (0x1D6B, 0x1D77);
   (0x1D79, 0x1D9A); (0x1E00, 0x1F15); (0x1F18, 0x1F1D); (0x1F20, 0x1F45);
   (0x1F48, 0x1F4D); (0x1F50, 0x1F57); (0x1F59, 0x1F59); (0x1F5B, 0x1F5B);
   (0x1F5D, 0x1F5D); (0x1F5F, 0x1F7D); (0x1F80, 0x1FB4); (0x1FB6, 0x1FBC);
   (0x1FBE, 0x1FBE); (0x1FC2, 0x1FC4); (0x1FC6, 0x1FCC); (0x1FD0, 0x1FD3);
   (0x1FD6, 0x1FDB); (0x1FE0, 0x1FEC); (0x1FF2, 0x1FF4); (0x1FF6, 0x1FFC);
   (0x2102, 0x2102); (0x2107, 0x2107); (0x210A, 0x2113); (0x2115, 0x2115);
   (0x2119, 0x211D); (0x2124, 0x2124); (0x2126, 0x2126); (0x2128, 0x2128);
   (0x212A, 0x212D); (0x212F, 0x2134); (0x2139, 0x2139); (0x213C, 0x213F);
   (0x2145, 0x2149); (0x214E, 0x214E); (0x2160, 0x217F); (0x2183, 0x2184);
   (0x24B6, 0x24E9); (0x2C00, 0x2C7B); (0x2C7E, 0x2CE4); (0x2CEB, 0x2CEE);
   (0x2CF2, 0x2CF3); (0x2D00, 0x2D25); (0x2D27, 0x2D27); (0x2D2D, 0x2D2D);
   (0xA640, 0xA66D); (0xA680, 0xA69B); (0xA722, 0xA76F); (0xA771, 0xA787);
   (0xA78B, 0xA78E); (0xA790, 0xA7CA); (0xA7D0, 0xA7D1); (0xA7D3, 0xA7D3);
   (0xA7D5, 0xA7D9); (0xA7F5, 0xA7F6); (0xA7FA, 0xA7FA); (0xAB30, 0xAB5A);
   (0xAB60, 0xAB68); (0xAB70, 0xABBF); (0xFB00, 0xFB06); (0xFB13, 0xFB17);
   (0xFF21, 0xFF3A); (0xFF41, 0xFF5A); (0x10400, 0x1044F); (0x104B0, 0x104D3);
   (0x104D8, 0x104FB); (0x10570, 0x1057A); (0x1057C, 0x1058A); (0x1058C, 0x10592);
   (0x10594, 0x10595); (0x10597, 0x105A1); (0x105A3, 0x105B1); (0x105B3, 0x105B9);
   (0x105BB, 0x105BC); (0x10C80, 0x10CB2); (0x10CC0, 0x10CF2); (0x118A0, 0x118DF);
   (0x16E40, 0x16E7F); (0x1D400, 0x1D454); (0x1D456, 0x1D49C); (0x1D49E, 0x1D49F);
   (0x1D4A2, 0x1D4A2); (0x1D4A5, 0x1D4A6); (0x1D4A9, 0x1D4AC); (0x1D4AE, 0x1D4B9);
   (0x1D4BB, 0x1D4BB); (0x1D4BD, 0x1D4C3); (0x1D4C5, 0x1D505); (0x1D507, 0x1D50A);
   (0x1D50D, 0x1D514); (0x1D516, 0x1D51C); (0x1D51E, 0x1D539); (0x1D53B, 0x1D53E);
   (0x1D540, 0x1D544); (0x1D546, 0x1D546); (0x1D54A, 0x1D550); (0x1D552, 0x1D6A5);
   (0x1D6A8, 0x1D6C0); (0x1D6C2, 0x1D6DA); (0x1D6DC, 0x1D6FA); (0x1D6FC, 0x1D714);
   (0x1D716, 0x1D734); (0x1D736, 0x1D74E); (0x1D750, 0x1D76E); (0x1D770, 0x1D788);
   (0x1D78A, 0x1D7A8); (0x1D7AA, 0x1D7C2); (0x1D7C4, 0x1D7CB); (0x1DF00, 0x1DF09);
   (0x1DF0B, 0x1DF1E); (0x1E900, 0x1E943); (0x1F130, 0x1F149); (0x1F150, 0x1F169);
   (0x1F170, 0x1F189)
  ]%Z.

Definition lowerOf (c : Z) : list Z :=
  if (c =? 0x0130)%Z then [0x0069; 0x0307]%Z
  else
    match find (λ '(first, last, step, _),
                  (first <=? c)%Z && (c <=? last)%Z && ((c - first) mod step =? 0)%Z)
            lowerCaseMappings with
    | Some (_, _, _, delta) => [(c + delta)%Z]
    | None => [c]
    end.

(** Is the next code point that is not case-ignorable a cased letter? *)
Fixpoint casedNext (l : list Z) : bool :=
  match l with
  | [] => false
  | c :: l' => if inRanges c caseIgnorable then casedNext l' else inRanges c casedLetters
  end.

(** [before] holds the code points already read, the nearest first.  A
    capital sigma (U+03A3) that follows a cased letter and is not followed
    by one becomes the final sigma (U+03C2). *)
Fixpoint lowerCodePoints (before l : list Z) : list Z :=
  match l with
  | [] => []
  | c :: rest =>
      (if (c =? 0x03A3)%Z
       then if casedNext before && negb (casedNext rest) then [0x03C2%Z] else [0x03C3%Z]
       else lowerOf c)
      ++ lowerCodePoints (c :: before) rest
  end.

Definition toLowerCase (s : string) : string :=
  stringOfCodePoints (lowerCodePoints [] (codePointsOf s)).

(** WhiteSpace and LineTerminator of the language: TAB, LF, VT, FF, CR,
    the space separators of Unicode, the line and paragraph separators, and
    U+FEFF. *)
Definition isWhiteSpace (c : Z) : bool :=
  inRanges c [(0x0009, 0x000D); (0x0020, 0x0020); (0x00A0, 0x00A0); (0x1680, 0x1680);
              (0x2000, 0x200A); (0x2028, 0x2029); (0x202F, 0x202F); (0x205F, 0x205F);
              (0x3000, 0x3000); (0xFEFF, 0xFEFF)]%Z.

Fixpoint trimStart (l : list Z) : list Z :=
  match l with
  | [] => []
  | c :: l' => if isWhiteSpace c then trimStart l' else l
  end.

Definition trimEnd (l : list Z) : list Z := rev (trimStart (rev l)).

Definition trim (s : string) : string :=
  stringOfCodePoints (trimEnd (trimStart (codePointsOf s))).

Definition setStandings (standings : list ChampionshipStanding.t) (s : AppState) : AppState :=
  {| phase := phase s;
     standings := standings;
     competitionParticipants := competitionParticipants s;
     bracket := bracket s;
     thirdPlaceMatch := thirdPlaceMatch s;
     totalCompetitions := totalCompetitions s;
     competitionsHeld := competitionsHeld s |}.

(** [ctx.db.patch(session._id, { standings, updatedAt })] *)
Definition patchStandings (standings : list ChampionshipStanding.t) (now : Z)
    (session : Session.t) : Session.t :=
  Session.mk (Session._id session) (Session._creationTime session)
    (Session.sessionId session) (Session.adminSecret session)
    (setStandings standings (Session.state session))
    (Session.createdAt session) now.

(** A mutation either throws, and then writes nothing, or returns a value
    together with the new store. *)
Inductive MutationResult (A : Type) :=
| Thrown (message : string)
| Returned (value : A) (db : Database).
Arguments Thrown {A} message.
Arguments Returned {A} value db.

Definition ALREADY_REGISTERED : string := "See nimi on juba registreeritud".

(** [Array(n).fill(0)]: [Array(n)] throws a RangeError unless [n] is an
    array length, an integer from 0 to 2^32 - 1.  The mutation is a
    transaction, so the insertion made before the throw is undone with
    it. *)
Definition INVALID_ARRAY_LENGTH : string := "Invalid array length".

Definition zeros (n : Z) : option (list Q) :=
  if (0 <=? n)%Z && (n <? 2 ^ 32)%Z then Some (replicate (Z.to_nat n) 0%Q) else None.

(** [registerParticipant]; [now] is the value of [Date.now()] in the
    mutation. *)
Definition registerParticipant (now : Z) (sessionId name : string) (db : Database)
  : MutationResult (Z * string) :=
  match firstSession sessionId db with
  | None => Thrown "Session not found"
  | Some (pos, session) =>
      let nameLower := trim (toLowerCase name) in
      let isDuplicate :=
        existsb (λ p, bool_decide (toLowerCase (ChampionshipStanding.name p) = nameLower))
          (standings (Session.state session)) in
      if isDuplicate then Thrown ALREADY_REGISTERED
      else
        let pendingDupe :=
          list_find (λ r, Registration.sessionId r = sessionId
                          ∧ Registration.name r = trim name) (registrations db) in
        match pendingDupe with
        | Some _ => Thrown ALREADY_REGISTERED
        | None =>
            let participantId := now in
            let registration :=
              Registration.mk sessionId participantId (trim name) now false in
            match zeros (competitionsHeld (Session.state session)) with
            | None => Thrown INVALID_ARRAY_LENGTH
            | Some pointsPerCompetition =>
                let newStanding :=
                  ChampionshipStanding.mk participantId (trim name) pointsPerCompetition in
                Returned (participantId, trim name)
                  {| sessions :=
                       alter (patchStandings
                                (standings (Session.state session) ++ [newStanding]) now)
                         pos (sessions db);
                     registrations := registrations db ++ [registration] |}
            end
        end
  end.

(** [removeParticipant] (admin only). *)
Definition removeParticipant (now : Z) (sessionId adminSecret : string) (participantId : Z)
    (db : Database) : MutationResult unit :=
  match firstSession sessionId db with
  | None => Thrown "Session not found"
  | Some (pos, session) =>
      if decide (Session.adminSecret session = adminSecret) then
        Returned tt
          {| sessions :=
               alter (patchStandings
                        (filter (λ p, ChampionshipStanding.id p ≠ participantId)
                           (standings (Session.state session))) now)
                 pos (sessions db);
             registrations := registrations db |}
      else Thrown "Unauthorized"
  end.

(** ** Tournament runs *)

(** The match object a call [handleSetWinner matchId _] assigns to, if any:
    the third-place match when the id is its id, else the first match of the
    bracket with that id. *)
Definition targetMatch (matchId : Z) (s : AppState) : option Match.t :=
  match thirdPlaceMatch s with
  | Some t =>
      if decide (matchId = Match.id t) then Some t
      else (λ '(_, _, m), m) <$> findMatch matchId (bracket s)
  | None => (λ '(_, _, m), m) <$> findMatch matchId (bracket s)
  end.

Definition isSlotParticipant (w : Participant.t) (m : Match.t) : Prop :=
  Match.participant1 m = Some w ∨ Match.participant2 m = Some w.

(** The states of a tournament run: a bracket is generated in a state with
    no third-place match (as [handleStartCompetition] leaves it), then
    winners are selected, with any arguments. *)
Inductive reachable : AppState → Prop :=
| reachable_start allParticipants prev s :
    thirdPlaceMatch prev = None →
    handleStartBracket allParticipants prev = (None, s) →
    reachable s
| reachable_setWinner matchId winner s :
    reachable s → reachable (handleSetWinner matchId winner s).

(** The same, when every selected winner is one of the two slot
    participants of the match it is selected for, which is all the bracket
    view offers to select. *)
Inductive played : AppState → Prop :=
| played_start allParticipants prev s :
    thirdPlaceMatch prev = None →
    handleStartBracket allParticipants prev = (None, s) →
    played s
| played_setWinner matchId winner s :
    played s →
    (∀ m, targetMatch matchId s = Some m → isSlotParticipant winner m) →
    played (handleSetWinner matchId winner s).


(** Two session documents that agree on every field except, possibly, the
    admin secret. *)
Definition differOnlyInAdminSecret (s1 s2 : Session.t) : Prop :=
  Session._id s1 = Session._id s2
  ∧ Session._creationTime s1 = Session._creationTime s2
  ∧ Session.sessionId s1 = Session.sessionId s2
  ∧ Session.state s1 = Session.state s2
  ∧ Session.createdAt s1 = Session.createdAt s2
  ∧ Session.updatedAt s1 = Session.updatedAt s2.


(** ** Notions used in the statements *)

(** The match at position [j] of round [i]. *)
Definition lookup2 (b : BracketData) (i j : nat) : option Match.t :=
  b !! i ≫= (λ round, round !! j).

(** The bracket a call leaves: untouched in the third-place branch of the
    handler, resolved in the other. *)
Definition resolvedBracket (matchId : Z) (winner : Participant.t) (s : AppState)
  : BracketData :=
  match thirdPlaceMatch s with
  | Some t =>
      if decide (matchId = Match.id t) then bracket s
      else resolveInBracket matchId winner (bracket s)
  | None => resolveInBracket matchId winner (bracket s)
  end.

(** The id of the first match of round [r] in a bracket of [R] rounds:
    the number of matches of the rounds before it. *)
Fixpoint idBase (R r : nat) : nat :=
  match r with
  | O => 0
  | S r' => idBase R r' + 2 ^ (R - 1 - r')
  end.

(** The seed of [p] stands in the seeding order at a position of the
    [2 ^ (i + 1)] consecutive positions that feed match [j] of round [i]. *)
Definition inRegion (order : list Z) (i j : nat) (p : Participant.t) : Prop :=
  ∃ k, order !! k = Some (Participant.seed p) ∧ k / 2 ^ (S i) = j.

(** Identifier, indices and link of the match at position [j] of round [i]
    in a bracket of [R] rounds. *)
Definition wfMatch (R i j : nat) (m : Match.t) : Prop :=
  Match.id m = Z.of_nat (idBase R i + j)
  ∧ Match.roundIndex m = Z.of_nat i
  ∧ Match.matchIndex m = Z.of_nat j
  ∧ Match.nextMatchId m
    = (if decide (S i < R) then Some (Z.of_nat (idBase R (S i) + j / 2)) else None).

(** A bracket of [R] rounds whose round [i] has [2 ^ (R - 1 - i)] matches,
    numbered and linked as the builder does. *)
Definition wfShape (R : nat) (b : BracketData) : Prop :=
  length b = R
  ∧ ∀ i round, b !! i = Some round →
      length round = 2 ^ (R - 1 - i)
      ∧ ∀ j m, round !! j = Some m → wfMatch R i j m.

(** Everyone in a slot of a match, or recorded as its winner, comes from
    the part of the seeding order that feeds the match. *)
Definition regionOK (order : list Z) (i j : nat) (m : Match.t) : Prop :=
  ∀ p, Match.participant1 m = Some p ∨ Match.participant2 m = Some p
       ∨ Match.winner m = Some p →
       inRegion order i j p.

Definition regionInv (order : list Z) (b : BracketData) : Prop :=
  ∀ i j m, lookup2 b i j = Some m → regionOK order i j m.

(** A match of round [i] as it is pushed, before the next round links it. *)
Definition unlinked (R i j : nat) (m : Match.t) : Prop :=
  Match.id m = Z.of_nat (idBase R i + j)
  ∧ Match.roundIndex m = Z.of_nat i
  ∧ Match.matchIndex m = Z.of_nat j
  ∧ Match.nextMatchId m = None.

(** Slots, once filled, stay filled, and a winner, once recorded, stays. *)
Definition grows (m m' : Match.t) : Prop :=
  (is_Some (Match.participant1 m) → is_Some (Match.participant1 m'))
  ∧ (is_Some (Match.participant2 m) → is_Some (Match.participant2 m'))
  ∧ (∀ w, Match.winner m = Some w → Match.winner m' = Some w).

(** The same, of every match of a bracket, place by place. *)
Definition bracketGrows (b b' : BracketData) : Prop :=
  length b' = length b
  ∧ ∀ i j, option_Forall2 grows (lookup2 b i j) (lookup2 b' i j).

(** The four fields of a match that a resolution never writes. *)
Definition skeleton (m : Match.t) : Z * Z * Z * option Z :=
  (Match.id m, Match.roundIndex m, Match.matchIndex m, Match.nextMatchId m).

(** What holds of the bracket along a run in which the selected winners are
    slot participants: it has the builder's shape for some number [n] of
    qualifiers, and everyone in it is where the seeding order puts them. *)
Definition playedInv (s : AppState) : Prop :=
  ∃ n, 2 ≤ n
       ∧ wfShape (numRoundsOf n) (bracket s)
       ∧ regionInv (finalSeedOrder (2 ^ numRoundsOf n)) (bracket s).

(** Both semifinals, the two matches of the round before the last, have a
    winner, and at least one of them has both slots filled, that is, has a
    loser. *)
Definition semisSettled (b : BracketData) : Prop :=
  1 < length b
  ∧ ∃ semiFinals,
      b !! (length b - 2) = Some semiFinals
      ∧ length semiFinals = 2
      ∧ forallb hasWinner semiFinals = true
      ∧ 1 ≤ length (losersOf semiFinals).

(** What holds along every run, whatever winners are selected. *)
Definition reachInv (s : AppState) : Prop :=
  ∃ n, 2 ≤ n
       ∧ wfShape (numRoundsOf n) (bracket s)
       ∧ (is_Some (thirdPlaceMatch s) ↔ semisSettled (bracket s))
       ∧ (isTournamentFinished (bracket s) (thirdPlaceMatch s) = true → phase s = FINISHED).

(** A qualifier: a participant with a score, and a positive one. *)
Definition qualifies (p : Participant.t) : Prop :=
  match Participant.score p with
  | Some sc => (0 < sc)%Q
  | None => False
  end.

#[global] Instance qualifies_dec p : Decision (qualifies p).
Proof.
  unfold qualifies. destruct (Participant.score p) as [sc|].
  - destruct (Qlt_le_dec 0 sc) as [Hlt|Hle]; [by left|right; by apply Qle_not_lt].
  - right. intros [].
Defined.

(** [a] is ranked no lower than [b]. *)
Definition scoreGe (a b : Participant.t) : Prop := (scoreOf b <= scoreOf a)%Q.

#[global] Instance Qeq_decision (x y : Q) : Decision (x == y) := Qeq_dec x y.

(** The better seed, the numerically smaller one, is in slot 1 when both
    slots are filled. *)
Definition seedOrdered (m : Match.t) : Prop :=
  ∀ a b, Match.participant1 m = Some a → Match.participant2 m = Some b →
         (Participant.seed a ≤ Participant.seed b)%Z.

(** One selection of a winner, with any arguments. *)
Definition selects (s s' : AppState) : Prop :=
  ∃ matchId winner, s' = handleSetWinner matchId winner s.

(** ** handleReturnToChampionship: placement points, round points and the
    new standings *)

(** [x?.id]: [undefined] when [x] is [null] or [undefined]. *)
Definition idOf (x : option Participant.t) : option Z := Participant.id <$> x.

(** [if (p) pointsToAdd.set(p.id, (pointsToAdd.get(p.id) || 0) + points)] *)
Definition awardIf (p : option Participant.t) (points : Q) (pointsToAdd : gmap Z Q)
  : gmap Z Q :=
  match p with
  | Some p => addPoints (Participant.id p) points pointsToAdd
  | None => pointsToAdd
  end.

(** [bracket[bracket.length - 1]?.[0]] *)
Definition finalMatchOf (b : BracketData) : option Match.t := last b ≫= head.

(** [m?.participant1?.id === x?.id ? m?.participant2 : m?.participant1],
    of the final with its winner and of the third-place match with its
    winner. *)
Definition otherOf (m : option Match.t) (x : option Participant.t) : option Participant.t :=
  if decide (idOf (m ≫= Match.participant1) = idOf x)
  then m ≫= Match.participant2 else m ≫= Match.participant1.

Definition pointMapping : list (nat * Q) := [(8, 48%Q); (16, 32%Q); (32, 16%Q); (64, 10%Q)].

(** [new Set([winner?.id, runnerUp?.id, thirdPlace?.id, fourthPlace?.id].filter(Boolean))]:
    the filter drops [undefined], and the id 0 with it. *)
Definition top4IdsOf (winner runnerUp thirdPlace fourthPlace : option Participant.t)
  : gset Z :=
  list_to_set
    (filter (λ id, id ≠ 0%Z) (omap idOf [winner; runnerUp; thirdPlace; fourthPlace])).

(** [match.winner?.id === match.participant1?.id ? match.participant2 : match.participant1] *)
Definition roundLoser (m : Match.t) : option Participant.t :=
  if decide (idOf (Match.winner m) = idOf (Match.participant1 m))
  then Match.participant2 m else Match.participant1 m.

(** The body of [bracket[roundIndex].forEach(match => ...)]. *)
Definition awardLoser (top4Ids : gset Z) (points : Q) (pointsToAdd : gmap Z Q) (m : Match.t)
  : gmap Z Q :=
  match roundLoser m with
  | Some loser =>
      if decide (Participant.id loser ∈ top4Ids) then pointsToAdd
      else addPoints (Participant.id loser) points pointsToAdd
  | None => pointsToAdd
  end.

(** One pass of [for (const mapping of pointMapping)]. *)
Definition awardMapping (b : BracketData) (top4Ids : gset Z) (pointsToAdd : gmap Z Q)
    (mapping : nat * Q) : gmap Z Q :=
  match list_find (λ r, length r * 2 = mapping.1) b with
  | Some (_, round) => foldl (awardLoser top4Ids mapping.2) pointsToAdd round
  | None => pointsToAdd
  end.

(** The map [pointsToAdd] when the new standings are computed. *)
Definition pointsToAddOf (prev : AppState) : gmap Z Q :=
  let pointsToAdd :=
    pointsAfterQualification (standings prev) (competitionParticipants prev) in
  let finalMatch := finalMatchOf (bracket prev) in
  let winner := finalMatch ≫= Match.winner in
  let runnerUp := otherOf finalMatch winner in
  let thirdPlace := thirdPlaceMatch prev ≫= Match.winner in
  let fourthPlace := otherOf (thirdPlaceMatch prev) thirdPlace in
  let pointsToAdd := awardIf winner 100 pointsToAdd in
  let pointsToAdd := awardIf runnerUp 88 pointsToAdd in
  let pointsToAdd := awardIf thirdPlace 76 pointsToAdd in
  let pointsToAdd := awardIf fourthPlace 64 pointsToAdd in
  let top4Ids := top4IdsOf winner runnerUp thirdPlace fourthPlace in
  foldl (awardMapping (bracket prev) top4Ids) pointsToAdd pointMapping.

(** [pointsPerCompetition.reduce((s, p) => s + p, 0)] *)
Definition totalOf (standing : ChampionshipStanding.t) : Q :=
  foldl Qplus 0%Q (ChampionshipStanding.pointsPerCompetition standing).

(** [{...standing, pointsPerCompetition: [...standing.pointsPerCompetition,
    pointsToAdd.get(standing.id) || 0]}] *)
Definition withCompetitionPoints (pointsToAdd : gmap Z Q) (standing : ChampionshipStanding.t)
  : ChampionshipStanding.t :=
  ChampionshipStanding.mk (ChampionshipStanding.id standing)
    (ChampionshipStanding.name standing)
    (ChampionshipStanding.pointsPerCompetition standing
       ++ [default 0%Q (pointsToAdd !! ChampionshipStanding.id standing)]).

(** The stable sort with the comparator [(a, b) => total(b) - total(a)],
    as for the scores. *)
Fixpoint insertByTotal (a : ChampionshipStanding.t) (l : list ChampionshipStanding.t)
  : list ChampionshipStanding.t :=
  match l with
  | [] => [a]
  | b :: l' =>
      if Qltb (totalOf a) (totalOf b) then b :: insertByTotal a l' else a :: b :: l'
  end.

Definition sortByTotalDesc (l : list ChampionshipStanding.t) : list ChampionshipStanding.t :=
  foldr insertByTotal [] l.

Definition handleReturnToChampionship (prev : AppState) : AppState :=
  let pointsToAdd := pointsToAddOf prev in
  let newStandings :=
    sortByTotalDesc (withCompetitionPoints pointsToAdd <$> standings prev) in
  {| phase := CHAMPIONSHIP_VIEW;
     standings := newStandings;
     competitionParticipants := competitionParticipants prev;
     bracket := bracket prev;
     thirdPlaceMatch := thirdPlaceMatch prev;
     totalCompetitions := totalCompetitions prev;
     competitionsHeld := competitionsHeld prev + 1 |}.

(** [a] stands no lower than [b] in the season table. *)
Definition totalGe (a b : ChampionshipStanding.t) : Prop := (totalOf b <= totalOf a)%Q.

(** Every row of the season table has one entry per competition held. *)
Definition standingsInSync (s : AppState) : Prop :=
  (0 ≤ competitionsHeld s)%Z
  ∧ ∀ standing, standing ∈ standings s →
      Z.of_nat (length (ChampionshipStanding.pointsPerCompetition standing))
      = competitionsHeld s.

(** [pointsToAdd.get(id) || 0] *)
Definition pointsOf (pointsToAdd : gmap Z Q) (id : Z) : Q := default 0%Q (pointsToAdd !! id).

(** No entry of the second map is below that of the first. *)
Definition ptsLe (m m' : gmap Z Q) : Prop := ∀ id, (pointsOf m id <= pointsOf m' id)%Q.

(** The placements read from the final and the third-place match, each with
    the points it earns. *)
Definition podiumOf (prev : AppState) : list (option Participant.t * Q) :=
  let finalMatch := finalMatchOf (bracket prev) in
  let winner := finalMatch ≫= Match.winner in
  let thirdPlace := thirdPlaceMatch prev ≫= Match.winner in
  [(winner, 100%Q); (otherOf finalMatch winner, 88%Q);
   (thirdPlace, 76%Q); (otherOf (thirdPlaceMatch prev) thirdPlace, 64%Q)].

(** [id] is the id of nobody who took part: of no participant with a
    positive score, of nobody in a slot of a match, and of no recorded
    winner. *)
Definition tookNoPart (id : Z) (s : AppState) : Prop :=
  (id ∉ Participant.id <$> filter qualifies (competitionParticipants s))
  ∧ (∀ i j m p, lookup2 (bracket s) i j = Some m →
        isSlotParticipant p m ∨ Match.winner m = Some p → Participant.id p ≠ id)
  ∧ (∀ t p, thirdPlaceMatch s = Some t →
        isSlotParticipant p t ∨ Match.winner t = Some p → Participant.id p ≠ id).

(** ** The other queries and mutations of [convex/sessions.ts] *)

Definition getSessionWithSecret (sessionId : string) (db : Database) : option Session.t :=
  snd <$> firstSession sessionId db.

(** [withIndex("by_sessionId_unprocessed",
      q => q.eq("sessionId", sessionId).eq("processed", false)).collect()] *)
Definition getPendingRegistrations (sessionId : string) (db : Database)
  : list Registration.t :=
  filter (λ r, Registration.sessionId r = sessionId ∧ Registration.processed r = false)
    (registrations db).

(** [createSession]; [_id] and [_creationTime] are the values the store
    gives the inserted document, [secret] is the value of [generateSecret()]
    and [now] that of [Date.now()]. *)
Definition createSession (_id _creationTime now : Z) (secret : string) (sessionId : string)
    (db : Database) : MutationResult (string * string) :=
  match firstSession sessionId db with
  | Some (_, existing) => Returned (sessionId, Session.adminSecret existing) db
  | None =>
      let adminSecret := secret in
      Returned (sessionId, adminSecret)
        {| sessions :=
             sessions db
             ++ [Session.mk _id _creationTime sessionId adminSecret
                   {| phase := CHAMPIONSHIP_VIEW; standings := [];
                      competitionParticipants := []; bracket := [];
                      thirdPlaceMatch := None; totalCompetitions := None;
                      competitionsHeld := 0 |}
                   now now];
           registrations := registrations db |}
  end.

(** [ctx.db.patch(session._id, { ...args.state, updatedAt })] *)
Definition patchState (state : AppState) (now : Z) (session : Session.t) : Session.t :=
  Session.mk (Session._id session) (Session._creationTime session)
    (Session.sessionId session) (Session.adminSecret session)
    state (Session.createdAt session) now.

(** [updateSessionState] (admin only). *)
Definition updateSessionState (now : Z) (sessionId adminSecret : string) (state : AppState)
    (db : Database) : MutationResult unit :=
  match firstSession sessionId db with
  | None => Thrown "Session not found"
  | Some (pos, session) =>
      if decide (Session.adminSecret session = adminSecret) then
        Returned tt
          {| sessions := alter (patchState state now) pos (sessions db);
             registrations := registrations db |}
      else Thrown "Unauthorized: Invalid admin secret"
  end.

(** [addParticipant] (admin only). *)
Definition addParticipant (now : Z) (sessionId adminSecret name : string) (db : Database)
  : MutationResult ChampionshipStanding.t :=
  match firstSession sessionId db with
  | None => Thrown "Session not found"
  | Some (pos, session) =>
      if decide (Session.adminSecret session = adminSecret) then
        let nameLower := trim (toLowerCase name) in
        if existsb (λ p, bool_decide (toLowerCase (ChampionshipStanding.name p) = nameLower))
             (standings (Session.state session))
        then Thrown "See nimi on juba olemas"
        else
          match zeros (competitionsHeld (Session.state session)) with
          | None => Thrown INVALID_ARRAY_LENGTH
          | Some pointsPerCompetition =>
              let newStanding :=
                ChampionshipStanding.mk now (trim name) pointsPerCompetition in
              Returned newStanding
                {| sessions :=
                     alter (patchStandings
                              (standings (Session.state session) ++ [newStanding]) now)
                       pos (sessions db);
                   registrations := registrations db |}
          end
      else Thrown "Unauthorized"
  end.

(** The standings of the session with this id, if there is one. *)
Definition standingsOf (sessionId : string) (db : Database)
  : option (list ChampionshipStanding.t) :=
  (λ s, standings (PublicSession.state s)) <$> getSession sessionId db.

(** ** The effect that brings registrations into the local state *)

(** Truthiness of [sessionId] and of [adminSecret], which are [null] or a
    string: the empty string is falsy. *)
Definition truthy (s : option string) : bool :=
  match s with
  | Some (String _ _) => true
  | _ => false
  end.

(** [convexSession.standings.filter(s => !localStandingIds.has(s.id))] *)
Definition newParticipantsOf (convexStandings localStandings : list ChampionshipStanding.t)
  : list ChampionshipStanding.t :=
  let localStandingIds : gset Z := list_to_set (ChampionshipStanding.id <$> localStandings) in
  filter (λ s, ChampionshipStanding.id s ∉ localStandingIds) convexStandings.

(** [p => ({ id: p.id, name: p.name, pointsPerCompetition: p.pointsPerCompetition })] *)
Definition copyStanding (p : ChampionshipStanding.t) : ChampionshipStanding.t :=
  ChampionshipStanding.mk (ChampionshipStanding.id p) (ChampionshipStanding.name p)
    (ChampionshipStanding.pointsPerCompetition p).

(** One run of the effect: [convexSession] is the result of the query (no
    value while it loads or when there is no session), [appState] the state
    the effect sees and [prev] the state the update is applied to; the
    result is the state after the run. *)
Definition syncRegistrations (convexSession : option PublicSession.t)
    (sessionId adminSecret : option string) (appState prev : AppState) : AppState :=
  match convexSession with
  | Some session =>
      if truthy sessionId && truthy adminSecret then
        let newParticipants :=
          newParticipantsOf (standings (PublicSession.state session)) (standings appState) in
        if decide (0 < length newParticipants)
        then setStandings (standings prev ++ (copyStanding <$> newParticipants)) prev
        else prev
      else prev
  | None => prev
  end.

(** ** The spectators' view ([LiveResultsView.tsx]) *)

(** [[...participants].filter(p => p.score !== null)
      .sort((a, b) => (b.score ?? 0) - (a.score ?? 0))] *)
Definition sortedParticipants (participants : list Participant.t) : list Participant.t :=
  sortByScoreDesc (filter (λ p, is_Some (Participant.score p)) participants).

(** [[...standings].sort((a, b) => getTotalPoints(b) - getTotalPoints(a))] *)
Definition sortedStandings (standings : list ChampionshipStanding.t)
  : list ChampionshipStanding.t :=
  sortByTotalDesc standings.

(** ** Notions used for the qualification points *)

(** [setCompetitionParticipants] called with a value. *)
Definition setCompetitionParticipants (participants : list Participant.t) (s : AppState)
  : AppState :=
  {| phase := phase s;
     standings := standings s;
     competitionParticipants := participants;
     bracket := bracket s;
     thirdPlaceMatch := thirdPlaceMatch s;
     totalCompetitions := totalCompetitions s;
     competitionsHeld := competitionsHeld s |}.

(** The points of the rank table that go to [id] in a ranking whose first
    position has rank [index + 1]: the table value of every rank held by a
    participant with this id, added up. *)
Fixpoint rankPointsOf (index : nat) (ranking : list Participant.t) (id : Z) : Q :=
  match ranking with
  | [] => 0
  | p :: rest =>
      (if decide (Participant.id p = id)
       then qualificationPointsOf (Z.of_nat index + 1) else 0)
      + rankPointsOf (S index) rest id
  end.

(** Every entry of the first map is that of the second plus [d]. *)
Definition ptsShift (d : Z → Q) (m m' : gmap Z Q) : Prop :=
  ∀ id, pointsOf m id == pointsOf m' id + d id.
(** * Properties *)

(** Halved match indices occur throughout: [lia] is told about division. *)
Ltac Zify.zify_post_hook ::= Z.to_euclidean_division_equations.

#[local] Arguments Nat.div : simpl never.
#[local] Arguments Nat.modulo : simpl never.
#[local] Arguments Nat.pow : simpl never.

(** ** Seeding order *)

(** C6. The seeding order the doubling loop produces is [1,8,4,5,2,7,3,6]
    for a bracket of 8, [1,4,2,3] for a bracket of 4 and [1,2] for a bracket
    of 2. *)
Theorem seeding_order_8_4_2 :
  finalSeedOrder 8 = [1; 8; 4; 5; 2; 7; 3; 6]%Z
  ∧ finalSeedOrder 4 = [1; 4; 2; 3]%Z
  ∧ finalSeedOrder 2 = [1; 2]%Z.
Proof. repeat split; vm_compute; reflexivity. Qed.

(** ** The ranking *)

Lemma Qltb_spec x y : reflect (x < y)%Q (Qltb x y).
Proof.
  unfold Qltb. destruct (Qle_bool y x) eqn:Hle; simpl; constructor.
  - apply Qle_bool_iff in Hle. by apply Qle_not_lt.
  - apply Qnot_le_lt. intros Hle'. apply Qle_bool_iff in Hle'. congruence.
Qed.

Lemma hasPositiveScore_true p :
  hasPositiveScore p = true ↔ ∃ sc, Participant.score p = Some sc ∧ (0 < sc)%Q.
Proof.
  unfold hasPositiveScore. destruct (Participant.score p) as [sc|]; split.
  - destruct (Qltb_spec 0 sc); [eauto|done].
  - intros (sc' & [= <-] & Hpos). by destruct (Qltb_spec 0 sc).
  - done.
  - by intros (sc' & ? & _).
Qed.

Lemma qualifies_hasPositiveScore p : qualifies p ↔ hasPositiveScore p = true.
Proof.
  rewrite hasPositiveScore_true. unfold qualifies.
  destruct (Participant.score p) as [sc|]; split; try done; eauto.
  - by intros (sc' & [= <-] & ?).
  - by intros (sc' & ? & _).
Qed.

Lemma filter_qualifies (l : list Participant.t) :
  filter (λ p, hasPositiveScore p = true) l = filter qualifies l.
Proof. apply list_filter_iff. intros p. symmetry. apply qualifies_hasPositiveScore. Qed.

Lemma insertByScore_perm a l : insertByScore a l ≡ₚ a :: l.
Proof.
  induction l as [|b l IH]; simpl; [done|].
  destruct (Qltb (scoreOf a) (scoreOf b)); [|done].
  rewrite IH. apply perm_swap.
Qed.

Lemma sortByScoreDesc_perm l : sortByScoreDesc l ≡ₚ l.
Proof.
  induction l as [|a l IH]; simpl; [done|].
  by rewrite insertByScore_perm, IH.
Qed.

Lemma insertByScore_sorted a l :
  StronglySorted scoreGe l → StronglySorted scoreGe (insertByScore a l).
Proof.
  induction l as [|b l IH]; intros Hsorted; simpl.
  - by repeat constructor.
  - apply StronglySorted_inv in Hsorted as [Hl Hb].
    destruct (Qltb_spec (scoreOf a) (scoreOf b)) as [Hlt|Hge].
    + constructor; [by apply IH|].
      rewrite insertByScore_perm. constructor; [|done].
      unfold scoreGe. by apply Qlt_le_weak.
    + apply Qnot_lt_le in Hge.
      constructor; [by constructor|].
      constructor; [done|].
      eapply Forall_impl; [exact Hb|]. unfold scoreGe. intros x Hx.
      by apply Qle_trans with (scoreOf b).
Qed.

Lemma sortByScoreDesc_sorted l : StronglySorted scoreGe (sortByScoreDesc l).
Proof.
  induction l as [|a l IH]; simpl; [constructor|]. by apply insertByScore_sorted.
Qed.

(** The sort is stable: the participants of any one score keep the order
    they had in the input. *)
Lemma insertByScore_stable z a l :
  filter (λ p, scoreOf p == z) (insertByScore a l)
  = filter (λ p, scoreOf p == z) (a :: l).
Proof.
  induction l as [|b l IH]; simpl; [done|].
  destruct (Qltb_spec (scoreOf a) (scoreOf b)) as [Hlt|Hge]; [|done].
  rewrite (filter_cons _ b), IH, !filter_cons.
  destruct (decide (scoreOf b == z)) as [Hb|Hb], (decide (scoreOf a == z)) as [Ha|Ha];
    try done.
  rewrite Ha, Hb in Hlt. by apply Qlt_irrefl in Hlt.
Qed.

Lemma sortByScoreDesc_stable z l :
  filter (λ p, scoreOf p == z) (sortByScoreDesc l) = filter (λ p, scoreOf p == z) l.
Proof.
  induction l as [|a l IH]; simpl; [done|].
  rewrite insertByScore_stable, !filter_cons, IH. done.
Qed.

(** ** Bracket generation and the state *)

Lemma length_insertByScore a l : length (insertByScore a l) = S (length l).
Proof.
  induction l as [|b l IH]; simpl; [done|].
  destruct (Qltb (scoreOf a) (scoreOf b)); simpl; by rewrite ?IH.
Qed.

Lemma length_sortByScoreDesc l : length (sortByScoreDesc l) = length l.
Proof.
  induction l as [|a l IH]; simpl; [done|].
  by rewrite length_insertByScore, IH.
Qed.

Lemma length_qualifiedParticipants allParticipants :
  length (qualifiedParticipants allParticipants)
  = length (filter qualifies allParticipants).
Proof.
  unfold qualifiedParticipants.
  by rewrite length_imap, length_sortByScoreDesc, filter_qualifies.
Qed.

(** C5. With fewer than 2 participants of positive score (a score that is
    null or 0 does not count) the generation is refused: the handler alerts
    and the state stays as it was, bracket and phase included. *)
Theorem startBracket_insufficient_qualifiers allParticipants prev :
  length (filter qualifies allParticipants) < 2 →
  handleStartBracket allParticipants prev = (Some (NotEnoughQualifiers 2), prev).
Proof.
  intros Hfew. unfold handleStartBracket.
  rewrite length_qualifiedParticipants. unfold MIN_PARTICIPANTS.
  by rewrite decide_True.
Qed.

Lemma startBracket_insufficient_qualifiers_witness :
  let one := [Participant.mk 1 "a" (Some 50%Q) 0; Participant.mk 2 "b" (Some 0%Q) 0;
              Participant.mk 3 "c" None 0] in
  handleStartBracket one getInitialState = (Some (NotEnoughQualifiers 2), getInitialState).
Proof.
  apply (startBracket_insufficient_qualifiers
           [Participant.mk 1 "a" (Some 50%Q) 0; Participant.mk 2 "b" (Some 0%Q) 0;
            Participant.mk 3 "c" None 0] getInitialState).
  vm_compute. lia.
Defined.

(** C4, as the claim states it, fails: a third-place match present before
    the generation is still there after it. *)
Lemma startBracket_keeps_thirdPlace_counterexample :
  let a := Participant.mk 1 "a" (Some 50%Q) 0 in
  let b := Participant.mk 2 "b" (Some 30%Q) 0 in
  let old := thirdPlaceOf (Some a) (Some b) None in
  let prev := mkAppState QUALIFICATION [] [a; b] [] (Some old) None 0 in
  2 ≤ length (filter qualifies [a; b])
  ∧ (handleStartBracket [a; b] prev).1 = None
  ∧ thirdPlaceMatch (handleStartBracket [a; b] prev).2 = Some old
  ∧ thirdPlaceMatch (handleStartBracket [a; b] prev).2 ≠ None.
Proof. vm_compute. repeat split; [lia | discriminate]. Qed.

(** C4, amended.  With at least 2 qualifiers the generation replaces the
    bracket and moves to the bracket phase; the third-place match and the
    other fields are left as they were.  The third-place match is cleared by
    [handleStartCompetition], so it is null after a generation that follows
    it. *)
Theorem startBracket_replaces_bracket_only allParticipants prev :
  2 ≤ length (filter qualifies allParticipants) →
  let s := (handleStartBracket allParticipants prev).2 in
  (handleStartBracket allParticipants prev).1 = None
  ∧ bracket s = buildBracket (qualifiedParticipants allParticipants)
  ∧ phase s = BRACKET
  ∧ thirdPlaceMatch s = thirdPlaceMatch prev
  ∧ standings s = standings prev
  ∧ competitionParticipants s = competitionParticipants prev
  ∧ totalCompetitions s = totalCompetitions prev
  ∧ competitionsHeld s = competitionsHeld prev
  ∧ thirdPlaceMatch (handleStartCompetition prev) = None
  ∧ thirdPlaceMatch (handleStartBracket allParticipants (handleStartCompetition prev)).2 = None.
Proof.
  intros Henough. unfold handleStartBracket.
  rewrite length_qualifiedParticipants. unfold MIN_PARTICIPANTS.
  rewrite !decide_False by lia. simpl. repeat split.
Qed.

Lemma startBracket_replaces_bracket_only_witness :
  let a := Participant.mk 1 "a" (Some 50%Q) 0 in
  let b := Participant.mk 2 "b" (Some 30%Q) 0 in
  let prev := mkAppState QUALIFICATION [] [a; b] []
                (Some (thirdPlaceOf (Some a) (Some b) None)) None 0 in
  thirdPlaceMatch (handleStartBracket [a; b] prev).2 = thirdPlaceMatch prev
  ∧ thirdPlaceMatch (handleStartBracket [a; b] (handleStartCompetition prev)).2 = None.
Proof.
  pose proof (startBracket_replaces_bracket_only
                [Participant.mk 1 "a" (Some 50%Q) 0; Participant.mk 2 "b" (Some 30%Q) 0]
                (mkAppState QUALIFICATION []
                   [Participant.mk 1 "a" (Some 50%Q) 0; Participant.mk 2 "b" (Some 30%Q) 0] []
                   (Some (thirdPlaceOf (Some (Participant.mk 1 "a" (Some 50%Q) 0))
                            (Some (Participant.mk 2 "b" (Some 30%Q) 0)) None)) None 0)
                ltac:(vm_compute; lia)) as H.
  simpl in H. split; [apply H | apply H].
Defined.

(** ** The public session query *)

Lemma firstSession_public sessionId l1 l2 :
  Forall2 differOnlyInAdminSecret l1 l2 →
  (publicSessionOf ∘ snd) <$> list_find (λ s, Session.sessionId s = sessionId) l1
  = (publicSessionOf ∘ snd) <$> list_find (λ s, Session.sessionId s = sessionId) l2.
Proof.
  induction 1 as [|s1 s2 l1 l2 Hs _ IH]; [done|].
  destruct Hs as (Hid & Hct & Hsid & Hst & Hca & Hua). simpl.
  rewrite <- Hsid.
  destruct (decide (Session.sessionId s1 = sessionId)); simpl.
  - unfold publicSessionOf. congruence.
  - rewrite <- !option_fmap_compose. apply IH.
Qed.

(** C10. The result of [getSession] has no admin-secret field, and two
    stores whose session documents differ only in their admin secrets give
    the same result for every session id. *)
Theorem getSession_independent_of_adminSecret sessionId db1 db2 :
  Forall2 differOnlyInAdminSecret (sessions db1) (sessions db2) →
  getSession sessionId db1 = getSession sessionId db2.
Proof.
  intros Hdb. apply (firstSession_public sessionId) in Hdb.
  unfold getSession, firstSession.
  destruct (list_find _ (sessions db1)) as [[? ?]|],
           (list_find _ (sessions db2)) as [[? ?]|]; simpl in *; congruence.
Qed.

Lemma getSession_independent_of_adminSecret_witness :
  let st := getInitialState in
  getSession "dmec-1" (mkDatabase [Session.mk 7 1 "dmec-1" "k3x9" st 1 2] [])
  = getSession "dmec-1" (mkDatabase [Session.mk 7 1 "dmec-1" "q0v4" st 1 2] []).
Proof.
  apply (getSession_independent_of_adminSecret "dmec-1"
           (mkDatabase [Session.mk 7 1 "dmec-1" "k3x9" getInitialState 1 2] [])
           (mkDatabase [Session.mk 7 1 "dmec-1" "q0v4" getInitialState 1 2] [])).
  simpl. constructor; [|constructor].
  unfold differOnlyInAdminSecret. simpl. repeat split; reflexivity.
Defined.

(** ** Names *)

(** The two string functions beyond ASCII: letters with diacritics, the
    final sigma, the one special case of the lower-case mapping, the white
    space that [trim] removes (here U+00A0, U+3000 and U+FEFF) and a control
    character that it keeps (U+0085). *)
Lemma toLowerCase_trim_examples :
  toLowerCase "Ülle ÕUN" = "ülle õun"
  ∧ toLowerCase "ΌΣΟΣ ΣΑΣ" = "όσος σας"
  ∧ toLowerCase "İ" = stringOfCodePoints [0x0069; 0x0307]%Z
  ∧ trim (stringOfCodePoints [0x00A0; 0x0020]%Z ++ "Mari Maasikas"
          ++ stringOfCodePoints [0x3000; 0xFEFF; 0x000A]%Z) = "Mari Maasikas"
  ∧ trim (stringOfCodePoints [0x0085]%Z ++ "Mari") = stringOfCodePoints [0x0085]%Z ++ "Mari"
  ∧ trim "   " = "".
Proof. vm_compute. repeat split; reflexivity. Qed.

(** ** Registration *)

(** The check against the standings: lower-cased stored name against the
    lower-cased, trimmed submitted name. *)
Lemma registerParticipant_standings_duplicate now sessionId name db pos session p :
  firstSession sessionId db = Some (pos, session) →
  p ∈ standings (Session.state session) →
  toLowerCase (ChampionshipStanding.name p) = trim (toLowerCase name) →
  registerParticipant now sessionId name db = Thrown ALREADY_REGISTERED.
Proof.
  intros Hfirst Hp Hname. unfold registerParticipant. rewrite Hfirst.
  assert (existsb (λ p, bool_decide (toLowerCase (ChampionshipStanding.name p)
                                     = trim (toLowerCase name)))
            (standings (Session.state session)) = true) as ->; [|done].
  apply existsb_exists. exists p. split; [by apply list_elem_of_In|].
  by apply bool_decide_eq_true.
Qed.

(** The check against the registration records: stored name against the
    trimmed submitted name, as they are. *)
Lemma registerParticipant_pending_duplicate now sessionId name db pos session r :
  firstSession sessionId db = Some (pos, session) →
  r ∈ registrations db →
  Registration.sessionId r = sessionId →
  Registration.name r = trim name →
  registerParticipant now sessionId name db = Thrown ALREADY_REGISTERED.
Proof.
  intros Hfirst Hr Hsid Hname. unfold registerParticipant. rewrite Hfirst.
  destruct (existsb _ _); [done|].
  destruct (list_find _ (registrations db)) as [[k r']|] eqn:Hfind; [done|].
  apply list_find_None in Hfind. rewrite Forall_forall in Hfind.
  exfalso. by apply (Hfind r Hr).
Qed.

(** C9 (the code departs from it).  The comparison with the registration
    records is exact, not case-insensitive: once "Alice" has registered
    and been removed from the standings by the admin, "alice" is
    accepted although the registration record "Alice" is still there,
    while "Alice" is refused. *)
Theorem register_pending_check_is_case_sensitive :
  let session := Session.mk 1 0 "s" "k" getInitialState 0 0 in
  let db0 := mkDatabase [session] [] in
  ∃ db1 db2 db3,
    registerParticipant 5 "s" "Alice" db0 = Returned (5%Z, "Alice") db1
    ∧ removeParticipant 6 "s" "k" 5 db1 = Returned tt db2
    ∧ registrations db2 = [Registration.mk "s" 5 "Alice" 5 false]
    ∧ toLowerCase (trim "Alice") = toLowerCase (trim "alice")
    ∧ registerParticipant 7 "s" "Alice" db2 = Thrown ALREADY_REGISTERED
    ∧ registerParticipant 7 "s" "alice" db2 = Returned (7%Z, "alice") db3
    ∧ registrations db3
      = [Registration.mk "s" 5 "Alice" 5 false; Registration.mk "s" 7 "alice" 7 false].
Proof.
  do 3 eexists. repeat split; vm_compute; reflexivity.
Qed.

(** ** Qualification points *)

Lemma qualificationAwards_other index ranking pointsToAdd id :
  id ∉ Participant.id <$> ranking →
  qualificationAwards index ranking pointsToAdd !! id = pointsToAdd !! id.
Proof.
  revert index pointsToAdd. induction ranking as [|p rest IH]; intros index m Hid; [done|].
  simpl in *. apply not_elem_of_cons in Hid as [Hne Hid].
  rewrite IH by done. unfold addPoints. by rewrite lookup_insert_ne.
Qed.

Lemma qualificationAwards_at index ranking pointsToAdd i p :
  NoDup (Participant.id <$> ranking) →
  ranking !! i = Some p →
  qualificationAwards index ranking pointsToAdd !! Participant.id p
  = Some (default 0 (pointsToAdd !! Participant.id p)
          + qualificationPointsOf (Z.of_nat (index + i) + 1))%Q.
Proof.
  revert index pointsToAdd i.
  induction ranking as [|q rest IH]; intros index m i Hnd Hi; [done|].
  simpl in Hnd. apply NoDup_cons in Hnd as [Hq Hnd].
  destruct i as [|i]; simpl in *.
  - injection Hi as ->.
    rewrite qualificationAwards_other by done.
    unfold addPoints. rewrite lookup_insert_eq. by rewrite Nat.add_0_r.
  - assert (Participant.id p ≠ Participant.id q) as Hne.
    { intros Heq. apply Hq. rewrite <- Heq.
      apply list_elem_of_fmap. exists p. split; [done|].
      by apply list_elem_of_lookup_2 with i. }
    rewrite (IH (S index) _ i) by done.
    unfold addPoints at 1. rewrite lookup_insert_ne by done.
    do 4 f_equal. lia.
Qed.

Lemma initial_points_zero (standings : list ChampionshipStanding.t) (id : Z) :
  default 0%Q (foldl (λ m p, <[ChampionshipStanding.id p := 0%Q]> m) (∅ : gmap Z Q) standings !! id)
  = 0%Q.
Proof.
  assert (∀ m : gmap Z Q, default 0%Q (m !! id) = 0%Q →
            default 0%Q (foldl (λ m p, <[ChampionshipStanding.id p := 0%Q]> m) m standings !! id)
            = 0%Q) as Hgen.
  { induction standings as [|p rest IH]; intros m Hm; [done|].
    simpl. apply IH.
    destruct (decide (ChampionshipStanding.id p = id)) as [->|Hne].
    - by rewrite lookup_insert_eq.
    - by rewrite lookup_insert_ne. }
  apply Hgen. by rewrite lookup_empty.
Qed.

(** ** Searching and updating a bracket *)

Lemma list_find_alter {A} (P : A → Prop) `{!∀ x, Decision (P x)} (f : A → A) j l :
  (∀ x, P (f x) ↔ P x) →
  list_find P (alter f j l)
  = (λ '(k, x), (k, if decide (k = j) then f x else x)) <$> list_find P l.
Proof.
  intros Hf. revert j. induction l as [|x l IH]; intros j; [done|].
  destruct j as [|j]; simpl.
  - destruct (decide (P (f x))) as [HP|HP], (decide (P x)) as [HP'|HP'].
    + done.
    + exfalso. apply HP'. by apply Hf.
    + exfalso. apply HP. by apply Hf.
    + destruct (list_find P l) as [[k y]|]; done.
  - destruct (decide (P x)); [done|].
    change (list_alter f j l) with (alter f j l).
    rewrite IH. destruct (list_find P l) as [[k y]|]; simpl; [|done].
    repeat case_decide; try lia; done.
Qed.

Lemma findMatch_updateMatch matchId i j f b :
  (∀ m, Match.id (f m) = Match.id m) →
  findMatch matchId (updateMatch i j f b)
  = (λ '(i', j', m), (i', j', if decide (i' = i ∧ j' = j) then f m else m))
      <$> findMatch matchId b.
Proof.
  intros Hf. unfold updateMatch. revert i.
  induction b as [|round rest IH]; intros i; [done|].
  destruct i as [|i]; simpl.
  - rewrite list_find_alter by (intros m; by rewrite Hf).
    destruct (list_find _ round) as [[k x]|]; simpl.
    + repeat case_decide; try done; lia.
    + destruct (findMatch matchId rest) as [[[i' j'] m]|]; simpl; [|done].
      repeat case_decide; try done; lia.
  - destruct (list_find _ round) as [[k x]|]; simpl.
    + repeat case_decide; try done; lia.
    + change (list_alter (alter f j) i rest) with (alter (alter f j) i rest).
      rewrite IH. destruct (findMatch matchId rest) as [[[i' j'] m]|]; simpl; [|done].
      repeat case_decide; try done; lia.
Qed.

Lemma findMatch_lookup2 matchId b i j m :
  findMatch matchId b = Some (i, j, m) → lookup2 b i j = Some m ∧ Match.id m = matchId.
Proof.
  revert i. induction b as [|round rest IH]; intros i; [done|]. simpl.
  destruct (list_find _ round) as [[k x]|] eqn:Hfind.
  - intros [= <- <- <-]. apply list_find_Some in Hfind as (? & ? & _). done.
  - destruct (findMatch matchId rest) as [[[i' j'] m']|]; [|done].
    simpl. intros [= <- <- <-]. by apply IH.
Qed.

Lemma lookup2_updateMatch b i j f i' j' :
  lookup2 (updateMatch i j f b) i' j'
  = if decide (i' = i ∧ j' = j) then f <$> lookup2 b i' j' else lookup2 b i' j'.
Proof.
  unfold lookup2, updateMatch.
  destruct (decide (i' = i)) as [->|Hi].
  - rewrite list_lookup_alter_eq. destruct (b !! i) as [round|]; simpl.
    + destruct (decide (j' = j)) as [->|Hj].
      * rewrite decide_True by done. by rewrite list_lookup_alter_eq.
      * rewrite decide_False by lia. by rewrite list_lookup_alter_ne.
    + by case_decide.
  - rewrite list_lookup_alter_ne by done. rewrite decide_False by lia. done.
Qed.

Lemma length_updateMatch i j f b : length (updateMatch i j f b) = length b.
Proof. unfold updateMatch. by rewrite length_alter. Qed.

Lemma bracket_handleSetWinner matchId winner s :
  bracket (handleSetWinner matchId winner s) = resolvedBracket matchId winner s.
Proof.
  unfold handleSetWinner, resolvedBracket.
  destruct (thirdPlaceMatch s) as [t|]; [destruct (decide (matchId = Match.id t))|]; done.
Qed.

Lemma winner_placeWinner matchIndex w m :
  Match.winner (placeWinner matchIndex w m) = Match.winner m.
Proof.
  unfold placeWinner. cbv zeta.
  destruct (Z.rem matchIndex 2 =? 0)%Z;
    match goal with |- context [orderBySeed ?a ?b] => destruct (orderBySeed a b) end; done.
Qed.

Lemma id_placeWinner matchIndex w m :
  Match.id (placeWinner matchIndex w m) = Match.id m.
Proof.
  unfold placeWinner. cbv zeta.
  destruct (Z.rem matchIndex 2 =? 0)%Z;
    match goal with |- context [orderBySeed ?a ?b] => destruct (orderBySeed a b) end; done.
Qed.

(** The search for the resolved match succeeds again after the resolution,
    at the same place, and finds the winner there. *)
Lemma resolveInBracket_assigns matchId w b i j m :
  findMatch matchId b = Some (i, j, m) →
  Match.winner m = None →
  ∃ m', findMatch matchId (resolveInBracket matchId w b) = Some (i, j, m')
        ∧ Match.winner m' = Some w.
Proof.
  intros Hfind Hnone. unfold resolveInBracket. rewrite Hfind, Hnone.
  assert (findMatch matchId (updateMatch i j (withWinner (Some w)) b)
          = Some (i, j, withWinner (Some w) m)) as Hfind1.
  { rewrite findMatch_updateMatch by done. rewrite Hfind. simpl.
    by rewrite decide_True. }
  destruct (Match.nextMatchId m) as [nextId|]; [|eauto].
  destruct (findMatch nextId _) as [[[i' j'] nextMatch]|]; [|eauto].
  rewrite findMatch_updateMatch by apply id_placeWinner.
  rewrite Hfind1. simpl. eexists. split; [done|].
  case_decide; [by rewrite winner_placeWinner|done].
Qed.

(** A bracket match that has its winner is left alone, and so is the
    bracket. *)
Lemma resolveInBracket_resolved matchId w b i j m :
  findMatch matchId b = Some (i, j, m) →
  is_Some (Match.winner m) →
  resolveInBracket matchId w b = b.
Proof.
  intros Hfind [w' Hw]. unfold resolveInBracket. by rewrite Hfind, Hw.
Qed.

(** ** Selecting a winner *)

(** C1 (the code departs from it).  The guard on an existing winner is in
    the bracket branch only: a second call on the third-place match replaces
    its winner.  Four qualifiers, both semifinals played, then the
    third-place match given to seed 3 and after that to seed 4. *)
Theorem thirdPlace_winner_is_overwritten :
  let four := [Participant.mk 11 "a" (Some 100%Q) 0; Participant.mk 12 "b" (Some 90%Q) 0;
               Participant.mk 13 "c" (Some 80%Q) 0; Participant.mk 14 "d" (Some 70%Q) 0] in
  let a := Participant.mk 11 "a" (Some 100%Q) 1 in
  let b := Participant.mk 12 "b" (Some 90%Q) 2 in
  let c := Participant.mk 13 "c" (Some 80%Q) 3 in
  let d := Participant.mk 14 "d" (Some 70%Q) 4 in
  let s0 := (handleStartBracket four (handleStartCompetition getInitialState)).2 in
  let s2 := handleSetWinner 1 b (handleSetWinner 0 a s0) in
  let s3 := handleSetWinner 999 c s2 in
  let s4 := handleSetWinner 999 d s3 in
  reachable s3
  ∧ thirdPlaceMatch s2 = Some (thirdPlaceOf (Some c) (Some d) None)
  ∧ thirdPlaceMatch s3 = Some (thirdPlaceOf (Some c) (Some d) (Some c))
  ∧ thirdPlaceMatch s4 = Some (thirdPlaceOf (Some c) (Some d) (Some d))
  ∧ s4 ≠ s3.
Proof.
  intros four a b c d s0 s2 s3 s4. split.
  - do 3 apply reachable_setWinner.
    apply (reachable_start four (handleStartCompetition getInitialState)); [done|].
    by vm_compute.
  - vm_compute. repeat split. discriminate.
Qed.

(** C2, as the claim states it, fails: a participant who is in neither slot
    of a match is made its winner, and advances. *)
Lemma setWinner_outsider_counterexample :
  let four := [Participant.mk 11 "a" (Some 100%Q) 0; Participant.mk 12 "b" (Some 90%Q) 0;
               Participant.mk 13 "c" (Some 80%Q) 0; Participant.mk 14 "d" (Some 70%Q) 0] in
  let b := Participant.mk 12 "b" (Some 90%Q) 2 in
  let s0 := (handleStartBracket four (handleStartCompetition getInitialState)).2 in
  ∃ m m',
    lookup2 (bracket s0) 0 0 = Some m
    ∧ Match.id m = 0%Z
    ∧ Match.participant1 m ≠ Some b ∧ Match.participant2 m ≠ Some b
    ∧ lookup2 (bracket (handleSetWinner 0 b s0)) 0 0 = Some m'
    ∧ Match.winner m' = Some b
    ∧ handleSetWinner 0 b s0 ≠ s0.
Proof.
  do 2 eexists. vm_compute. repeat split; discriminate.
Qed.

(** C2, amended.  The handler does not compare the winner with the slots
    and reports nothing: whoever is passed becomes the winner of a match
    that has no winner yet, be it a bracket match or the third-place match,
    and the state changes. *)
Theorem setWinner_assigns_any_participant matchId w s :
  (∀ i j m,
     (∀ t, thirdPlaceMatch s = Some t → matchId ≠ Match.id t) →
     findMatch matchId (bracket s) = Some (i, j, m) →
     Match.winner m = None →
     (∃ m', findMatch matchId (bracket (handleSetWinner matchId w s)) = Some (i, j, m')
            ∧ Match.winner m' = Some w)
     ∧ handleSetWinner matchId w s ≠ s)
  ∧ (∀ t,
       thirdPlaceMatch s = Some t → matchId = Match.id t →
       Match.winner t = None →
       thirdPlaceMatch (handleSetWinner matchId w s) = Some (withWinner (Some w) t)
       ∧ handleSetWinner matchId w s ≠ s).
Proof.
  split.
  - intros i j m Hthird Hfind Hnone.
    assert (∃ m', findMatch matchId (bracket (handleSetWinner matchId w s)) = Some (i, j, m')
                  ∧ Match.winner m' = Some w) as (m' & Hfind' & Hw').
    { rewrite bracket_handleSetWinner. unfold resolvedBracket.
      destruct (thirdPlaceMatch s) as [t|].
      + rewrite decide_False by (by apply Hthird).
        by apply resolveInBracket_assigns with m.
      + by apply resolveInBracket_assigns with m. }
    split; [by exists m'|].
    intros Hsame. rewrite Hsame, Hfind in Hfind'. congruence.
  - intros t Ht -> Hnone.
    assert (thirdPlaceMatch (handleSetWinner (Match.id t) w s)
            = Some (withWinner (Some w) t)) as Hthird.
    { unfold handleSetWinner. rewrite Ht. by rewrite decide_True. }
    split; [done|].
    intros Hsame. rewrite Hsame, Ht in Hthird. injection Hthird as Hthird.
    rewrite Hthird in Hnone. done.
Qed.

Lemma setWinner_assigns_any_participant_witness :
  let x := Participant.mk 99 "x" None 0 in
  let m := Match.mk 0 0 0 None None None None in
  let s := mkAppState BRACKET [] [] [[m]] (Some (thirdPlaceOf None None None)) None 0 in
  (∃ m', findMatch 0 (bracket (handleSetWinner 0 x s)) = Some (0, 0, m')
         ∧ Match.winner m' = Some x)
  ∧ thirdPlaceMatch (handleSetWinner 999 x s)
    = Some (withWinner (Some x) (thirdPlaceOf None None None)).
Proof.
  split.
  - apply (proj1 (setWinner_assigns_any_participant 0 (Participant.mk 99 "x" None 0)
             (mkAppState BRACKET [] [] [[Match.mk 0 0 0 None None None None]]
                (Some (thirdPlaceOf None None None)) None 0)) 0 0
             (Match.mk 0 0 0 None None None None)).
    + intros t [= <-]. vm_compute. discriminate.
    + reflexivity.
    + reflexivity.
  - apply (proj2 (setWinner_assigns_any_participant 999 (Participant.mk 99 "x" None 0)
             (mkAppState BRACKET [] [] [[Match.mk 0 0 0 None None None None]]
                (Some (thirdPlaceOf None None None)) None 0))
             (thirdPlaceOf None None None)); reflexivity.
Defined.

(** ** The seeding order *)

Lemma bind_pair_lookup {A} (g : A → A) (l : list A) k :
  (l ≫= (λ s, [s; g s])) !! (2 * k) = l !! k
  ∧ (l ≫= (λ s, [s; g s])) !! (S (2 * k)) = g <$> l !! k.
Proof.
  revert k. induction l as [|x l IH]; intros k; [done|].
  destruct k as [|k]; [done|].
  replace (2 * S k) with (S (S (2 * k))) by lia. simpl. apply IH.
Qed.

Lemma length_nextSeedsOf seeds : length (nextSeedsOf seeds) = 2 * length seeds.
Proof.
  unfold nextSeedsOf. generalize (Z.of_nat (length seeds) * 2)%Z. intros c.
  induction seeds as [|s seeds IH]; [done|].
  rewrite bind_cons, length_app, IH. simpl. lia.
Qed.

Lemma nextSeedsOf_lookup seeds k s :
  nextSeedsOf seeds !! k = Some s →
  ∃ s0, seeds !! (k / 2) = Some s0
        ∧ ((k mod 2 = 0 ∧ s = s0)
           ∨ (k mod 2 = 1 ∧ s = (Z.of_nat (length seeds) * 2 + 1 - s0)%Z)).
Proof.
  unfold nextSeedsOf.
  pose proof (bind_pair_lookup (λ s, (Z.of_nat (length seeds) * 2 + 1 - s)%Z) seeds (k / 2))
    as [Heven Hodd].
  pose proof (Nat.div_mod_eq k 2) as Hk.
  pose proof (Nat.mod_upper_bound k 2) as Hlt.
  destruct (decide (k mod 2 = 0)) as [H0|H1].
  - assert (k = 2 * (k / 2)) as Hk2 by lia. rewrite <- Hk2 in Heven. rewrite Heven.
    intros Hs. exists s. auto.
  - assert (k = S (2 * (k / 2))) as Hk2 by lia. rewrite <- Hk2 in Hodd. rewrite Hodd.
    destruct (seeds !! (k / 2)) as [s0|]; [|done].
    intros Hs. injection Hs as <-. exists s0. split; [done|]. right. split; [lia|done].
Qed.

Lemma length_seeds_iter t : length (Nat.iter t nextSeedsOf [1%Z]) = 2 ^ t.
Proof.
  induction t as [|t IH]; [done|].
  simpl Nat.iter. rewrite length_nextSeedsOf, IH. by rewrite Nat.pow_succ_r'.
Qed.

(** The loop runs until the order has [bracketSize] seeds: the fuel is
    not what stops it. *)
Lemma seedLoop_iter R fuel d t :
  t + d = R → d ≤ fuel →
  seedLoop fuel (2 ^ R) (Nat.iter t nextSeedsOf [1%Z]) = Nat.iter R nextSeedsOf [1%Z].
Proof.
  revert fuel t. induction d as [|d IH]; intros fuel t Ht Hfuel.
  - replace t with R by lia.
    destruct fuel; simpl; [done|].
    rewrite decide_False; [done|]. rewrite length_seeds_iter. lia.
  - destruct fuel as [|fuel]; [lia|]. simpl.
    rewrite decide_True.
    + apply (IH fuel (S t)); lia.
    + rewrite length_seeds_iter. apply Nat.pow_lt_mono_r; lia.
Qed.

Lemma finalSeedOrder_pow2 R : finalSeedOrder (2 ^ R) = Nat.iter R nextSeedsOf [1%Z].
Proof.
  unfold finalSeedOrder. apply (seedLoop_iter R (2 ^ R) R 0); [lia|].
  apply Nat.lt_le_incl, Nat.pow_gt_lin_r. lia.
Qed.

Lemma length_finalSeedOrder R : length (finalSeedOrder (2 ^ R)) = 2 ^ R.
Proof. by rewrite finalSeedOrder_pow2, length_seeds_iter. Qed.

Lemma seeds_iter_range t k s :
  Nat.iter t nextSeedsOf [1%Z] !! k = Some s → (1 ≤ s ≤ Z.of_nat (2 ^ t))%Z.
Proof.
  revert k s. induction t as [|t IH]; intros k s.
  - destruct k as [|k]; [|done]. simpl. intros [= <-]. lia.
  - simpl Nat.iter. intros Hs.
    apply nextSeedsOf_lookup in Hs as (s0 & Hs0 & Hcase).
    apply IH in Hs0. rewrite length_seeds_iter in Hcase.
    rewrite Nat.pow_succ_r'. destruct Hcase as [[_ ->]|[_ ->]]; lia.
Qed.

(** Seed 1 stands first in the order. *)
Lemma seed_one_position t k :
  Nat.iter t nextSeedsOf [1%Z] !! k = Some 1%Z → k = 0.
Proof.
  revert k. induction t as [|t IH]; intros k.
  - destruct k; done.
  - simpl Nat.iter. intros Hs.
    apply nextSeedsOf_lookup in Hs as (s0 & Hs0 & Hcase).
    rewrite length_seeds_iter in Hcase.
    pose proof (seeds_iter_range _ _ _ Hs0) as Hrange.
    pose proof (Nat.div_mod_eq k 2) as Hk.
    destruct Hcase as [[Hmod <-]|[Hmod Heq]].
    + apply IH in Hs0. lia.
    + lia.
Qed.

(** Seed 2 opens the second half of the order. *)
Lemma seed_two_position t k :
  Nat.iter (S t) nextSeedsOf [1%Z] !! k = Some 2%Z → k = 2 ^ t.
Proof.
  revert k. induction t as [|t IH]; intros k.
  - destruct k as [|[|k]]; done.
  - simpl Nat.iter. intros Hs.
    apply nextSeedsOf_lookup in Hs as (s0 & Hs0 & Hcase).
    change (nextSeedsOf (Nat.iter t nextSeedsOf [1%Z]))
      with (Nat.iter (S t) nextSeedsOf [1%Z]) in *.
    rewrite length_seeds_iter in Hcase.
    pose proof (seeds_iter_range _ _ _ Hs0) as Hrange.
    pose proof (Nat.div_mod_eq k 2) as Hk.
    assert (2 ≤ 2 ^ S t) as Hpow.
    { rewrite Nat.pow_succ_r'. pose proof (Nat.pow_nonzero 2 t). lia. }
    destruct Hcase as [[Hmod <-]|[Hmod Heq]].
    + apply IH in Hs0. rewrite (Nat.pow_succ_r' 2 t). lia.
    + lia.
Qed.

(** ** The participant map and the first round *)

Lemma participantMapOf_seed qualified s p :
  participantMapOf qualified !! s = Some p → Participant.seed p = s.
Proof.
  unfold participantMapOf.
  assert (∀ m0 : gmap Z Participant.t,
            (∀ s p, m0 !! s = Some p → Participant.seed p = s) →
            ∀ s p, foldl (λ m p, <[Participant.seed p := p]> m) m0 qualified !! s = Some p →
                   Participant.seed p = s) as Hgen.
  { induction qualified as [|q rest IH]; intros m0 Hm0 s' p'; [apply Hm0|].
    simpl. apply IH. intros s1 p1.
    destruct (decide (Participant.seed q = s1)) as [<-|Hne].
    - rewrite lookup_insert_eq. by intros [= <-].
    - rewrite lookup_insert_ne by done. apply Hm0. }
  apply Hgen. intros s' p'. by rewrite lookup_empty.
Qed.

Lemma participantMapOf_is_Some qualified p :
  p ∈ qualified → is_Some (participantMapOf qualified !! Participant.seed p).
Proof.
  unfold participantMapOf.
  assert (∀ m0 : gmap Z Participant.t,
            p ∈ qualified ∨ is_Some (m0 !! Participant.seed p) →
            is_Some (foldl (λ m p, <[Participant.seed p := p]> m) m0 qualified
                     !! Participant.seed p)) as Hgen.
  { induction qualified as [|q rest IH]; intros m0 Hm0; simpl.
    - destruct Hm0 as [Hin|?]; [|done]. by apply elem_of_nil in Hin.
    - apply IH.
      destruct (decide (Participant.seed q = Participant.seed p)) as [Heq|Hne].
      + right. rewrite Heq, lookup_insert_eq. eauto.
      + rewrite lookup_insert_ne by done.
        destruct Hm0 as [Hin|?]; [|by right].
        apply elem_of_cons in Hin as [->|Hin]; [done|by left]. }
  intros Hin. apply Hgen. by left.
Qed.

Lemma qualifiedParticipants_seed allParticipants i p :
  qualifiedParticipants allParticipants !! i = Some p →
  Participant.seed p = (Z.of_nat i + 1)%Z.
Proof.
  unfold qualifiedParticipants. rewrite list_lookup_imap.
  destruct (_ !! i) as [q|]; [|done]. simpl. by intros [= <-].
Qed.

Lemma firstRoundFrom_lookup participantMap order k j m :
  firstRoundFrom k participantMap order !! j = Some m →
  let participant1 := order !! (2 * j) ≫= (λ s, participantMap !! s) in
  let participant2 := order !! (S (2 * j)) ≫= (λ s, participantMap !! s) in
  m = Match.mk (Z.of_nat (k + j)) 0 (Z.of_nat (k + j)) participant1 participant2
        (byeWinner participant1 participant2) None.
Proof.
  revert k order. induction j as [|j IH]; intros k order.
  - destruct order as [|a [|b rest]]; [done| |]; simpl;
      rewrite Nat.add_0_r; by intros [= <-].
  - destruct order as [|a [|b rest]]; [done|done|].
    replace (2 * S j) with (S (S (2 * j))) by lia.
    replace (k + S j) with (S k + j) by lia.
    simpl firstRoundFrom. intros Hm. apply IH in Hm. exact Hm.
Qed.

Lemma length_firstRoundFrom participantMap order k h :
  length order = 2 * h → length (firstRoundFrom k participantMap order) = h.
Proof.
  revert k order. induction h as [|h IH]; intros k order Hlen.
  - by destruct order.
  - destruct order as [|a [|b rest]]; simpl in Hlen; [lia|lia|].
    simpl. f_equal. apply IH. lia.
Qed.

Lemma orderBySeed_cases p1 p2 :
  orderBySeed p1 p2 = (p1, p2) ∨ orderBySeed p1 p2 = (p2, p1).
Proof.
  unfold orderBySeed. destruct p1 as [a|], p2 as [b|]; auto.
  destruct (Participant.seed b <? Participant.seed a)%Z; auto.
Qed.

Lemma byeWinner_cases p1 p2 :
  byeWinner p1 p2 = None ∨ byeWinner p1 p2 = p1 ∨ byeWinner p1 p2 = p2.
Proof. destruct p1, p2; simpl; auto. Qed.

Lemma inRegion_next order i j p :
  inRegion order i j p → inRegion order (S i) (j / 2) p.
Proof.
  intros (k & Hk & <-). exists k. split; [done|].
  rewrite (Nat.pow_succ_r' 2 (S i)), (Nat.mul_comm 2).
  by rewrite Nat.Div0.div_div.
Qed.

(** ** The rounds the builder makes *)

Lemma lookup_cons_S {A} (x : A) l t : (x :: l) !! S t = l !! t.
Proof. done. Qed.

Lemma buildRounds_S k roundIndex matchIdCounter numPrev previousRound :
  buildRounds (S k) roundIndex matchIdCounter numPrev previousRound
  = imap (linkTo (pairUp previousRound roundIndex matchIdCounter <$> seq 0 (numPrev / 2)))
      previousRound
    :: buildRounds k (roundIndex + 1) (matchIdCounter + Z.of_nat (numPrev / 2))
         (numPrev / 2)
         (pairUp previousRound roundIndex matchIdCounter <$> seq 0 (numPrev / 2)).
Proof. reflexivity. Qed.

Lemma pairUp_lookup previousRound roundIndex matchIdCounter n j m :
  (pairUp previousRound roundIndex matchIdCounter <$> seq 0 n) !! j = Some m ↔
  j < n ∧ m = pairUp previousRound roundIndex matchIdCounter j.
Proof.
  rewrite list_lookup_fmap. split.
  - destruct (seq 0 n !! j) as [j'|] eqn:Hj; [|done].
    apply lookup_seq in Hj as [-> ?]. simpl. intros [= <-]. done.
  - intros [Hlt ->].
    assert (seq 0 n !! j = Some (0 + j)) as -> by (by apply lookup_seq).
    done.
Qed.

Lemma pairUp_fields previousRound roundIndex matchIdCounter j :
  let m := pairUp previousRound roundIndex matchIdCounter j in
  Match.id m = (matchIdCounter + Z.of_nat j)%Z
  ∧ Match.roundIndex m = roundIndex
  ∧ Match.matchIndex m = Z.of_nat j
  ∧ Match.winner m = None
  ∧ Match.nextMatchId m = None
  ∧ ∀ p, Match.participant1 m = Some p ∨ Match.participant2 m = Some p →
         ∃ m0, (previousRound !! (j * 2) = Some m0 ∨ previousRound !! (j * 2 + 1) = Some m0)
               ∧ Match.winner m0 = Some p.
Proof.
  unfold pairUp.
  destruct (orderBySeed_cases (previousRound !! (j * 2) ≫= Match.winner)
              (previousRound !! (j * 2 + 1) ≫= Match.winner)) as [-> | ->];
    simpl; repeat split; intros p [Hp|Hp];
    apply bind_Some in Hp as (m0 & Hm0 & Hw); eauto.
Qed.

Lemma pow2_half e : 2 ^ S e / 2 = 2 ^ e.
Proof. rewrite Nat.pow_succ_r', Nat.mul_comm. apply Nat.div_mul. lia. Qed.

Lemma buildRounds_spec R order k :
  ∀ r previousRound,
    r + k + 1 = R →
    length previousRound = 2 ^ (R - 1 - r) →
    (∀ j m, previousRound !! j = Some m → unlinked R r j m ∧ regionOK order r j m) →
    let b := buildRounds k (Z.of_nat (S r)) (Z.of_nat (idBase R (S r)))
               (2 ^ (R - 1 - r)) previousRound in
    length b = S k
    ∧ (∀ t round, b !! t = Some round →
         length round = 2 ^ (R - 1 - (r + t))
         ∧ ∀ j m, round !! j = Some m →
             wfMatch R (r + t) j m ∧ regionOK order (r + t) j m
             ∧ (0 < t → Match.winner m = None))
    ∧ (∀ j m, lookup2 b 0 j = Some m →
         ∃ m0, previousRound !! j = Some m0
               ∧ Match.winner m = Match.winner m0
               ∧ Match.participant1 m = Match.participant1 m0
               ∧ Match.participant2 m = Match.participant2 m0).
Proof.
  induction k as [|k IH]; intros r prev HR Hlen Hprev b.
  - subst b. simpl. split; [done|]. split.
    + intros [|t] round; [|done]. simpl. intros [= <-].
      rewrite Nat.add_0_r. split; [done|].
      intros j m Hm. destruct (Hprev j m Hm) as [(Hid & Hri & Hmi & Hnext) Hreg].
      split; [|split; [done|lia]].
      unfold wfMatch. rewrite decide_False by lia. done.
    + intros j m. unfold lookup2. simpl. intros Hm. exists m. done.
  - subst b. rewrite buildRounds_S.
    set (e := R - 1 - S r).
    assert (R - 1 - r = S e) as He by (unfold e; lia).
    rewrite He in *. rewrite pow2_half.
    set (cur := pairUp prev (Z.of_nat (S r)) (Z.of_nat (idBase R (S r))) <$> seq 0 (2 ^ e)).
    assert (length cur = 2 ^ e) as Hcurlen.
    { unfold cur. by rewrite length_fmap, length_seq. }
    assert (∀ j m, cur !! j = Some m →
                   unlinked R (S r) j m ∧ regionOK order (S r) j m
                   ∧ Match.winner m = None) as Hcur.
    { intros j m Hm. apply pairUp_lookup in Hm as [Hj ->].
      pose proof (pairUp_fields prev (Z.of_nat (S r)) (Z.of_nat (idBase R (S r))) j)
        as (Hid & Hri & Hmi & Hw & Hnext & Hslots).
      split; [|split; [|done]].
      - unfold unlinked. rewrite Hid, Hri, Hmi, Hnext. repeat split. lia.
      - intros p [Hp|[Hp|Hp]]; [| |congruence].
        + destruct (Hslots p (or_introl Hp)) as (m0 & Hm0 & Hw0).
          destruct Hm0 as [Hm0|Hm0];
            destruct (Hprev _ _ Hm0) as [_ Hreg];
            specialize (Hreg p (or_intror (or_intror Hw0)));
            apply inRegion_next in Hreg;
            [replace (j * 2 / 2) with j in Hreg by lia
            |replace ((j * 2 + 1) / 2) with j in Hreg by lia]; done.
        + destruct (Hslots p (or_intror Hp)) as (m0 & Hm0 & Hw0).
          destruct Hm0 as [Hm0|Hm0];
            destruct (Hprev _ _ Hm0) as [_ Hreg];
            specialize (Hreg p (or_intror (or_intror Hw0)));
            apply inRegion_next in Hreg;
            [replace (j * 2 / 2) with j in Hreg by lia
            |replace ((j * 2 + 1) / 2) with j in Hreg by lia]; done. }
    specialize (IH (S r) cur).
    replace (Z.of_nat (S r) + 1)%Z with (Z.of_nat (S (S r))) by lia.
    replace (Z.of_nat (idBase R (S r)) + Z.of_nat (2 ^ e))%Z
      with (Z.of_nat (idBase R (S (S r)))) by (simpl; fold e; lia).
    fold e in IH.
    destruct IH as (IHlen & IHrounds & IHfirst); [lia|done| |].
    { intros j m Hm. destruct (Hcur j m Hm) as (? & ? & ?). done. }
    split; [by rewrite length_cons, IHlen|]. split.
    + intros [|t] round.
      * simpl. intros [= <-]. rewrite Nat.add_0_r, He, length_imap.
        split; [done|]. intros j m Hm.
        rewrite list_lookup_imap in Hm.
        destruct (prev !! j) as [m0|] eqn:Hm0; [|done].
        simpl in Hm. injection Hm as <-.
        destruct (Hprev j m0 Hm0) as [(Hid & Hri & Hmi & Hnext) Hreg].
        split; [|split; [done|lia]].
        unfold wfMatch, linkTo. simpl. repeat split; [done..|].
        rewrite decide_True by lia.
        apply lookup_lt_Some in Hm0. rewrite Hlen in Hm0.
        assert (j / 2 < 2 ^ e) as Hhalf.
        { rewrite Nat.pow_succ_r' in Hm0. apply Nat.Div0.div_lt_upper_bound. lia. }
        assert (cur !! (j / 2)
                = Some (pairUp prev (Z.of_nat (S r)) (Z.of_nat (idBase R (S r))) (j / 2)))
          as -> by (by apply pairUp_lookup).
        pose proof (pairUp_fields prev (Z.of_nat (S r)) (Z.of_nat (idBase R (S r))) (j / 2))
          as (Hid' & _).
        cbn [fmap option_fmap option_map]. rewrite Hid'. f_equal.
        change (idBase R (S r)) with (idBase R r + 2 ^ (R - 1 - r)). lia.
      * rewrite lookup_cons_S. intros Hround. replace (r + S t) with (S r + t) by lia.
        destruct (IHrounds t round Hround) as [Hl Hms]. split; [done|].
        intros j m Hm. destruct (Hms j m Hm) as (? & ? & ?). split; [done|].
        split; [done|]. intros _.
        destruct t as [|t]; [|auto with lia].
        destruct (IHfirst j m) as (m0 & Hm0 & Hw & _).
        { unfold lookup2. by rewrite Hround. }
        rewrite Hw. by apply Hcur in Hm0 as (_ & _ & ?).
    + intros j m. unfold lookup2. simpl. rewrite list_lookup_imap.
      destruct (prev !! j) as [m0|]; [|done]. simpl. intros [= <-].
      exists m0. done.
Qed.

Lemma numRoundsOf_pos n : 2 ≤ n → 1 ≤ numRoundsOf n.
Proof.
  intros Hn. unfold numRoundsOf.
  pose proof (Z.log2_up_pos (Z.of_nat n)). lia.
Qed.

Lemma lookup2_Some b i j m :
  lookup2 b i j = Some m ↔ ∃ round, b !! i = Some round ∧ round !! j = Some m.
Proof.
  unfold lookup2. split.
  - intros H. apply bind_Some in H. exact H.
  - intros H. apply bind_Some. exact H.
Qed.

(** What the builder returns for at least 2 qualifiers: the shape, the
    provenance of everyone placed, no winner beyond the first round, and the
    first round read off the seeding order. *)
Lemma buildBracket_spec qualified :
  2 ≤ length qualified →
  let R := numRoundsOf (length qualified) in
  let order := finalSeedOrder (2 ^ R) in
  let b := buildBracket qualified in
  wfShape R b
  ∧ regionInv order b
  ∧ (∀ i j m, 0 < i → lookup2 b i j = Some m → Match.winner m = None)
  ∧ (∀ j m, lookup2 b 0 j = Some m →
       let participant1 := order !! (2 * j) ≫= (λ s, participantMapOf qualified !! s) in
       let participant2 := order !! (S (2 * j)) ≫= (λ s, participantMapOf qualified !! s) in
       Match.participant1 m = participant1
       ∧ Match.participant2 m = participant2
       ∧ Match.winner m = byeWinner participant1 participant2).
Proof.
  intros Hn R order b.
  pose proof (numRoundsOf_pos _ Hn) as HR. fold R in HR.
  set (firstRound := firstRoundFrom 0 (participantMapOf qualified) order).
  assert (2 ^ R = 2 * 2 ^ (R - 1)) as Hpow.
  { rewrite <- Nat.pow_succ_r'. f_equal. lia. }
  assert (length firstRound = 2 ^ (R - 1 - 0)) as Hlen.
  { apply length_firstRoundFrom. unfold order.
    rewrite length_finalSeedOrder, Nat.sub_0_r. done. }
  assert (∀ j m, firstRound !! j = Some m →
                 Match.participant1 m
                 = order !! (2 * j) ≫= (λ s, participantMapOf qualified !! s)
                 ∧ Match.participant2 m
                   = order !! (S (2 * j)) ≫= (λ s, participantMapOf qualified !! s)
                 ∧ Match.winner m
                   = byeWinner (Match.participant1 m) (Match.participant2 m)
                 ∧ unlinked R 0 j m) as Hfirst.
  { intros j m Hm. apply firstRoundFrom_lookup in Hm. subst m. simpl.
    repeat split. }
  assert (∀ j m, firstRound !! j = Some m → unlinked R 0 j m ∧ regionOK order 0 j m)
    as Hpre.
  { intros j m Hm. destruct (Hfirst j m Hm) as (Hp1 & Hp2 & Hw & Hun).
    split; [done|].
    assert (∀ p, Match.participant1 m = Some p ∨ Match.participant2 m = Some p →
                 inRegion order 0 j p) as Hslots.
    { intros p [Hp|Hp]; [rewrite Hp1 in Hp|rewrite Hp2 in Hp];
        apply bind_Some in Hp as (s & Hs & Hpm);
        apply participantMapOf_seed in Hpm; subst s;
        eexists; (split; [exact Hs|]); rewrite Nat.pow_1_r; lia. }
    intros p [Hp|[Hp|Hp]]; [by apply Hslots; left|by apply Hslots; right|].
    rewrite Hw in Hp.
    destruct (byeWinner_cases (Match.participant1 m) (Match.participant2 m))
      as [Hb|[Hb|Hb]]; rewrite Hb in Hp; [done| |].
    - apply Hslots. by left.
    - apply Hslots. by right. }
  pose proof (buildRounds_spec R order (R - 1) 0 firstRound ltac:(lia) Hlen Hpre)
    as (Hblen & Hrounds & Hround0).
  assert (b = buildRounds (R - 1) (Z.of_nat 1) (Z.of_nat (idBase R 1))
                (2 ^ (R - 1 - 0)) firstRound) as Hb.
  { unfold b, buildBracket, bracketSizeOf. fold R. fold order. fold firstRound.
    f_equal.
    - rewrite Hlen. simpl. done.
    - rewrite Hpow, Nat.sub_0_r, Nat.mul_comm. apply Nat.div_mul. lia. }
  rewrite <- Hb in *. clear Hb.
  split; [|split; [|split]].
  - split; [lia|]. intros i round Hround.
    destruct (Hrounds i round Hround) as [Hl Hms]. split; [done|].
    intros j m Hm. by apply Hms.
  - intros i j m Hm. apply lookup2_Some in Hm as (round & Hround & Hm).
    destruct (Hrounds i round Hround) as [_ Hms]. by apply Hms.
  - intros i j m Hi Hm. apply lookup2_Some in Hm as (round & Hround & Hm).
    destruct (Hrounds i round Hround) as [_ Hms].
    destruct (Hms j m Hm) as (_ & _ & Hw). by apply Hw.
  - intros j m Hm. destruct (Hround0 j m Hm) as (m0 & Hm0 & Hw & Hp1 & Hp2).
    destruct (Hfirst j m0 Hm0) as (Hq1 & Hq2 & Hw0 & _).
    simpl. rewrite Hw, Hp1, Hp2, Hw0, Hq1, Hq2. done.
Qed.

(** ** Well-formed brackets *)

Lemma idBase_step_le R i i' : i < i' → idBase R i + 2 ^ (R - 1 - i) ≤ idBase R i'.
Proof.
  induction i' as [|i' IH]; [lia|]. intros Hi. simpl.
  destruct (decide (i = i')) as [->|Hne]; [lia|].
  specialize (IH ltac:(lia)). lia.
Qed.

Lemma idBase_inj R i j i' j' :
  j < 2 ^ (R - 1 - i) → j' < 2 ^ (R - 1 - i') →
  idBase R i + j = idBase R i' + j' → i = i' ∧ j = j'.
Proof.
  intros Hj Hj' Heq.
  destruct (Nat.lt_trichotomy i i') as [Hlt|[->|Hlt]].
  - pose proof (idBase_step_le R i i' Hlt). lia.
  - lia.
  - pose proof (idBase_step_le R i' i Hlt). lia.
Qed.

Lemma wfShape_lookup2 R b i j m :
  wfShape R b → lookup2 b i j = Some m →
  i < R ∧ j < 2 ^ (R - 1 - i) ∧ wfMatch R i j m.
Proof.
  intros [Hlen Hrounds] Hm. apply lookup2_Some in Hm as (round & Hround & Hm).
  destruct (Hrounds i round Hround) as [Hl Hms].
  apply lookup_lt_Some in Hround as Hi. apply lookup_lt_Some in Hm as Hj.
  split; [lia|]. split; [lia|]. by apply Hms.
Qed.

Lemma findMatch_complete b i j m :
  lookup2 b i j = Some m → is_Some (findMatch (Match.id m) b).
Proof.
  revert i. induction b as [|round rest IH]; intros i Hm; [by destruct i|].
  simpl. destruct (list_find _ round) as [[k x]|] eqn:Hfind; [eauto|].
  destruct i as [|i].
  - apply list_find_None in Hfind. unfold lookup2 in Hm. simpl in Hm.
    rewrite Forall_lookup in Hfind. by apply Hfind in Hm.
  - destruct (IH i Hm) as [[[i' j'] m'] ->]. simpl. eauto.
Qed.

(** In a well-formed bracket the ids are distinct, and the search for the
    id of a match returns that match. *)
Lemma wfShape_findMatch R b i j m :
  wfShape R b → lookup2 b i j = Some m → findMatch (Match.id m) b = Some (i, j, m).
Proof.
  intros Hwf Hm.
  destruct (findMatch_complete b i j m Hm) as [[[i' j'] m'] Hfind].
  rewrite Hfind. apply findMatch_lookup2 in Hfind as [Hm' Hid].
  destruct (wfShape_lookup2 R b i j m Hwf Hm) as (_ & Hj & Hidm & _).
  destruct (wfShape_lookup2 R b i' j' m' Hwf Hm') as (_ & Hj' & Hidm' & _).
  destruct (idBase_inj R i j i' j' Hj Hj') as [-> ->]; [lia|].
  congruence.
Qed.

Lemma wfShape_findMatch_inv R b matchId i j m :
  wfShape R b → findMatch matchId b = Some (i, j, m) →
  matchId = Z.of_nat (idBase R i + j) ∧ j < 2 ^ (R - 1 - i) ∧ lookup2 b i j = Some m.
Proof.
  intros Hwf Hfind. apply findMatch_lookup2 in Hfind as [Hm <-].
  destruct (wfShape_lookup2 R b i j m Hwf Hm) as (_ & Hj & Hid & _). done.
Qed.

Lemma wfShape_updateMatch R b i j f :
  (∀ m, skeleton (f m) = skeleton m) →
  wfShape R b → wfShape R (updateMatch i j f b).
Proof.
  intros Hf [Hlen Hrounds]. split; [by rewrite length_updateMatch|].
  intros i0 round0 Hround0.
  assert (∃ round, b !! i0 = Some round ∧ length round0 = length round
                   ∧ ∀ j0 m0, round0 !! j0 = Some m0 →
                       ∃ m, round !! j0 = Some m ∧ skeleton m0 = skeleton m)
    as (round & Hround & Hl & Hms).
  { unfold updateMatch in Hround0.
    destruct (decide (i0 = i)) as [->|Hne].
    - rewrite list_lookup_alter_eq in Hround0.
      destruct (b !! i) as [round|]; [|done].
      simpl in Hround0. injection Hround0 as <-.
      exists round. split; [done|]. split; [by rewrite length_alter|].
      intros j0 m0. destruct (decide (j0 = j)) as [->|Hnej].
      + rewrite list_lookup_alter_eq. destruct (round !! j) as [m|]; [|done].
        simpl. intros [= <-]. eauto.
      + rewrite list_lookup_alter_ne by done. eauto.
    - rewrite list_lookup_alter_ne in Hround0 by done.
      exists round0. split; [done|]. split; [done|]. eauto. }
  destruct (Hrounds i0 round Hround) as [Hl' Hms']. split; [lia|].
  intros j0 m0 Hm0. destruct (Hms j0 m0 Hm0) as (m & Hm & Hsk).
  specialize (Hms' j0 m Hm). unfold wfMatch in *. unfold skeleton in Hsk.
  injection Hsk as -> -> -> ->. done.
Qed.

Lemma skeleton_withWinner w m : skeleton (withWinner w m) = skeleton m.
Proof. done. Qed.

Lemma skeleton_placeWinner matchIndex w m :
  skeleton (placeWinner matchIndex w m) = skeleton m.
Proof.
  unfold placeWinner. cbv zeta.
  destruct (Z.rem matchIndex 2 =? 0)%Z;
    match goal with |- context [orderBySeed ?a ?b] => destruct (orderBySeed a b) end; done.
Qed.

Lemma resolveInBracket_wfShape R matchId w b :
  wfShape R b → wfShape R (resolveInBracket matchId w b).
Proof.
  intros Hwf. unfold resolveInBracket.
  destruct (findMatch matchId b) as [[[i j] m]|]; [|done].
  destruct (Match.winner m); [done|].
  destruct (Match.nextMatchId m) as [nextId|].
  - destruct (findMatch nextId _) as [[[i' j'] m']|].
    + apply wfShape_updateMatch; [apply skeleton_placeWinner|].
      by apply wfShape_updateMatch.
    + by apply wfShape_updateMatch.
  - by apply wfShape_updateMatch.
Qed.

(** Every match before the last round is linked to a match that is there:
    the read of [currentRound[Math.floor(i / 2)]] is in range. *)
Lemma wfShape_link R b i j m :
  wfShape R b → lookup2 b i j = Some m → S i < R →
  ∃ m', lookup2 b (S i) (j / 2) = Some m' ∧ Match.nextMatchId m = Some (Match.id m').
Proof.
  intros Hwf Hm Hi.
  destruct (wfShape_lookup2 R b i j m Hwf Hm) as (_ & Hj & _ & _ & _ & Hnext).
  rewrite decide_True in Hnext by done.
  destruct Hwf as [Hlen Hrounds].
  destruct (lookup_lt_is_Some_2 b (S i)) as [round Hround]; [lia|].
  destruct (Hrounds _ _ Hround) as [Hl Hms].
  destruct (lookup_lt_is_Some_2 round (j / 2)) as [m' Hm'].
  { rewrite Hl. replace (R - 1 - i) with (S (R - 1 - S i)) in Hj by lia.
    rewrite Nat.pow_succ_r' in Hj. lia. }
  exists m'. split; [apply lookup2_Some; eauto|].
  destruct (Hms _ _ Hm') as (-> & _). done.
Qed.

Lemma buildBracket_links_in_range qualified i j m :
  2 ≤ length qualified →
  lookup2 (buildBracket qualified) i j = Some m →
  S i < length (buildBracket qualified) →
  ∃ m', lookup2 (buildBracket qualified) (S i) (j / 2) = Some m'
        ∧ Match.nextMatchId m = Some (Match.id m').
Proof.
  intros Hn Hm Hi. destruct (buildBracket_spec qualified Hn) as (Hwf & _).
  destruct Hwf as [Hlen Hrounds]. rewrite Hlen in Hi.
  by apply wfShape_link with (numRoundsOf (length qualified)).
Qed.

(** ** What a resolution keeps *)

Lemma grows_refl m : grows m m.
Proof. unfold grows. auto. Qed.

Lemma grows_trans m1 m2 m3 : grows m1 m2 → grows m2 m3 → grows m1 m3.
Proof. unfold grows. intros (? & ? & ?) (? & ? & ?). auto. Qed.

Lemma bracketGrows_refl b : bracketGrows b b.
Proof.
  split; [done|]. intros i j. destruct (lookup2 b i j); constructor. apply grows_refl.
Qed.

Lemma bracketGrows_trans b1 b2 b3 :
  bracketGrows b1 b2 → bracketGrows b2 b3 → bracketGrows b1 b3.
Proof.
  intros [Hl12 H12] [Hl23 H23]. split; [congruence|]. intros i j.
  specialize (H12 i j). specialize (H23 i j).
  destruct H12 as [m1 m2 Hg12|]; inversion H23; subst; constructor.
  by apply grows_trans with m2.
Qed.

Lemma updateMatch_bracketGrows b i j f :
  (∀ m, lookup2 b i j = Some m → grows m (f m)) →
  bracketGrows b (updateMatch i j f b).
Proof.
  intros Hf. split; [apply length_updateMatch|].
  intros i0 j0. rewrite lookup2_updateMatch.
  destruct (decide (i0 = i ∧ j0 = j)) as [[-> ->]|Hne].
  - destruct (lookup2 b i j) as [m|] eqn:Hm; constructor. by apply Hf.
  - destruct (lookup2 b i0 j0); constructor. apply grows_refl.
Qed.

Lemma placeWinner_slots matchIndex w m p :
  Match.participant1 (placeWinner matchIndex w m) = Some p
  ∨ Match.participant2 (placeWinner matchIndex w m) = Some p →
  p = w ∨ Match.participant1 m = Some p ∨ Match.participant2 m = Some p.
Proof.
  unfold placeWinner. cbv zeta.
  destruct (Z.rem matchIndex 2 =? 0)%Z;
    match goal with
    | |- context [orderBySeed ?a ?b] => destruct (orderBySeed_cases a b) as [-> | ->]
    end; simpl; intros [Hp|Hp]; try (injection Hp as ->); auto.
Qed.

Lemma grows_placeWinner matchIndex w m : grows m (placeWinner matchIndex w m).
Proof.
  unfold grows, placeWinner. cbv zeta.
  destruct (Z.rem matchIndex 2 =? 0)%Z;
    match goal with
    | |- context [orderBySeed ?a ?b] =>
        pose proof (orderBySeed_cases a b) as Hcases;
        destruct (orderBySeed a b) as [q1 q2] eqn:Horder
    end; simpl in *; unfold orderBySeed in Horder;
    destruct (Match.participant1 m) as [a|], (Match.participant2 m) as [c|];
    repeat match type of Horder with
      | context [if ?x then _ else _] => destruct x
      end;
    injection Horder as <- <-; repeat split; eauto;
    intros Hnone; by apply is_Some_None in Hnone.
Qed.

(** A resolution leaves every match in place, with its filled slots filled
    and its winner, if it had one, unchanged. *)
Lemma resolveInBracket_bracketGrows matchId w b :
  bracketGrows b (resolveInBracket matchId w b).
Proof.
  unfold resolveInBracket.
  destruct (findMatch matchId b) as [[[i j] m]|] eqn:Hfind; [|apply bracketGrows_refl].
  destruct (Match.winner m) eqn:Hw; [apply bracketGrows_refl|].
  apply findMatch_lookup2 in Hfind as [Hm _].
  assert (bracketGrows b (updateMatch i j (withWinner (Some w)) b)) as Hg1.
  { apply updateMatch_bracketGrows.
    intros m' Hm'. assert (m' = m) as -> by congruence.
    unfold grows. simpl. repeat split; auto. intros w'. by rewrite Hw. }
  destruct (Match.nextMatchId m) as [nextId|]; [|done].
  destruct (findMatch nextId _) as [[[i' j'] m']|]; [|done].
  apply bracketGrows_trans with (updateMatch i j (withWinner (Some w)) b); [done|].
  apply updateMatch_bracketGrows. intros. apply grows_placeWinner.
Qed.

(** In the bracket a winner, once recorded, is never replaced, in any
    state and for any call. *)
Lemma handleSetWinner_keeps_bracket_winners matchId w s i j m x :
  lookup2 (bracket s) i j = Some m →
  Match.winner m = Some x →
  ∃ m', lookup2 (bracket (handleSetWinner matchId w s)) i j = Some m'
        ∧ Match.winner m' = Some x.
Proof.
  intros Hm Hx. rewrite bracket_handleSetWinner.
  assert (bracketGrows (bracket s) (resolvedBracket matchId w s)) as [_ Hg].
  { unfold resolvedBracket.
    destruct (thirdPlaceMatch s) as [t|]; [destruct (decide (matchId = Match.id t))|];
      auto using bracketGrows_refl, resolveInBracket_bracketGrows. }
  specialize (Hg i j). rewrite Hm in Hg. inversion Hg as [? m' (_ & _ & Hw)|]; subst.
  exists m'. split; [done|]. by apply Hw.
Qed.

(** ** Who can be placed where *)

Lemma updateMatch_regionInv order b i j f :
  regionInv order b →
  (∀ m, lookup2 b i j = Some m → regionOK order i j (f m)) →
  regionInv order (updateMatch i j f b).
Proof.
  intros Hinv Hf i0 j0 m0. rewrite lookup2_updateMatch.
  destruct (decide (i0 = i ∧ j0 = j)) as [[-> ->]|Hne]; [|apply Hinv].
  destruct (lookup2 b i j) as [m|] eqn:Hm; [|done].
  simpl. intros [= <-]. by apply Hf.
Qed.

Lemma wfShape_next R b i j m nextId :
  wfShape R b → lookup2 b i j = Some m → Match.nextMatchId m = Some nextId →
  S i < R ∧ nextId = Z.of_nat (idBase R (S i) + j / 2) ∧ j / 2 < 2 ^ (R - 1 - S i).
Proof.
  intros Hwf Hm Hnext.
  destruct (wfShape_lookup2 R b i j m Hwf Hm) as (Hi & Hj & _ & _ & _ & Hn).
  rewrite Hnext in Hn. destruct (decide (S i < R)) as [Hlt|]; [|done].
  injection Hn as ->. split; [done|]. split; [done|].
  replace (R - 1 - i) with (S (R - 1 - S i)) in Hj by lia.
  rewrite Nat.pow_succ_r' in Hj. lia.
Qed.

(** The winner of match [j] of round [i] is placed in match [j / 2] of
    round [i + 1], and nowhere else. *)
Lemma resolveInBracket_regionInv R order matchId w b :
  wfShape R b → regionInv order b →
  (∀ i j m, findMatch matchId b = Some (i, j, m) → isSlotParticipant w m) →
  regionInv order (resolveInBracket matchId w b).
Proof.
  intros Hwf Hinv Hvalid. unfold resolveInBracket.
  destruct (findMatch matchId b) as [[[i j] m]|] eqn:Hfind; [|done].
  destruct (Match.winner m) eqn:Hw; [done|].
  specialize (Hvalid i j m eq_refl).
  apply findMatch_lookup2 in Hfind as [Hm _].
  assert (inRegion order i j w) as Hregw.
  { apply (Hinv i j m Hm). destruct Hvalid; auto. }
  set (b1 := updateMatch i j (withWinner (Some w)) b).
  assert (regionInv order b1) as Hinv1.
  { apply updateMatch_regionInv; [done|].
    intros m' Hm'. assert (m' = m) as -> by congruence.
    intros p [Hp|[Hp|Hp]]; simpl in Hp.
    - apply (Hinv i j m Hm). auto.
    - apply (Hinv i j m Hm). auto.
    - by injection Hp as <-. }
  assert (wfShape R b1) as Hwf1 by (by apply wfShape_updateMatch).
  destruct (Match.nextMatchId m) as [nextId|] eqn:Hnext; [|done].
  destruct (findMatch nextId b1) as [[[i' j'] m']|] eqn:Hfind'; [|done].
  destruct (wfShape_next R b i j m nextId Hwf Hm Hnext) as (Hi & -> & Hhalf).
  destruct (wfShape_findMatch_inv R b1 _ i' j' m' Hwf1 Hfind') as (Hid' & Hj' & Hm').
  destruct (idBase_inj R (S i) (j / 2) i' j' Hhalf Hj') as [<- <-]; [lia|].
  apply updateMatch_regionInv; [done|].
  intros m2 Hm2 p Hp.
  assert (p = w ∨ Match.participant1 m2 = Some p ∨ Match.participant2 m2 = Some p
          ∨ Match.winner m2 = Some p) as [->|Hold].
  { destruct Hp as [Hp|[Hp|Hp]].
    - destruct (placeWinner_slots _ _ _ _ (or_introl Hp)) as [?|[?|?]]; auto.
    - destruct (placeWinner_slots _ _ _ _ (or_intror Hp)) as [?|[?|?]]; auto.
    - rewrite winner_placeWinner in Hp. auto. }
  - by apply inRegion_next.
  - by apply (Hinv1 (S i) (j / 2) m2 Hm2).
Qed.

Lemma handleStartBracket_Some allParticipants prev s :
  handleStartBracket allParticipants prev = (None, s) →
  2 ≤ length (qualifiedParticipants allParticipants)
  ∧ bracket s = buildBracket (qualifiedParticipants allParticipants)
  ∧ thirdPlaceMatch s = thirdPlaceMatch prev.
Proof.
  unfold handleStartBracket, MIN_PARTICIPANTS.
  destruct (decide (length (qualifiedParticipants allParticipants) < 2)); [done|].
  intros [= <-]. simpl. split; [lia|done].
Qed.

Lemma played_playedInv s : played s → playedInv s.
Proof.
  induction 1 as [allParticipants prev s _ Hstart|matchId winner s _ IH Hvalid].
  - apply handleStartBracket_Some in Hstart as (Hn & Hb & _).
    exists (length (qualifiedParticipants allParticipants)). rewrite Hb.
    destruct (buildBracket_spec _ Hn) as (Hwf & Hreg & _). done.
  - destruct IH as (n & Hn & Hwf & Hreg). exists n. split; [done|].
    rewrite bracket_handleSetWinner. unfold resolvedBracket.
    assert (∀ i j m, findMatch matchId (bracket s) = Some (i, j, m) →
                     (∀ t, thirdPlaceMatch s = Some t → matchId ≠ Match.id t) →
                     isSlotParticipant winner m) as Hslot.
    { intros i j m Hfind Hthird. apply Hvalid. unfold targetMatch.
      destruct (thirdPlaceMatch s) as [t|].
      - rewrite decide_False by (by apply Hthird). by rewrite Hfind.
      - by rewrite Hfind. }
    destruct (thirdPlaceMatch s) as [t|].
    + destruct (decide (matchId = Match.id t)) as [Heq|Hne]; [done|].
      split; [by apply resolveInBracket_wfShape|].
      apply resolveInBracket_regionInv with (numRoundsOf n); [done..|].
      intros i j m Hfind. apply (Hslot i j m Hfind). by intros t' [= <-].
    + split; [by apply resolveInBracket_wfShape|].
      apply resolveInBracket_regionInv with (numRoundsOf n); [done..|].
      intros i j m Hfind. by apply (Hslot i j m Hfind).
Qed.

(** ** Seeds 1 and 2 *)

(** C7. In every state of a run on the bracket generated for n ≥ 2
    qualifiers, in which each selected winner is a slot participant of its
    match, a bracket match whose two slots hold the participants seeded 1
    and 2 is the final, the only match of the last round.  Whatever the
    results, and so also when seeds 1 and 2 win all their matches, they are
    not paired in an earlier round. *)
Theorem seeds_1_and_2_meet_only_in_final s i j m p1 p2 :
  played s →
  lookup2 (bracket s) i j = Some m →
  Match.participant1 m = Some p1 →
  Match.participant2 m = Some p2 →
  (Participant.seed p1 = 1 ∧ Participant.seed p2 = 2)%Z
  ∨ (Participant.seed p1 = 2 ∧ Participant.seed p2 = 1)%Z →
  i = length (bracket s) - 1 ∧ j = 0.
Proof.
  intros Hplayed Hm Hp1 Hp2 Hseeds.
  destruct (played_playedInv s Hplayed) as (n & Hn & Hwf & Hreg).
  pose proof (numRoundsOf_pos n Hn) as HR.
  set (R := numRoundsOf n) in *.
  destruct (wfShape_lookup2 R _ i j m Hwf Hm) as (Hi & _ & _).
  destruct (Hreg i j m Hm p1 (or_introl Hp1)) as (k1 & Hk1 & Hj1).
  destruct (Hreg i j m Hm p2 (or_intror (or_introl Hp2))) as (k2 & Hk2 & Hj2).
  rewrite finalSeedOrder_pow2 in Hk1, Hk2.
  assert (∃ ka kb, Nat.iter R nextSeedsOf [1%Z] !! ka = Some 1%Z
                   ∧ Nat.iter R nextSeedsOf [1%Z] !! kb = Some 2%Z
                   ∧ ka / 2 ^ S i = j ∧ kb / 2 ^ S i = j) as (ka & kb & Hka & Hkb & Hja & Hjb).
  { destruct Hseeds as [[H1 H2]|[H1 H2]]; rewrite H1 in Hk1; rewrite H2 in Hk2; eauto 10. }
  clear Hj1 Hj2 Hk1 Hk2.
  apply seed_one_position in Hka. subst ka.
  replace R with (S (R - 1)) in Hkb by lia.
  apply seed_two_position in Hkb. subst kb.
  rewrite Nat.Div0.div_0_l in Hja. subst j.
  apply Nat.div_small_iff in Hjb; [|apply Nat.pow_nonzero; lia].
  apply Nat.pow_lt_mono_r_iff in Hjb; [|lia].
  destruct Hwf as [Hlen _]. rewrite Hlen. lia.
Qed.

(** ** The third-place match *)

Lemma forallb_hasWinner l :
  forallb hasWinner l = true ↔ ∀ j m, l !! j = Some m → is_Some (Match.winner m).
Proof.
  induction l as [|x l IH]; simpl.
  - split; [intros _ j m; by destruct j|done].
  - rewrite andb_true_iff, IH. unfold hasWinner at 1. rewrite bool_decide_eq_true.
    split.
    + intros [Hx Hl] [|j] m; simpl; [by intros [= <-]|apply Hl].
    + intros H. split; [apply (H 0 x eq_refl)|intros j m; apply (H (S j) m)].
Qed.

Lemma findLoser_is_Some m :
  is_Some (findLoser m)
  ↔ is_Some (Match.participant1 m) ∧ is_Some (Match.participant2 m).
Proof.
  unfold findLoser.
  destruct (Match.participant1 m) as [p1|], (Match.participant2 m) as [p2|];
    try case_decide; split; try (intros [? ?]); eauto;
    by match goal with H : is_Some None |- _ => apply is_Some_None in H end.
Qed.

Lemma losersOf_nonempty l :
  1 ≤ length (losersOf l)
  ↔ ∃ j m, l !! j = Some m
           ∧ is_Some (Match.participant1 m) ∧ is_Some (Match.participant2 m).
Proof.
  unfold losersOf. induction l as [|x l IH]; simpl.
  - split; [lia|]. intros (j & m & Hm & _). by destruct j.
  - destruct (findLoser x) as [p|] eqn:Hx; simpl.
    + split; [|lia]. intros _. exists 0, x. split; [done|].
      apply findLoser_is_Some. by rewrite Hx.
    + rewrite IH. split.
      * intros (j & m & ? & ?). by exists (S j), m.
      * intros ([|j] & m & Hm & Hslots); [|eauto].
        simpl in Hm. injection Hm as <-. apply findLoser_is_Some in Hslots.
        rewrite Hx in Hslots. by apply is_Some_None in Hslots.
Qed.

Lemma length_losersOf l : length (losersOf l) ≤ length l.
Proof.
  unfold losersOf. induction l as [|x l IH]; [done|].
  change (omap findLoser (x :: l))
    with (match findLoser x with Some p => p :: omap findLoser l | None => omap findLoser l end).
  destruct (findLoser x); repeat rewrite length_cons; lia.
Qed.

Lemma wfShape_semiFinals R b :
  wfShape R b → 1 < length b →
  ∃ semiFinals, b !! (length b - 2) = Some semiFinals ∧ length semiFinals = 2.
Proof.
  intros [Hlen Hrounds] Hb.
  destruct (lookup_lt_is_Some_2 b (length b - 2)) as [semiFinals Hs]; [lia|].
  exists semiFinals. split; [done|].
  destruct (Hrounds _ _ Hs) as [-> _]. rewrite Hlen.
  replace (R - 1 - (R - 2)) with 1 by lia. done.
Qed.

(** The synthesis block makes a third-place match exactly when both
    semifinals have a winner and there is a loser. *)
Lemma synthesizeThirdPlace_iff R b :
  wfShape R b →
  is_Some (if decide (1 < length b) then synthesizeThirdPlace b else None)
  ↔ semisSettled b.
Proof.
  intros Hwf. unfold semisSettled.
  destruct (decide (1 < length b)) as [Hb|Hb].
  2:{ split; [intros H; by apply is_Some_None in H|intros [? _]; lia]. }
  destruct (wfShape_semiFinals R b Hwf Hb) as (semiFinals & Hs & Hl).
  unfold synthesizeThirdPlace. rewrite Hs.
  pose proof (length_losersOf semiFinals) as Hle.
  split.
  - intros Hsome. split; [done|]. exists semiFinals.
    destruct (forallb hasWinner semiFinals); [|by apply is_Some_None in Hsome].
    destruct (losersOf semiFinals) as [|l0 [|l1 [|]]];
      try (by apply is_Some_None in Hsome); simpl; repeat split; lia.
  - intros (_ & semiFinals' & Hs' & _ & Hall & Hlosers).
    assert (semiFinals' = semiFinals) as -> by congruence.
    rewrite Hall.
    destruct (losersOf semiFinals) as [|l0 [|l1 [|]]]; simpl in *; try lia; [eauto|].
    destruct (Participant.seed l0 <? Participant.seed l1)%Z; eauto.
Qed.

Lemma semisSettled_grows R b b' :
  wfShape R b' → bracketGrows b b' → semisSettled b → semisSettled b'.
Proof.
  intros Hwf [Hlen Hg] (Hb & semiFinals & Hs & _ & Hall & Hlosers).
  split; [lia|].
  destruct (wfShape_semiFinals R b' Hwf) as (semiFinals' & Hs' & Hl'); [lia|].
  exists semiFinals'. split; [done|]. split; [done|].
  assert (∀ j m', semiFinals' !! j = Some m' →
                  ∃ m, semiFinals !! j = Some m ∧ grows m m') as Hback.
  { intros j m' Hm'. specialize (Hg (length b - 2) j).
    unfold lookup2 in Hg. rewrite <- Hlen, Hs' in Hg. rewrite Hlen, Hs in Hg.
    simpl in Hg. rewrite Hm' in Hg. inversion Hg; subst. eauto. }
  assert (∀ j m, semiFinals !! j = Some m →
                 ∃ m', semiFinals' !! j = Some m' ∧ grows m m') as Hforth.
  { intros j m Hm. specialize (Hg (length b - 2) j).
    unfold lookup2 in Hg. rewrite <- Hlen, Hs' in Hg. rewrite Hlen, Hs in Hg.
    simpl in Hg. rewrite Hm in Hg. inversion Hg; subst. eauto. }
  split.
  - apply forallb_hasWinner. intros j m' Hm'.
    destruct (Hback j m' Hm') as (m & Hm & _ & _ & Hw).
    rewrite forallb_hasWinner in Hall. destruct (Hall j m Hm) as [w Hmw].
    rewrite (Hw w Hmw). eauto.
  - apply losersOf_nonempty. apply losersOf_nonempty in Hlosers as (j & m & Hm & H1 & H2).
    destruct (Hforth j m Hm) as (m' & Hm' & Hg1 & Hg2 & _).
    exists j, m'. auto.
Qed.

Lemma thirdPlaceMatch_handleSetWinner matchId winner s :
  thirdPlaceMatch (handleSetWinner matchId winner s)
  = match thirdPlaceMatch s with
    | Some t => Some (if decide (matchId = Match.id t) then withWinner (Some winner) t else t)
    | None =>
        if decide (1 < length (resolvedBracket matchId winner s))
        then synthesizeThirdPlace (resolvedBracket matchId winner s) else None
    end.
Proof.
  unfold handleSetWinner, resolvedBracket.
  destruct (thirdPlaceMatch s) as [t|]; [destruct (decide (matchId = Match.id t))|]; done.
Qed.

Lemma resolvedBracket_grows R matchId winner s :
  wfShape R (bracket s) →
  wfShape R (resolvedBracket matchId winner s)
  ∧ bracketGrows (bracket s) (resolvedBracket matchId winner s).
Proof.
  intros Hwf. unfold resolvedBracket.
  destruct (thirdPlaceMatch s) as [t|]; [destruct (decide (matchId = Match.id t))|];
    auto using bracketGrows_refl, resolveInBracket_wfShape, resolveInBracket_bracketGrows.
Qed.

(** Right after the generation the semifinals are not both decided: beyond
    the first round no match has a winner, and in a bracket of 4 the match of
    seeds 2 and 3 has both its participants. *)
Lemma buildBracket_semis_open allParticipants :
  2 ≤ length (qualifiedParticipants allParticipants) →
  ¬ semisSettled (buildBracket (qualifiedParticipants allParticipants)).
Proof.
  intros Hn (Hb & semiFinals & Hs & Hl & Hall & _).
  set (q := qualifiedParticipants allParticipants) in *.
  destruct (buildBracket_spec q Hn) as (Hwf & _ & Hlater & Hfirst).
  set (R := numRoundsOf (length q)) in *.
  destruct Hwf as [Hlen _]. rewrite Hlen in Hb, Hs.
  rewrite forallb_hasWinner in Hall.
  destruct (decide (R = 2)) as [HR|HR].
  - destruct (lookup_lt_is_Some_2 semiFinals 1) as [m Hm]; [lia|].
    assert (lookup2 (buildBracket q) 0 1 = Some m) as Hm2.
    { apply lookup2_Some. exists semiFinals. rewrite HR in Hs. done. }
    destruct (Hfirst 1 m Hm2) as (_ & _ & Hw).
    rewrite HR in Hw. change (finalSeedOrder (2 ^ 2)) with [1; 4; 2; 3]%Z in Hw.
    simpl in Hw.
    assert (3 ≤ length q) as Hq.
    { destruct (decide (length q = 2)) as [Heq|]; [|lia].
      unfold R in HR. rewrite Heq in HR. vm_compute in HR. lia. }
    destruct (lookup_lt_is_Some_2 q 1) as [pa Hpa]; [lia|].
    destruct (lookup_lt_is_Some_2 q 2) as [pb Hpb]; [lia|].
    pose proof (qualifiedParticipants_seed _ _ _ Hpa) as Hsa.
    pose proof (qualifiedParticipants_seed _ _ _ Hpb) as Hsb.
    destruct (participantMapOf_is_Some q pa) as [a Ha];
      [by apply list_elem_of_lookup_2 with 1|].
    destruct (participantMapOf_is_Some q pb) as [c Hc];
      [by apply list_elem_of_lookup_2 with 2|].
    rewrite Hsa in Ha. rewrite Hsb in Hc.
    change (Z.of_nat 1 + 1)%Z with 2%Z in Ha. change (Z.of_nat 2 + 1)%Z with 3%Z in Hc.
    rewrite Ha, Hc in Hw. simpl in Hw.
    destruct (Hall 1 m Hm) as [w Hmw]. congruence.
  - destruct (lookup_lt_is_Some_2 semiFinals 0) as [m Hm]; [lia|].
    assert (lookup2 (buildBracket q) (R - 2) 0 = Some m) as Hm2.
    { apply lookup2_Some. by exists semiFinals. }
    apply Hlater in Hm2; [|lia].
    destruct (Hall 0 m Hm) as [w Hmw]. congruence.
Qed.

(** Nor is the final decided: it is beyond the first round, or it is the
    match of seeds 1 and 2. *)
Lemma buildBracket_final_open allParticipants third :
  2 ≤ length (qualifiedParticipants allParticipants) →
  isTournamentFinished (buildBracket (qualifiedParticipants allParticipants)) third = false.
Proof.
  intros Hn. set (q := qualifiedParticipants allParticipants) in *.
  destruct (buildBracket_spec q Hn) as (Hwf & _ & Hlater & Hfirst).
  set (R := numRoundsOf (length q)) in *.
  pose proof (numRoundsOf_pos _ Hn) as HR. fold R in HR.
  destruct Hwf as [Hlen _].
  unfold isTournamentFinished.
  destruct (last (buildBracket q) ≫= head) as [m|] eqn:Hfinal; [|done].
  apply bind_Some in Hfinal as (round & Hround & Hm).
  rewrite last_lookup, Hlen in Hround. rewrite head_lookup in Hm.
  assert (lookup2 (buildBracket q) (pred R) 0 = Some m) as Hm2.
  { apply lookup2_Some. by exists round. }
  assert (Match.winner m = None) as ->; [|done].
  destruct (decide (R = 1)) as [HR1|HR1].
  - rewrite HR1 in Hm2. destruct (Hfirst 0 m Hm2) as (_ & _ & Hw).
    rewrite HR1 in Hw. change (finalSeedOrder (2 ^ 1)) with [1; 2]%Z in Hw.
    simpl in Hw.
    destruct (lookup_lt_is_Some_2 q 0) as [pa Hpa]; [lia|].
    destruct (lookup_lt_is_Some_2 q 1) as [pb Hpb]; [lia|].
    pose proof (qualifiedParticipants_seed _ _ _ Hpa) as Hsa.
    pose proof (qualifiedParticipants_seed _ _ _ Hpb) as Hsb.
    destruct (participantMapOf_is_Some q pa) as [a Ha];
      [by apply list_elem_of_lookup_2 with 0|].
    destruct (participantMapOf_is_Some q pb) as [c Hc];
      [by apply list_elem_of_lookup_2 with 1|].
    rewrite Hsa in Ha. rewrite Hsb in Hc.
    change (Z.of_nat 0 + 1)%Z with 1%Z in Ha. change (Z.of_nat 1 + 1)%Z with 2%Z in Hc.
    rewrite Ha, Hc in Hw. done.
  - apply Hlater in Hm2; [done|lia].
Qed.

Lemma phase_handleSetWinner matchId winner s :
  phase (handleSetWinner matchId winner s)
  = if isTournamentFinished (bracket (handleSetWinner matchId winner s))
         (thirdPlaceMatch (handleSetWinner matchId winner s))
    then FINISHED else phase s.
Proof.
  unfold handleSetWinner.
  destruct (thirdPlaceMatch s) as [t|]; [destruct (decide (matchId = Match.id t))|]; done.
Qed.

Lemma frame_handleSetWinner matchId winner s :
  standings (handleSetWinner matchId winner s) = standings s
  ∧ competitionParticipants (handleSetWinner matchId winner s) = competitionParticipants s
  ∧ totalCompetitions (handleSetWinner matchId winner s) = totalCompetitions s
  ∧ competitionsHeld (handleSetWinner matchId winner s) = competitionsHeld s.
Proof.
  unfold handleSetWinner.
  destruct (thirdPlaceMatch s) as [t|]; [destruct (decide (matchId = Match.id t))|]; done.
Qed.

Lemma AppState_eq s1 s2 :
  phase s1 = phase s2 → standings s1 = standings s2 →
  competitionParticipants s1 = competitionParticipants s2 →
  bracket s1 = bracket s2 → thirdPlaceMatch s1 = thirdPlaceMatch s2 →
  totalCompetitions s1 = totalCompetitions s2 → competitionsHeld s1 = competitionsHeld s2 →
  s1 = s2.
Proof. destruct s1, s2. simpl. by intros -> -> -> -> -> -> ->. Qed.

Lemma reachable_reachInv s : reachable s → reachInv s.
Proof.
  induction 1 as [allParticipants prev s Hnone Hstart|matchId winner s _ IH].
  - apply handleStartBracket_Some in Hstart as (Hn & Hb & Hthird).
    exists (length (qualifiedParticipants allParticipants)). rewrite Hb, Hthird, Hnone.
    destruct (buildBracket_spec _ Hn) as (Hwf & _). split; [done|]. split; [done|].
    split; [split|].
    + intros H. by apply is_Some_None in H.
    + intros Hsettled. by apply buildBracket_semis_open in Hsettled.
    + by rewrite buildBracket_final_open.
  - destruct IH as (n & Hn & Hwf & Hiff & _). exists n. split; [done|].
    destruct (resolvedBracket_grows (numRoundsOf n) matchId winner s Hwf) as [Hwf' Hg].
    rewrite phase_handleSetWinner.
    rewrite bracket_handleSetWinner, thirdPlaceMatch_handleSetWinner.
    split; [done|]. split.
    + destruct (thirdPlaceMatch s) as [t|].
      * split; [|eauto]. intros _.
        apply semisSettled_grows with (numRoundsOf n) (bracket s); [done..|].
        apply Hiff. eauto.
      * by apply synthesizeThirdPlace_iff with (numRoundsOf n).
    + by intros ->.
Qed.

(** On a bracket match that has its winner the call changes nothing at
    all: the guard of the bracket branch, with the synthesis and the phase
    test already settled by the call before. *)
Lemma handleSetWinner_resolved_bracket_match matchId w s i j m :
  reachable s →
  (∀ t, thirdPlaceMatch s = Some t → matchId ≠ Match.id t) →
  findMatch matchId (bracket s) = Some (i, j, m) →
  is_Some (Match.winner m) →
  handleSetWinner matchId w s = s.
Proof.
  intros Hreach Hthird Hfind Hw.
  destruct (reachable_reachInv s Hreach) as (n & Hn & Hwf & Hiff & Hphase).
  assert (resolvedBracket matchId w s = bracket s) as Hb.
  { unfold resolvedBracket. destruct (thirdPlaceMatch s) as [t|].
    - rewrite decide_False by (by apply Hthird).
      by apply resolveInBracket_resolved with i j m.
    - by apply resolveInBracket_resolved with i j m. }
  assert (thirdPlaceMatch (handleSetWinner matchId w s) = thirdPlaceMatch s) as Ht.
  { rewrite thirdPlaceMatch_handleSetWinner, Hb.
    destruct (thirdPlaceMatch s) as [t|].
    - by rewrite decide_False by (by apply Hthird).
    - pose proof (synthesizeThirdPlace_iff _ _ Hwf) as Hsyn.
      destruct (if decide (1 < length (bracket s)) then _ else _) as [t|]; [|done].
      exfalso. apply (is_Some_None (A:=Match.t)). apply Hiff, Hsyn. eauto. }
  pose proof (phase_handleSetWinner matchId w s) as Hp.
  pose proof (bracket_handleSetWinner matchId w s) as Hb'.
  rewrite Ht, Hb', Hb in Hp. rewrite Hb in Hb'.
  assert (phase (handleSetWinner matchId w s) = phase s) as Hp'.
  { rewrite Hp. destruct (isTournamentFinished _ _) eqn:Hfin; [|done].
    symmetry. by apply Hphase. }
  destruct (frame_handleSetWinner matchId w s) as (Hst & Hcp & Htc & Hch).
  apply AppState_eq; done.
Qed.

(** C3, as the claim states it, fails.  Six qualifiers: seeds 1 and 2 have a
    bye and wait in the semifinals for the quarter-final winners.  Each is
    selected as the winner of its semifinal; both semifinals then have a
    winner, neither has a loser, and there is no third-place match. *)
Lemma thirdPlace_absent_counterexample :
  let six := [Participant.mk 11 "a" (Some 60%Q) 0; Participant.mk 12 "b" (Some 50%Q) 0;
              Participant.mk 13 "c" (Some 40%Q) 0; Participant.mk 14 "d" (Some 30%Q) 0;
              Participant.mk 15 "e" (Some 20%Q) 0; Participant.mk 16 "f" (Some 10%Q) 0] in
  let a := Participant.mk 11 "a" (Some 60%Q) 1 in
  let b := Participant.mk 12 "b" (Some 50%Q) 2 in
  let s0 := (handleStartBracket six (handleStartCompetition getInitialState)).2 in
  let s := handleSetWinner 5 b (handleSetWinner 4 a s0) in
  played s
  ∧ reachable s
  ∧ length (bracket s) = 3
  ∧ (∃ semiFinals, bracket s !! 1 = Some semiFinals
                   ∧ length semiFinals = 2
                   ∧ forallb hasWinner semiFinals = true)
  ∧ thirdPlaceMatch s = None.
Proof.
  intros six a b s0 s. split; [|split].
  - apply played_setWinner; [apply played_setWinner|].
    + apply (played_start six (handleStartCompetition getInitialState)); [done|].
      by vm_compute.
    + intros m. vm_compute. intros [= <-]. left. reflexivity.
    + intros m. vm_compute. intros [= <-]. left. reflexivity.
  - do 2 apply reachable_setWinner.
    apply (reachable_start six (handleStartCompetition getInitialState)); [done|].
    by vm_compute.
  - vm_compute. split; [done|]. split; [|done]. eexists. repeat split.
Qed.

(** C3, amended.  Along a run a third-place match exists exactly when both
    semifinals have a winner and at least one of them has a loser (both of
    its slots filled).  A bracket of one round never has one.  When a call
    creates it, it has a winner already, and an empty second slot, exactly
    when there is one semifinal loser. *)
Theorem thirdPlace_iff_semifinals_settled s :
  reachable s →
  (is_Some (thirdPlaceMatch s) ↔ semisSettled (bracket s))
  ∧ (length (bracket s) ≤ 1 → thirdPlaceMatch s = None)
  ∧ (∀ matchId w t semiFinals,
       thirdPlaceMatch s = None →
       let s' := handleSetWinner matchId w s in
       thirdPlaceMatch s' = Some t →
       bracket s' !! (length (bracket s') - 2) = Some semiFinals →
       (is_Some (Match.winner t) ↔ length (losersOf semiFinals) = 1)
       ∧ (Match.participant2 t = None ↔ length (losersOf semiFinals) = 1)).
Proof.
  intros Hreach.
  destruct (reachable_reachInv s Hreach) as (n & Hn & Hwf & Hiff & _).
  split; [done|]. split.
  - intros Hlen. destruct (thirdPlaceMatch s) as [t|] eqn:Ht; [|done].
    destruct (proj1 Hiff) as [Hb _]; [eauto|]. lia.
  - intros matchId w t semiFinals Hnone s' Ht Hs. subst s'.
    rewrite bracket_handleSetWinner in Hs.
    rewrite thirdPlaceMatch_handleSetWinner, Hnone in Ht.
    destruct (decide (1 < length _)); [|done].
    unfold synthesizeThirdPlace in Ht. rewrite Hs in Ht.
    destruct (forallb hasWinner semiFinals); [|done].
    destruct (losersOf semiFinals) as [|l0 [|l1 [|]]]; [done| | |done].
    + injection Ht as <-. simpl. split; split; eauto.
    + destruct (Participant.seed l0 <? Participant.seed l1)%Z;
        injection Ht as <-; simpl; split; split; try done;
        intros H; by apply is_Some_None in H.
Qed.

Lemma thirdPlace_iff_semifinals_settled_witness :
  let four := [Participant.mk 11 "a" (Some 100%Q) 0; Participant.mk 12 "b" (Some 90%Q) 0;
               Participant.mk 13 "c" (Some 80%Q) 0; Participant.mk 14 "d" (Some 70%Q) 0] in
  let a := Participant.mk 11 "a" (Some 100%Q) 1 in
  let b := Participant.mk 12 "b" (Some 90%Q) 2 in
  let s0 := (handleStartBracket four (handleStartCompetition getInitialState)).2 in
  let s := handleSetWinner 1 b (handleSetWinner 0 a s0) in
  reachable s ∧ (is_Some (thirdPlaceMatch s) ↔ semisSettled (bracket s)).
Proof.
  intros four a b s0 s.
  assert (reachable s) as Hreach.
  { do 2 apply reachable_setWinner.
    apply (reachable_start four (handleStartCompetition getInitialState)).
    - reflexivity.
    - vm_compute. reflexivity. }
  split; [exact Hreach|].
  exact (proj1 (thirdPlace_iff_semifinals_settled s Hreach)).
Defined.

Lemma seeds_1_and_2_meet_only_in_final_witness :
  let four := [Participant.mk 11 "a" (Some 100%Q) 0; Participant.mk 12 "b" (Some 90%Q) 0;
               Participant.mk 13 "c" (Some 80%Q) 0; Participant.mk 14 "d" (Some 70%Q) 0] in
  let a := Participant.mk 11 "a" (Some 100%Q) 1 in
  let b := Participant.mk 12 "b" (Some 90%Q) 2 in
  let s0 := (handleStartBracket four (handleStartCompetition getInitialState)).2 in
  let s := handleSetWinner 1 b (handleSetWinner 0 a s0) in
  lookup2 (bracket s) 1 0 = Some (Match.mk 2 1 0 (Some a) (Some b) None None)
  ∧ 1 = length (bracket s) - 1 ∧ 0 = 0.
Proof.
  intros four a b s0 s.
  assert (played s) as Hplayed.
  { apply played_setWinner; [apply played_setWinner|].
    - apply (played_start four (handleStartCompetition getInitialState)).
      + reflexivity.
      + vm_compute. reflexivity.
    - intros m. vm_compute. intros Hm. injection Hm as <-. left. reflexivity.
    - intros m. vm_compute. intros Hm. injection Hm as <-. left. reflexivity. }
  assert (lookup2 (bracket s) 1 0 = Some (Match.mk 2 1 0 (Some a) (Some b) None None))
    as Hm by (vm_compute; reflexivity).
  split; [exact Hm|].
  apply (seeds_1_and_2_meet_only_in_final s 1 0
           (Match.mk 2 1 0 (Some a) (Some b) None None) a b Hplayed Hm).
  - reflexivity.
  - reflexivity.
  - left. split; reflexivity.
Defined.

(** * Further properties of the bracket builder *)

Lemma bracketSizeOf_bounds n :
  2 ≤ n → n ≤ bracketSizeOf n ∧ bracketSizeOf n < 2 * n.
Proof.
  intros Hn. unfold bracketSizeOf, numRoundsOf.
  pose proof (Z.log2_up_spec (Z.of_nat n) ltac:(lia)) as [Hlow Hhigh].
  pose proof (Z.log2_up_pos (Z.of_nat n) ltac:(lia)) as Hpos.
  set (r := Z.log2_up (Z.of_nat n)) in *.
  assert (Z.of_nat (2 ^ Z.to_nat r) = 2 ^ r)%Z as Hpow.
  { rewrite Nat2Z.inj_pow. f_equal. lia. }
  assert (2 ^ r = 2 * 2 ^ Z.pred r)%Z as Hdouble.
  { rewrite <- Z.pow_succ_r by lia. f_equal. lia. }
  lia.
Qed.

Lemma idBase_total R k : k ≤ R → idBase R k + 2 ^ (R - k) = 2 ^ R.
Proof.
  induction k as [|k IH]; intros Hk; simpl.
  - by rewrite Nat.sub_0_r.
  - specialize (IH ltac:(lia)).
    replace (R - k) with (S (R - S k)) in IH by lia.
    rewrite Nat.pow_succ_r' in IH.
    replace (R - 1 - k) with (R - S k) by lia. lia.
Qed.

Lemma handleStartBracket_wfShape allParticipants prev s :
  handleStartBracket allParticipants prev = (None, s) →
  2 ≤ length (filter qualifies allParticipants)
  ∧ wfShape (numRoundsOf (length (filter qualifies allParticipants))) (bracket s).
Proof.
  intros Hstart. apply handleStartBracket_Some in Hstart as (Hn & Hb & _).
  rewrite Hb. destruct (buildBracket_spec _ Hn) as (Hwf & _).
  rewrite length_qualifiedParticipants in Hn, Hwf. done.
Qed.

(** X1. For n ≥ 2 qualifiers the bracket size is the power of two with
    n ≤ size < 2n; the bracket has log2(size) rounds, round [i] has
    size / 2^(i+1) matches, and the last round is a single match. *)
Theorem startBracket_rounds allParticipants prev s :
  handleStartBracket allParticipants prev = (None, s) →
  let n := length (filter qualifies allParticipants) in
  let R := length (bracket s) in
  bracketSizeOf n = 2 ^ R
  ∧ n ≤ bracketSizeOf n < 2 * n
  ∧ 1 ≤ R
  ∧ (∀ i round, bracket s !! i = Some round →
       length round * 2 ^ (S i) = bracketSizeOf n)
  ∧ (∃ final, last (bracket s) = Some [final]).
Proof.
  intros Hstart n R.
  destruct (handleStartBracket_wfShape _ _ _ Hstart) as (Hn & Hlen & Hrounds).
  fold n in Hn, Hlen, Hrounds. fold R in Hlen.
  pose proof (numRoundsOf_pos n Hn) as HR. rewrite <- Hlen in HR, Hrounds.
  split; [unfold bracketSizeOf; by rewrite <- Hlen|].
  split; [by apply bracketSizeOf_bounds|]. split; [done|]. split.
  - intros i round Hround. destruct (Hrounds i round Hround) as [-> _].
    apply lookup_lt_Some in Hround. fold R in Hround.
    rewrite <- Nat.pow_add_r. unfold bracketSizeOf. rewrite <- Hlen. f_equal. lia.
  - rewrite last_lookup. fold R.
    destruct (lookup_lt_is_Some_2 (bracket s) (pred R)) as [round Hround]; [fold R; lia|].
    destruct (Hrounds _ _ Hround) as [Hl _].
    replace (R - 1 - pred R) with 0 in Hl by lia.
    destruct round as [|final [|? ?]]; simpl in Hl; try lia. eauto.
Qed.

Lemma startBracket_rounds_witness :
  let three := [Participant.mk 11 "a" (Some 100%Q) 0; Participant.mk 12 "b" (Some 90%Q) 0;
                Participant.mk 13 "c" (Some 80%Q) 0] in
  let s := (handleStartBracket three getInitialState).2 in
  bracketSizeOf 3 = 2 ^ length (bracket s) ∧ 3 ≤ bracketSizeOf 3 < 2 * 3.
Proof.
  intros three s.
  assert (handleStartBracket three getInitialState = (None, s)) as Hstart
    by (vm_compute; reflexivity).
  pose proof (startBracket_rounds three getInitialState s Hstart) as (H1 & H2 & _).
  split; [exact H1 | exact H2].
Defined.

Lemma reachable_wfShape s :
  reachable s → 1 ≤ length (bracket s) ∧ wfShape (length (bracket s)) (bracket s).
Proof.
  intros Hreach. destruct (reachable_reachInv s Hreach) as (n & Hn & Hwf & _).
  pose proof (numRoundsOf_pos n Hn) as HR.
  destruct Hwf as [Hlen Hrounds]. rewrite Hlen. done.
Qed.

Lemma round_ids R i (round : list Match.t) :
  (∀ j m, round !! j = Some m → wfMatch R i j m) →
  Match.id <$> round = Z.of_nat <$> seq (idBase R i) (length round).
Proof.
  intros Hms. apply list_eq. intros j. rewrite !list_lookup_fmap.
  destruct (round !! j) as [m|] eqn:Hm.
  - rewrite lookup_seq_lt by (by apply lookup_lt_Some in Hm).
    simpl. f_equal. by destruct (Hms j m Hm) as (-> & _).
  - rewrite lookup_seq_ge by (by apply lookup_ge_None in Hm). done.
Qed.

Lemma wfShape_ids_take R b k :
  wfShape R b → k ≤ R →
  Match.id <$> mjoin (take k b) = Z.of_nat <$> seq 0 (idBase R k).
Proof.
  intros [Hlen Hrounds]. induction k as [|k IH]; intros Hk; [done|].
  destruct (lookup_lt_is_Some_2 b k) as [round Hround]; [lia|].
  destruct (Hrounds k round Hround) as [Hl Hms].
  rewrite (take_S_r b k round Hround), join_app, fmap_app, IH by lia.
  simpl. rewrite app_nil_r, (round_ids R k round Hms), Hl.
  by rewrite seq_app, fmap_app.
Qed.

(** X2. In every state of a run the match ids of the bracket, read round
    after round, are 0, 1, ..., 2^R - 2 for its R rounds: they are distinct,
    and there are 2^R - 1 matches.  The id 999 of the third-place match is
    the id of no bracket match up to 9 rounds (512 slots), and is the id of
    a bracket match from 10 rounds on. *)
Theorem bracket_ids_consecutive s :
  reachable s →
  let R := length (bracket s) in
  Match.id <$> mjoin (bracket s) = Z.of_nat <$> seq 0 (2 ^ R - 1)
  ∧ NoDup (Match.id <$> mjoin (bracket s))
  ∧ (R ≤ 9 → findMatch THIRD_PLACE_ID (bracket s) = None)
  ∧ (10 ≤ R → is_Some (findMatch THIRD_PLACE_ID (bracket s))).
Proof.
  intros Hreach R. destruct (reachable_wfShape s Hreach) as [HR Hwf]. fold R in HR, Hwf.
  assert (Match.id <$> mjoin (bracket s) = Z.of_nat <$> seq 0 (2 ^ R - 1)) as Hids.
  { pose proof (wfShape_ids_take R (bracket s) R Hwf ltac:(lia)) as Hall.
    rewrite take_ge in Hall by (fold R; lia).
    pose proof (idBase_total R R ltac:(lia)) as Htotal.
    rewrite Nat.sub_diag, Nat.pow_0_r in Htotal.
    replace (2 ^ R - 1) with (idBase R R) by lia. done. }
  split; [done|]. split; [|split].
  - rewrite Hids. apply NoDup_fmap_2; [apply Nat2Z.inj'|apply NoDup_seq].
  - intros HR9.
    destruct (findMatch THIRD_PLACE_ID (bracket s)) as [[[i j] m]|] eqn:Hfind; [|done].
    apply findMatch_lookup2 in Hfind as [Hm Hid].
    apply lookup2_Some in Hm as (round & Hround & Hm).
    assert (THIRD_PLACE_ID ∈ Match.id <$> mjoin (bracket s)) as Hin.
    { rewrite <- Hid. apply list_elem_of_fmap_2, list_elem_of_join.
      exists round. split; by eapply list_elem_of_lookup_2. }
    rewrite Hids in Hin. apply list_elem_of_fmap in Hin as (k & Hk & Hin).
    apply elem_of_seq in Hin.
    assert (2 ^ R ≤ 2 ^ 9) by (apply Nat.pow_le_mono_r; lia).
    change (2 ^ 9) with 512 in *. unfold THIRD_PLACE_ID in Hk. lia.
  - intros HR10.
    assert (THIRD_PLACE_ID ∈ Match.id <$> mjoin (bracket s)) as Hin.
    { rewrite Hids. apply list_elem_of_fmap. exists 999. split; [done|].
      apply elem_of_seq.
      assert (2 ^ 10 ≤ 2 ^ R) by (apply Nat.pow_le_mono_r; lia).
      change (2 ^ 10) with 1024 in *. lia. }
    apply list_elem_of_fmap in Hin as (m & Hid & Hin).
    apply list_elem_of_join in Hin as (round & Hm & Hround).
    apply list_elem_of_lookup in Hm as [j Hm].
    apply list_elem_of_lookup in Hround as [i Hround].
    rewrite Hid. apply findMatch_complete with i j.
    apply lookup2_Some. eauto.
Qed.

Lemma bracket_ids_consecutive_witness :
  let three := [Participant.mk 11 "a" (Some 100%Q) 0; Participant.mk 12 "b" (Some 90%Q) 0;
                Participant.mk 13 "c" (Some 80%Q) 0] in
  let s := (handleStartBracket three getInitialState).2 in
  Match.id <$> mjoin (bracket s) = [0; 1; 2]%Z.
Proof.
  intros three s.
  assert (reachable s) as Hreach.
  { apply (reachable_start three getInitialState); [reflexivity|].
    vm_compute. reflexivity. }
  exact (proj1 (bracket_ids_consecutive s Hreach)).
Defined.

(** X3. In every state of a run the links form a tree: match [j] of a round
    before the last is linked to match [j / 2] of the next round, which is
    there; the last round has one match, and it has no link. *)
Theorem bracket_links_form_tree s i j m :
  reachable s →
  lookup2 (bracket s) i j = Some m →
  (S i < length (bracket s) →
     ∃ m', lookup2 (bracket s) (S i) (j / 2) = Some m'
           ∧ Match.nextMatchId m = Some (Match.id m'))
  ∧ (S i = length (bracket s) → j = 0 ∧ Match.nextMatchId m = None).
Proof.
  intros Hreach Hm. destruct (reachable_wfShape s Hreach) as [HR Hwf].
  set (R := length (bracket s)) in *. split.
  - intros Hi. by apply wfShape_link with R.
  - intros Hi.
    destruct (wfShape_lookup2 R _ i j m Hwf Hm) as (_ & Hj & _ & _ & _ & Hnext).
    rewrite decide_False in Hnext by lia.
    replace (R - 1 - i) with 0 in Hj by lia. rewrite Nat.pow_0_r in Hj.
    split; [lia|done].
Qed.

Lemma bracket_links_form_tree_witness :
  let three := [Participant.mk 11 "a" (Some 100%Q) 0; Participant.mk 12 "b" (Some 90%Q) 0;
                Participant.mk 13 "c" (Some 80%Q) 0] in
  let s := (handleStartBracket three getInitialState).2 in
  ∃ m m', lookup2 (bracket s) 0 1 = Some m
          ∧ lookup2 (bracket s) 1 (1 / 2) = Some m'
          ∧ Match.nextMatchId m = Some (Match.id m').
Proof.
  intros three s.
  assert (reachable s) as Hreach.
  { apply (reachable_start three getInitialState); [reflexivity|].
    vm_compute. reflexivity. }
  destruct (lookup2 (bracket s) 0 1) as [m|] eqn:Hm; [|vm_compute in Hm; discriminate].
  destruct (proj1 (bracket_links_form_tree s 0 1 m Hreach Hm)) as (m' & Hm' & Hnext).
  - vm_compute. lia.
  - exists m, m'. split; [reflexivity|]. split; [exact Hm'|exact Hnext].
Defined.

Lemma participantMapOf_snoc qualified p :
  participantMapOf (qualified ++ [p])
  = <[Participant.seed p := p]> (participantMapOf qualified).
Proof. unfold participantMapOf. by rewrite foldl_snoc. Qed.

(** The map holds each qualifier under its seed, and nothing else. *)
Lemma participantMapOf_lookup (qualified : list Participant.t) k :
  (∀ i p, qualified !! i = Some p → Participant.seed p = (Z.of_nat i + 1)%Z) →
  participantMapOf qualified !! (Z.of_nat k + 1)%Z = qualified !! k.
Proof.
  revert k. induction qualified as [|p qualified IH] using rev_ind; intros k Hseeds.
  - unfold participantMapOf. simpl. by rewrite lookup_empty.
  - rewrite participantMapOf_snoc.
    assert (Participant.seed p = (Z.of_nat (length qualified) + 1)%Z) as Hp.
    { apply Hseeds. by rewrite lookup_app_r, Nat.sub_diag. }
    assert (∀ i q, qualified !! i = Some q → Participant.seed q = (Z.of_nat i + 1)%Z)
      as Hseeds'.
    { intros i q Hq. apply Hseeds. by rewrite lookup_app_l by (by eapply lookup_lt_Some). }
    destruct (decide (k = length qualified)) as [->|Hne].
    + rewrite Hp, lookup_insert_eq. by rewrite lookup_app_r, Nat.sub_diag.
    + rewrite lookup_insert_ne by lia. rewrite IH by done.
      destruct (decide (k < length qualified)) as [Hlt|Hge].
      * by rewrite lookup_app_l.
      * rewrite lookup_ge_None_2 by lia.
        symmetry. apply lookup_ge_None_2. rewrite length_app. simpl. lia.
Qed.

(** The last pass of the seeding loop pairs each seed [s] of the better
    half with seed [bracketSize + 1 - s]. *)
Lemma finalSeedOrder_pairs R j :
  1 ≤ R → j < 2 ^ (R - 1) →
  ∃ s, 1 ≤ s ≤ 2 ^ (R - 1)
       ∧ finalSeedOrder (2 ^ R) !! (2 * j) = Some (Z.of_nat s)
       ∧ finalSeedOrder (2 ^ R) !! (S (2 * j)) = Some (Z.of_nat (2 ^ R + 1 - s)).
Proof.
  intros HR Hj. rewrite finalSeedOrder_pow2.
  set (half := Nat.iter (R - 1) nextSeedsOf [1%Z]).
  assert (Nat.iter R nextSeedsOf [1%Z] = nextSeedsOf half) as ->.
  { unfold half. destruct R as [|R']; [lia|]. simpl. by rewrite Nat.sub_0_r. }
  assert (length half = 2 ^ (R - 1)) as Hlen by apply length_seeds_iter.
  destruct (lookup_lt_is_Some_2 half j) as [z Hz]; [lia|].
  pose proof (seeds_iter_range _ _ _ Hz) as Hrange.
  destruct (bind_pair_lookup (λ s, (Z.of_nat (length half) * 2 + 1 - s)%Z) half j)
    as [Heven Hodd].
  change (nextSeedsOf half !! (2 * j) = half !! j) in Heven.
  change (nextSeedsOf half !! S (2 * j)
          = (λ s, (Z.of_nat (length half) * 2 + 1 - s)%Z) <$> half !! j) in Hodd.
  rewrite Heven, Hodd, Hz, Hlen. simpl.
  assert (2 ^ R = 2 * 2 ^ (R - 1)) as Hpow.
  { rewrite <- Nat.pow_succ_r'. f_equal. lia. }
  exists (Z.to_nat z). split; [lia|]. split; f_equal; lia.
Qed.

(** The first round of a generated bracket, match by match. *)
Lemma firstRound_slots allParticipants prev s j m :
  handleStartBracket allParticipants prev = (None, s) →
  lookup2 (bracket s) 0 j = Some m →
  let q := qualifiedParticipants allParticipants in
  let n := length q in
  let B := bracketSizeOf n in
  ∃ seed, 1 ≤ seed ≤ B / 2 ∧ seed ≤ n
          ∧ finalSeedOrder B !! (2 * j) = Some (Z.of_nat seed)
          ∧ finalSeedOrder B !! (S (2 * j)) = Some (Z.of_nat (B + 1 - seed))
          ∧ Match.participant1 m = q !! (seed - 1)
          ∧ Match.participant2 m = q !! (B - seed)
          ∧ Match.winner m = (if decide (B - seed < n) then None else q !! (seed - 1)).
Proof.
  intros Hstart Hm q n B.
  apply handleStartBracket_Some in Hstart as (Hn & Hb & _). fold q in Hn, Hb.
  rewrite Hb in Hm.
  destruct (buildBracket_spec q Hn) as (Hwf & _ & _ & Hfirst).
  set (R := numRoundsOf (length q)) in *.
  pose proof (numRoundsOf_pos _ Hn) as HR. fold R in HR.
  destruct (bracketSizeOf_bounds n Hn) as [Hlow Hhigh].
  fold B in Hlow, Hhigh. change B with (2 ^ R) in *.
  assert (2 ^ R = 2 * 2 ^ (R - 1)) as Hpow.
  { rewrite <- Nat.pow_succ_r'. f_equal. lia. }
  destruct (wfShape_lookup2 R _ 0 j m Hwf Hm) as (_ & Hj & _).
  rewrite Nat.sub_0_r in Hj.
  destruct (finalSeedOrder_pairs R j HR Hj) as (seed & Hseed & Heven & Hodd).
  destruct (Hfirst j m Hm) as (Hp1 & Hp2 & Hw).
  rewrite Heven in Hp1, Hw. rewrite Hodd in Hp2, Hw. simpl in Hp1, Hp2, Hw.
  assert (∀ k, participantMapOf q !! Z.of_nat (S k) = q !! k) as Hmap.
  { intros k. replace (Z.of_nat (S k)) with (Z.of_nat k + 1)%Z by lia.
    apply participantMapOf_lookup. apply qualifiedParticipants_seed. }
  replace seed with (S (seed - 1)) in Hp1, Hw at 1 by lia.
  replace (2 ^ R + 1 - seed) with (S (2 ^ R - seed)) in Hp2, Hw by lia.
  rewrite Hmap in Hp1, Hp2, Hw. rewrite Hmap in Hw.
  exists seed. split; [lia|]. split; [fold n; lia|].
  split; [done|]. split; [done|]. split; [done|]. split; [done|].
  rewrite Hw.
  destruct (lookup_lt_is_Some_2 q (seed - 1)) as [a ->]; [fold n; lia|].
  destruct (decide (2 ^ R - seed < n)) as [Hlt|Hge].
  - destruct (lookup_lt_is_Some_2 q (2 ^ R - seed)) as [c ->]; [done|]. done.
  - rewrite (lookup_ge_None_2 q (2 ^ R - seed)) by (fold n; lia). done.
Qed.

(** X4. First round of a generated bracket: every match has in slot 1 the
    qualifier of some seed s of the better half (s ≤ size/2), and in slot 2
    the qualifier of seed size + 1 - s when there is one.  When there is
    none the match is a bye and its winner is the participant of slot 1 from
    the start; otherwise it has no winner.  So the byes go to the seeds
    1 .. size - n. *)
Theorem firstRound_pairing_and_byes allParticipants prev s j m :
  handleStartBracket allParticipants prev = (None, s) →
  lookup2 (bracket s) 0 j = Some m →
  let q := qualifiedParticipants allParticipants in
  let n := length q in
  let B := bracketSizeOf n in
  ∃ seed p1,
    1 ≤ seed ≤ B / 2
    ∧ q !! (seed - 1) = Some p1
    ∧ Participant.seed p1 = Z.of_nat seed
    ∧ Match.participant1 m = Some p1
    ∧ Match.participant2 m = q !! (B - seed)
    ∧ (∀ p2, Match.participant2 m = Some p2 →
         Participant.seed p2 = Z.of_nat (B + 1 - seed) ∧ Match.winner m = None)
    ∧ (Match.participant2 m = None ↔ seed ≤ B - n)
    ∧ (Match.participant2 m = None → Match.winner m = Some p1).
Proof.
  intros Hstart Hm q n B.
  destruct (firstRound_slots _ _ _ _ _ Hstart Hm)
    as (seed & Hseed & Hn & _ & _ & Hp1 & Hp2 & Hw).
  fold q in Hseed, Hn, Hp1, Hp2, Hw. fold n in Hseed, Hn, Hp2, Hw.
  fold B in Hseed, Hp2, Hw.
  destruct (lookup_lt_is_Some_2 q (seed - 1)) as [p1 Hq1]; [fold n; lia|].
  pose proof (qualifiedParticipants_seed _ _ _ Hq1) as Hs1.
  apply handleStartBracket_Some in Hstart as (Hn2 & _).
  destruct (bracketSizeOf_bounds n Hn2) as [Hlow Hhigh]. fold B in Hlow, Hhigh.
  exists seed, p1. split; [done|]. split; [done|]. split; [lia|].
  split; [congruence|]. split; [done|]. split; [|split].
  - intros p2 Hp. rewrite Hp2 in Hp.
    pose proof (qualifiedParticipants_seed _ _ _ Hp) as Hs2.
    apply lookup_lt_Some in Hp. fold n in Hp.
    rewrite decide_True in Hw by done. split; [lia|done].
  - rewrite Hp2. split.
    + intros Hnone. apply lookup_ge_None in Hnone. fold n in Hnone. lia.
    + intros Hle. apply lookup_ge_None_2. fold n. lia.
  - rewrite Hp2. intros Hnone. apply lookup_ge_None in Hnone. fold n in Hnone.
    rewrite decide_False in Hw by lia. congruence.
Qed.

Lemma firstRound_pairing_and_byes_witness :
  let three := [Participant.mk 11 "a" (Some 100%Q) 0; Participant.mk 12 "b" (Some 90%Q) 0;
                Participant.mk 13 "c" (Some 80%Q) 0] in
  let a := Participant.mk 11 "a" (Some 100%Q) 1 in
  let s := (handleStartBracket three getInitialState).2 in
  lookup2 (bracket s) 0 0 = Some (Match.mk 0 0 0 (Some a) None (Some a) (Some 2%Z))
  ∧ ∃ seed p1, 1 ≤ seed ≤ bracketSizeOf 3 / 2 ∧ Participant.seed p1 = Z.of_nat seed.
Proof.
  intros three a s.
  assert (handleStartBracket three getInitialState = (None, s)) as Hstart
    by (vm_compute; reflexivity).
  assert (lookup2 (bracket s) 0 0 = Some (Match.mk 0 0 0 (Some a) None (Some a) (Some 2%Z)))
    as Hm by (vm_compute; reflexivity).
  split; [exact Hm|].
  destruct (firstRound_pairing_and_byes three getInitialState s 0 _ Hstart Hm)
    as (seed & p1 & Hseed & _ & Hs & _).
  exists seed, p1. split; [exact Hseed|exact Hs].
Defined.

Lemma seeds_iter_surj t v :
  1 ≤ v ≤ 2 ^ t → ∃ k, Nat.iter t nextSeedsOf [1%Z] !! k = Some (Z.of_nat v).
Proof.
  revert v. induction t as [|t IH]; intros v Hv.
  - exists 0. rewrite Nat.pow_0_r in Hv. replace v with 1 by lia. done.
  - rewrite Nat.pow_succ_r' in Hv. simpl Nat.iter.
    set (half := Nat.iter t nextSeedsOf [1%Z]) in *.
    assert (length half = 2 ^ t) as Hlen by apply length_seeds_iter.
    assert (∀ k, nextSeedsOf half !! (2 * k) = half !! k
                 ∧ nextSeedsOf half !! S (2 * k)
                   = (λ s, (Z.of_nat (length half) * 2 + 1 - s)%Z) <$> half !! k) as Hpair.
    { intros k. apply (bind_pair_lookup (λ s, (Z.of_nat (length half) * 2 + 1 - s)%Z)). }
    destruct (decide (v ≤ 2 ^ t)) as [Hle|Hgt].
    + destruct (IH v ltac:(lia)) as [k Hk]. exists (2 * k).
      destruct (Hpair k) as [-> _]. done.
    + destruct (IH (2 * 2 ^ t + 1 - v) ltac:(lia)) as [k Hk]. exists (S (2 * k)).
      destruct (Hpair k) as [_ ->]. rewrite Hk, Hlen. simpl. f_equal. lia.
Qed.

Lemma seeds_iter_inj t k k' z :
  Nat.iter t nextSeedsOf [1%Z] !! k = Some z →
  Nat.iter t nextSeedsOf [1%Z] !! k' = Some z → k = k'.
Proof.
  revert k k' z. induction t as [|t IH]; intros k k' z.
  - destruct k as [|k], k' as [|k']; done.
  - simpl Nat.iter. intros Hk Hk'.
    apply nextSeedsOf_lookup in Hk as (s0 & Hs0 & Hcase).
    apply nextSeedsOf_lookup in Hk' as (s0' & Hs0' & Hcase').
    rewrite length_seeds_iter in Hcase, Hcase'.
    pose proof (seeds_iter_range _ _ _ Hs0) as Hr.
    pose proof (seeds_iter_range _ _ _ Hs0') as Hr'.
    destruct Hcase as [[Hmod ->]|[Hmod ->]], Hcase' as [[Hmod' Heq]|[Hmod' Heq]];
      try lia.
    + subst s0'. pose proof (IH _ _ _ Hs0 Hs0'). lia.
    + assert (s0' = s0) as -> by lia. pose proof (IH _ _ _ Hs0 Hs0'). lia.
Qed.

(** X5. Every qualifier stands in exactly one slot of the first round of
    the generated bracket: in one match, and not in both of its slots. *)
Theorem every_qualifier_in_first_round_once allParticipants prev s k p :
  handleStartBracket allParticipants prev = (None, s) →
  qualifiedParticipants allParticipants !! k = Some p →
  ∃ j m,
    lookup2 (bracket s) 0 j = Some m
    ∧ (Match.participant1 m = Some p ∨ Match.participant2 m = Some p)
    ∧ ¬ (Match.participant1 m = Some p ∧ Match.participant2 m = Some p)
    ∧ ∀ j' m', lookup2 (bracket s) 0 j' = Some m' →
               Match.participant1 m' = Some p ∨ Match.participant2 m' = Some p →
               j' = j.
Proof.
  intros Hstart Hp.
  set (q := qualifiedParticipants allParticipants) in *.
  destruct (handleStartBracket_Some _ _ _ Hstart) as (Hn & Hb & _). fold q in Hn, Hb.
  destruct (buildBracket_spec q Hn) as (Hwf & _). rewrite <- Hb in Hwf.
  set (R := numRoundsOf (length q)) in *.
  pose proof (numRoundsOf_pos _ Hn) as HR. fold R in HR.
  destruct (bracketSizeOf_bounds _ Hn) as [Hlow Hhigh].
  change (bracketSizeOf (length q)) with (2 ^ R) in Hlow, Hhigh.
  assert (2 ^ R = 2 * 2 ^ (R - 1)) as Hpow.
  { rewrite <- Nat.pow_succ_r'. f_equal. lia. }
  pose proof (qualifiedParticipants_seed _ _ _ Hp) as Hseed.
  apply lookup_lt_Some in Hp as Hk.
  destruct (seeds_iter_surj R (S k) ltac:(lia)) as [pos Hpos].
  apply lookup_lt_Some in Hpos as Hposlt. rewrite length_seeds_iter in Hposlt.
  assert (∀ j' m', lookup2 (bracket s) 0 j' = Some m' →
                   Match.participant1 m' = Some p ∨ Match.participant2 m' = Some p →
                   (pos = 2 * j' ∧ Match.participant1 m' = Some p
                    ∧ Match.participant2 m' ≠ Some p)
                   ∨ (pos = S (2 * j') ∧ Match.participant2 m' = Some p
                      ∧ Match.participant1 m' ≠ Some p)) as Hwhere.
  { intros j' m' Hm' Hslot.
    destruct (firstRound_slots _ _ _ _ _ Hstart Hm')
      as (seed & Hs & Hsn & Heven & Hodd & Hp1 & Hp2 & _).
    fold q in Hs, Hsn, Heven, Hodd, Hp1, Hp2.
    change (bracketSizeOf (length q)) with (2 ^ R) in Hs, Heven, Hodd, Hp2.
    rewrite finalSeedOrder_pow2 in Heven, Hodd.
    assert (∀ x, q !! x = Some p → x = k) as Hidx.
    { intros x Hx. apply qualifiedParticipants_seed in Hx. lia. }
    destruct Hslot as [Hslot|Hslot]; [left|right].
    - rewrite Hp1 in Hslot. apply Hidx in Hslot as Hx.
      replace (Z.of_nat seed) with (Z.of_nat (S k)) in Heven by lia.
      split; [by apply (seeds_iter_inj R _ _ _ Hpos Heven)|].
      split; [by rewrite Hp1|].
      rewrite Hp2. intros Hboth. apply Hidx in Hboth. lia.
    - rewrite Hp2 in Hslot. apply Hidx in Hslot as Hx.
      replace (Z.of_nat (2 ^ R + 1 - seed)) with (Z.of_nat (S k)) in Hodd by lia.
      split; [by apply (seeds_iter_inj R _ _ _ Hpos Hodd)|].
      split; [by rewrite Hp2|].
      rewrite Hp1. intros Hboth. apply Hidx in Hboth. lia. }
  destruct Hwf as [Hlen Hrounds].
  destruct (lookup_lt_is_Some_2 (bracket s) 0) as [round Hround]; [lia|].
  destruct (Hrounds 0 round Hround) as [Hl _]. rewrite Nat.sub_0_r in Hl.
  destruct (lookup_lt_is_Some_2 round (pos / 2)) as [m Hm]; [lia|].
  assert (lookup2 (bracket s) 0 (pos / 2) = Some m) as Hm2.
  { apply lookup2_Some. eauto. }
  exists (pos / 2), m. split; [done|].
  destruct (firstRound_slots _ _ _ _ _ Hstart Hm2)
    as (seed & Hs & Hsn & Heven & Hodd & Hp1 & Hp2 & _).
  fold q in Hs, Hsn, Heven, Hodd, Hp1, Hp2.
  change (bracketSizeOf (length q)) with (2 ^ R) in Hs, Heven, Hodd, Hp2.
  rewrite finalSeedOrder_pow2 in Heven, Hodd.
  assert (Match.participant1 m = Some p ∨ Match.participant2 m = Some p) as Hslot.
  { destruct (decide (pos mod 2 = 0)) as [Hmod|Hmod].
    - left. replace (2 * (pos / 2)) with pos in Heven by lia.
      rewrite Hpos in Heven. injection Heven as Heq.
      rewrite Hp1. replace (seed - 1) with k by lia. done.
    - right. replace (S (2 * (pos / 2))) with pos in Hodd by lia.
      rewrite Hpos in Hodd. injection Hodd as Heq.
      rewrite Hp2. replace (2 ^ R - seed) with k by lia. done. }
  split; [done|]. split.
  - intros [H1 H2]. destruct (Hwhere _ _ Hm2 Hslot) as [(_ & _ & Hne)|(_ & _ & Hne)]; done.
  - intros j' m' Hm' Hslot'.
    destruct (Hwhere _ _ Hm' Hslot') as [(Hpos' & _)|(Hpos' & _)]; lia.
Qed.

Lemma every_qualifier_in_first_round_once_witness :
  let three := [Participant.mk 11 "a" (Some 100%Q) 0; Participant.mk 12 "b" (Some 90%Q) 0;
                Participant.mk 13 "c" (Some 80%Q) 0] in
  let c := Participant.mk 13 "c" (Some 80%Q) 3 in
  let s := (handleStartBracket three getInitialState).2 in
  ∃ j m, lookup2 (bracket s) 0 j = Some m
         ∧ (Match.participant1 m = Some c ∨ Match.participant2 m = Some c).
Proof.
  intros three c s.
  assert (handleStartBracket three getInitialState = (None, s)) as Hstart
    by (vm_compute; reflexivity).
  assert (qualifiedParticipants three !! 2 = Some c) as Hc by (vm_compute; reflexivity).
  destruct (every_qualifier_in_first_round_once three getInitialState s 2 c Hstart Hc)
    as (j & m & Hm & Hslot & _).
  exists j, m. split; [exact Hm|exact Hslot].
Defined.

(** ** The seed-ordering rule along a run *)

Lemma orderBySeed_ordered p1 p2 a b :
  (orderBySeed p1 p2).1 = Some a → (orderBySeed p1 p2).2 = Some b →
  (Participant.seed a ≤ Participant.seed b)%Z.
Proof.
  unfold orderBySeed. destruct p1 as [x|], p2 as [y|]; try done.
  destruct (Participant.seed y <? Participant.seed x)%Z eqn:Hlt; simpl;
    intros [= ->] [= ->]; lia.
Qed.

Lemma seedOrdered_pairUp previousRound roundIndex matchIdCounter j :
  seedOrdered (pairUp previousRound roundIndex matchIdCounter j).
Proof.
  unfold seedOrdered, pairUp. cbv zeta. intros a b.
  match goal with |- context [orderBySeed ?x ?y] =>
    pose proof (orderBySeed_ordered x y a b) as Hord; destruct (orderBySeed x y) end.
  simpl in *. exact Hord.
Qed.

Lemma seedOrdered_placeWinner matchIndex w m : seedOrdered (placeWinner matchIndex w m).
Proof.
  unfold seedOrdered, placeWinner. cbv zeta. intros a b.
  match goal with |- context [orderBySeed ?x ?y] =>
    pose proof (orderBySeed_ordered x y a b) as Hord; destruct (orderBySeed x y) end.
  simpl in *. exact Hord.
Qed.

Lemma seedOrdered_buildRounds k roundIndex matchIdCounter numPrev previousRound :
  (∀ j m, previousRound !! j = Some m → seedOrdered m) →
  ∀ i j m, lookup2 (buildRounds k roundIndex matchIdCounter numPrev previousRound) i j = Some m →
           seedOrdered m.
Proof.
  revert roundIndex matchIdCounter numPrev previousRound.
  induction k as [|k IH]; intros roundIndex matchIdCounter numPrev previousRound Hprev i j m Hm.
  - apply lookup2_Some in Hm as (round & Hround & Hj). simpl in Hround.
    destruct i as [|i]; [|done]. injection Hround as <-. eauto.
  - rewrite buildRounds_S in Hm. apply lookup2_Some in Hm as (round & Hround & Hj).
    destruct i as [|i].
    + injection Hround as <-. rewrite list_lookup_imap in Hj.
      destruct (previousRound !! j) as [m0|] eqn:Hm0; [|done].
      injection Hj as <-. apply (Hprev _ _ Hm0).
    + rewrite lookup_cons_S in Hround.
      assert (lookup2 (buildRounds k (roundIndex + 1)
                         (matchIdCounter + Z.of_nat (numPrev / 2)) (numPrev / 2)
                         (pairUp previousRound roundIndex matchIdCounter
                            <$> seq 0 (numPrev / 2))) i j = Some m) as Hm.
      { apply lookup2_Some. eauto. }
      refine (IH _ _ _ _ _ i j m Hm).
      intros j' m' Hm'. apply list_lookup_fmap_Some in Hm' as (x & -> & _).
      apply seedOrdered_pairUp.
Qed.

Lemma seedOrdered_synthesizeThirdPlace b t :
  synthesizeThirdPlace b = Some t → seedOrdered t.
Proof.
  unfold synthesizeThirdPlace.
  destruct (b !! (length b - 2)) as [semiFinals|]; [|done].
  destruct (forallb hasWinner semiFinals); [|done].
  destruct (losersOf semiFinals) as [|l0 [|l1 [|]]]; try done.
  - intros [= <-] a b' _ Hb. done.
  - destruct (Participant.seed l0 <? Participant.seed l1)%Z eqn:Hlt;
      intros [= <-] a b' [= <-] [= <-]; lia.
Qed.

(** X6. The seed-ordering rule is an invariant of a tournament: in every
    state of a run, whatever winners were selected, each match of the
    bracket and the third-place match has its better seed in slot 1
    whenever both slots are filled. *)
Theorem better_seed_is_always_in_slot_1 s :
  reachable s →
  (∀ i j m, lookup2 (bracket s) i j = Some m → seedOrdered m)
  ∧ (∀ t, thirdPlaceMatch s = Some t → seedOrdered t).
Proof.
  induction 1 as [allParticipants prev s Hnone Hstart|matchId winner s Hreach [IHb IHt]].
  - destruct (handleStartBracket_Some _ _ _ Hstart) as (Hn & Hb & Ht).
    split; [|intros t Hsome; congruence].
    intros i j m Hm. destruct i as [|i].
    + destruct (firstRound_slots _ _ _ _ _ Hstart Hm)
        as (seed & Hs & Hsn & _ & _ & Hp1 & Hp2 & _).
      intros a b Ha Hb'. rewrite Hp1 in Ha. rewrite Hp2 in Hb'.
      apply qualifiedParticipants_seed in Ha, Hb'.
      destruct (bracketSizeOf_bounds _ Hn) as [Hlow Hhigh]. lia.
    + rewrite Hb in Hm. unfold buildBracket in Hm. cbv zeta in Hm.
      pose proof (numRoundsOf_pos _ Hn) as HR.
      destruct (numRoundsOf (length (qualifiedParticipants allParticipants)) - 1)
        as [|k] eqn:Hk.
      { apply lookup2_Some in Hm as (round & Hround & _). done. }
      rewrite buildRounds_S in Hm. apply lookup2_Some in Hm as (round & Hround & Hj).
      rewrite lookup_cons_S in Hround.
      assert (∃ k' ri c np cur,
                 lookup2 (buildRounds k' ri c np (pairUp cur.1 cur.2.1 cur.2.2 <$> seq 0 np))
                   i j = Some m) as (k' & ri & c & np & cur & Hm).
      { eexists _, _, _, _, (_, (_, _)). apply lookup2_Some. simpl. eauto. }
      refine (seedOrdered_buildRounds _ _ _ _ _ _ i j m Hm).
      intros j' m' Hm'. apply list_lookup_fmap_Some in Hm' as (x & -> & _).
      apply seedOrdered_pairUp.
  - split.
    + rewrite bracket_handleSetWinner. unfold resolvedBracket.
      assert (∀ i j m, lookup2 (resolveInBracket matchId winner (bracket s)) i j = Some m →
                       seedOrdered m) as Hres.
      { intros i j m. unfold resolveInBracket.
        destruct (findMatch matchId (bracket s)) as [[[i0 j0] m0]|]; [|apply IHb].
        destruct (Match.winner m0); [apply IHb|].
        assert (∀ i j m, lookup2 (updateMatch i0 j0 (withWinner (Some winner)) (bracket s)) i j
                         = Some m → seedOrdered m) as Hb1.
        { intros i' j' m'. rewrite lookup2_updateMatch.
          destruct (decide _); [|apply IHb].
          destruct (lookup2 (bracket s) i' j') as [mm|] eqn:Hmm; [|done].
          intros [= <-]. apply (IHb _ _ _ Hmm). }
        destruct (Match.nextMatchId m0) as [nextId|]; [|apply Hb1].
        destruct (findMatch nextId _) as [[[i1 j1] m1]|]; [|apply Hb1].
        rewrite lookup2_updateMatch. destruct (decide _); [|apply Hb1].
        destruct (lookup2 _ i j) as [mm|]; [|done].
        intros [= <-]. apply seedOrdered_placeWinner. }
      destruct (thirdPlaceMatch s) as [t|]; [|exact Hres].
      destruct (decide _); [apply IHb|exact Hres].
    + intros t. rewrite thirdPlaceMatch_handleSetWinner.
      destruct (thirdPlaceMatch s) as [t0|].
      * intros [= <-]. destruct (decide _); [|by apply IHt].
        intros a b Ha Hb. apply (IHt t0 eq_refl a b Ha Hb).
      * destruct (decide _); [|done]. apply seedOrdered_synthesizeThirdPlace.
Qed.

Lemma better_seed_is_always_in_slot_1_witness :
  let four := [Participant.mk 11 "a" (Some 100%Q) 0; Participant.mk 12 "b" (Some 90%Q) 0;
               Participant.mk 13 "c" (Some 80%Q) 0; Participant.mk 14 "d" (Some 70%Q) 0] in
  let s0 := (handleStartBracket four getInitialState).2 in
  let s1 := handleSetWinner 0 (Participant.mk 14 "d" (Some 70%Q) 4) s0 in
  let s2 := handleSetWinner 1 (Participant.mk 12 "b" (Some 90%Q) 2) s1 in
  ∃ m a b, lookup2 (bracket s2) 1 0 = Some m
           ∧ Match.participant1 m = Some a ∧ Match.participant2 m = Some b
           ∧ (Participant.seed a ≤ Participant.seed b)%Z.
Proof.
  intros four s0 s1 s2.
  assert (reachable s2) as Hreach.
  { do 2 apply reachable_setWinner.
    apply (reachable_start four getInitialState); [reflexivity|vm_compute; reflexivity]. }
  assert (∃ m a b, lookup2 (bracket s2) 1 0 = Some m
                   ∧ Match.participant1 m = Some a ∧ Match.participant2 m = Some b)
    as (m & a & b & Hm & Ha & Hb).
  { do 3 eexists. split; [vm_compute; reflexivity|]. split; reflexivity. }
  exists m, a, b. split; [exact Hm|]. split; [exact Ha|]. split; [exact Hb|].
  exact (proj1 (better_seed_is_always_in_slot_1 s2 Hreach) 1 0 m Hm a b Ha Hb).
Defined.

(** ** Selections of a winner *)

Lemma resolvedBracket_bracket_branch matchId w s :
  (∀ t, thirdPlaceMatch s = Some t → matchId ≠ Match.id t) →
  resolvedBracket matchId w s = resolveInBracket matchId w (bracket s).
Proof.
  intros Hthird. unfold resolvedBracket. destruct (thirdPlaceMatch s) as [t|]; [|done].
  by rewrite decide_False by (by apply Hthird).
Qed.

Lemma handleSetWinner_fixed matchId w s :
  reachable s →
  (∀ t, thirdPlaceMatch s = Some t → matchId ≠ Match.id t) →
  resolveInBracket matchId w (bracket s) = bracket s →
  handleSetWinner matchId w s = s.
Proof.
  intros Hreach Hthird Hres.
  destruct (reachable_reachInv s Hreach) as (n & Hn & Hwf & Hiff & Hphase).
  assert (resolvedBracket matchId w s = bracket s) as Hb.
  { by rewrite resolvedBracket_bracket_branch. }
  assert (thirdPlaceMatch (handleSetWinner matchId w s) = thirdPlaceMatch s) as Ht.
  { rewrite thirdPlaceMatch_handleSetWinner, Hb.
    destruct (thirdPlaceMatch s) as [t|].
    - by rewrite decide_False by (by apply Hthird).
    - pose proof (synthesizeThirdPlace_iff _ _ Hwf) as Hsyn.
      destruct (if decide (1 < length (bracket s)) then _ else _) as [t|]; [|done].
      exfalso. apply (is_Some_None (A:=Match.t)). apply Hiff, Hsyn. eauto. }
  pose proof (phase_handleSetWinner matchId w s) as Hp.
  pose proof (bracket_handleSetWinner matchId w s) as Hb'.
  rewrite Ht, Hb', Hb in Hp. rewrite Hb in Hb'.
  assert (phase (handleSetWinner matchId w s) = phase s) as Hp'.
  { rewrite Hp. destruct (isTournamentFinished _ _) eqn:Hfin; [|done].
    symmetry. by apply Hphase. }
  destruct (frame_handleSetWinner matchId w s) as (Hst & Hcp & Htc & Hch).
  apply AppState_eq; done.
Qed.

(** X7. In a run, a selection for an id other than that of the third-place
    match leaves the whole state as it is exactly when the bracket has no
    open match with that id: the id is unknown, or the match it names has
    its winner already. *)
Theorem setWinner_changes_nothing_iff matchId w s :
  reachable s →
  (∀ t, thirdPlaceMatch s = Some t → matchId ≠ Match.id t) →
  handleSetWinner matchId w s = s
  ↔ ∀ i j m, findMatch matchId (bracket s) = Some (i, j, m) → is_Some (Match.winner m).
Proof.
  intros Hreach Hthird. split.
  - intros Hsame i j m Hfind.
    destruct (Match.winner m) as [x|] eqn:Hw; [eauto|]. exfalso.
    destruct (resolveInBracket_assigns matchId w _ _ _ _ Hfind Hw) as (m' & Hfind' & Hw').
    rewrite <- resolvedBracket_bracket_branch, <- bracket_handleSetWinner in Hfind' by done.
    rewrite Hsame, Hfind in Hfind'. congruence.
  - intros Hclosed. apply handleSetWinner_fixed; [done..|].
    destruct (findMatch matchId (bracket s)) as [[[i j] m]|] eqn:Hfind.
    + apply resolveInBracket_resolved with i j m; [done|]. by apply (Hclosed i j).
    + unfold resolveInBracket. by rewrite Hfind.
Qed.

Lemma setWinner_changes_nothing_iff_witness :
  let four := [Participant.mk 11 "a" (Some 100%Q) 0; Participant.mk 12 "b" (Some 90%Q) 0;
               Participant.mk 13 "c" (Some 80%Q) 0; Participant.mk 14 "d" (Some 70%Q) 0] in
  let a := Participant.mk 11 "a" (Some 100%Q) 1 in
  let d := Participant.mk 14 "d" (Some 70%Q) 4 in
  let s0 := (handleStartBracket four getInitialState).2 in
  let s1 := handleSetWinner 0 a s0 in
  handleSetWinner 0 d s1 = s1 ∧ handleSetWinner 7 d s1 = s1.
Proof.
  intros four a d s0 s1.
  assert (reachable s1) as Hreach.
  { apply reachable_setWinner.
    apply (reachable_start four getInitialState); [reflexivity|vm_compute; reflexivity]. }
  assert (∀ matchId, ∀ t, thirdPlaceMatch s1 = Some t → matchId ≠ Match.id t) as Hthird.
  { intros matchId t Ht. vm_compute in Ht. discriminate Ht. }
  split.
  - apply (proj2 (setWinner_changes_nothing_iff 0 d s1 Hreach (Hthird 0%Z))).
    intros i j m Hfind. vm_compute in Hfind. injection Hfind as _ _ <-. simpl. eauto.
  - apply (proj2 (setWinner_changes_nothing_iff 7 d s1 Hreach (Hthird 7%Z))).
    intros i j m Hfind. vm_compute in Hfind. discriminate Hfind.
Defined.

Lemma resolveInBracket_skeleton matchId w b i j m' :
  lookup2 (resolveInBracket matchId w b) i j = Some m' →
  ∃ m, lookup2 b i j = Some m ∧ skeleton m' = skeleton m.
Proof.
  assert (∀ b i0 j0 f i j m', (∀ m, skeleton (f m) = skeleton m) →
            lookup2 (updateMatch i0 j0 f b) i j = Some m' →
            ∃ m, lookup2 b i j = Some m ∧ skeleton m' = skeleton m) as Hupd.
  { clear. intros b i0 j0 f i j m' Hf. rewrite lookup2_updateMatch.
    destruct (decide _); [|eauto].
    destruct (lookup2 b i j) as [m|]; [|done]. intros [= <-]. eauto. }
  unfold resolveInBracket.
  destruct (findMatch matchId b) as [[[i0 j0] m0]|]; [|eauto].
  destruct (Match.winner m0); [eauto|].
  destruct (Match.nextMatchId m0) as [nextId|].
  2: { apply Hupd. apply skeleton_withWinner. }
  destruct (findMatch nextId _) as [[[i1 j1] m1]|].
  2: { apply Hupd. apply skeleton_withWinner. }
  intros Hm'. apply Hupd in Hm' as (m1' & Hm1' & Hs1); [|apply skeleton_placeWinner].
  apply Hupd in Hm1' as (m & Hm & Hs); [|apply skeleton_withWinner].
  exists m. split; [done|congruence].
Qed.

Lemma selects_keeps matchId w s i j m :
  lookup2 (bracket s) i j = Some m →
  ∃ m', lookup2 (bracket (handleSetWinner matchId w s)) i j = Some m'
        ∧ skeleton m' = skeleton m ∧ grows m m'.
Proof.
  intros Hm. rewrite bracket_handleSetWinner. unfold resolvedBracket.
  assert (∃ m', lookup2 (resolveInBracket matchId w (bracket s)) i j = Some m'
                ∧ skeleton m' = skeleton m ∧ grows m m') as Hres.
  { destruct (resolveInBracket_bracketGrows matchId w (bracket s)) as [_ Hg].
    specialize (Hg i j). rewrite Hm in Hg. inversion Hg as [? m' Hgrows|]; subst.
    exists m'. split; [done|]. split; [|done].
    destruct (resolveInBracket_skeleton matchId w (bracket s) i j m') as (m0 & Hm0 & Hs);
      [done|]. congruence. }
  assert (∃ m', lookup2 (bracket s) i j = Some m' ∧ skeleton m' = skeleton m ∧ grows m m')
    as Hsame.
  { exists m. split; [done|]. split; [done|]. apply grows_refl. }
  destruct (thirdPlaceMatch s) as [t|]; [destruct (decide _)|]; done.
Qed.

(** X8. Selections never take anything back from the bracket: after any
    number of them, each match is at its place with the same id, round
    index, match index and link, a slot that was filled is filled, and a
    recorded winner is the recorded winner still. *)
Theorem selections_keep_winners_and_links s s' i j m :
  rtc selects s s' →
  lookup2 (bracket s) i j = Some m →
  ∃ m', lookup2 (bracket s') i j = Some m'
        ∧ Match.id m' = Match.id m
        ∧ Match.roundIndex m' = Match.roundIndex m
        ∧ Match.matchIndex m' = Match.matchIndex m
        ∧ Match.nextMatchId m' = Match.nextMatchId m
        ∧ (is_Some (Match.participant1 m) → is_Some (Match.participant1 m'))
        ∧ (is_Some (Match.participant2 m) → is_Some (Match.participant2 m'))
        ∧ (∀ x, Match.winner m = Some x → Match.winner m' = Some x).
Proof.
  intros Hrun. revert m.
  induction Hrun as [s|s s1 s' (matchId & w & ->) _ IH]; intros m Hm.
  - exists m. repeat split; auto.
  - destruct (selects_keeps matchId w s i j m Hm) as (m1 & Hm1 & Hs1 & Hg1 & Hg2 & Hg3).
    destruct (IH m1 Hm1) as (m' & Hm' & Hid & Hri & Hmi & Hnext & Hp1 & Hp2 & Hw).
    unfold skeleton in Hs1. injection Hs1 as Hid1 Hri1 Hmi1 Hnext1.
    exists m'. split; [done|]. repeat split; try congruence; auto.
Qed.

Lemma selections_keep_winners_and_links_witness :
  let four := [Participant.mk 11 "a" (Some 100%Q) 0; Participant.mk 12 "b" (Some 90%Q) 0;
               Participant.mk 13 "c" (Some 80%Q) 0; Participant.mk 14 "d" (Some 70%Q) 0] in
  let a := Participant.mk 11 "a" (Some 100%Q) 1 in
  let d := Participant.mk 14 "d" (Some 70%Q) 4 in
  let s0 := (handleStartBracket four getInitialState).2 in
  let s1 := handleSetWinner 0 a s0 in
  let s3 := handleSetWinner 2 d (handleSetWinner 0 d s1) in
  ∃ m', lookup2 (bracket s3) 0 0 = Some m' ∧ Match.winner m' = Some a.
Proof.
  intros four a d s0 s1 s3.
  assert (rtc selects s1 s3) as Hrun.
  { eapply rtc_l; [by exists 0%Z, d|]. eapply rtc_l; [by exists 2%Z, d|]. apply rtc_refl. }
  destruct (selections_keep_winners_and_links s1 s3 0 0
              (Match.mk 0 0 0 (Some a) (Some d) (Some a) (Some 2%Z)) Hrun)
    as (m' & Hm' & _ & _ & _ & _ & _ & _ & Hw); [vm_compute; reflexivity|].
  exists m'. split; [exact Hm'|]. apply Hw. reflexivity.
Defined.

Lemma placeWinner_places matchIndex w next :
  isSlotParticipant w (placeWinner matchIndex w next)
  ∧ ∀ p, (if (Z.rem matchIndex 2 =? 0)%Z
          then Match.participant2 next else Match.participant1 next) = Some p →
         isSlotParticipant p (placeWinner matchIndex w next).
Proof.
  unfold isSlotParticipant, placeWinner. cbv zeta.
  destruct (Z.rem matchIndex 2 =? 0)%Z;
    cbn [withParticipants Match.participant1 Match.participant2];
    match goal with |- context [orderBySeed ?x ?y] =>
      destruct (orderBySeed_cases x y) as [->| ->] end; simpl; auto.
Qed.

(** X9. In a run, a selection for an open match of the bracket records the
    winner in that match and, unless the match is the final, puts the winner
    in a slot of the match of the next round at half the position, where
    the participant of the other feeding slot stays; every other match of
    the bracket is left as it was. *)
Theorem winner_advances_to_next_round matchId w s i j m :
  reachable s →
  (∀ t, thirdPlaceMatch s = Some t → matchId ≠ Match.id t) →
  findMatch matchId (bracket s) = Some (i, j, m) →
  Match.winner m = None →
  let b' := bracket (handleSetWinner matchId w s) in
  lookup2 b' i j = Some (withWinner (Some w) m)
  ∧ (S i < length (bracket s) →
     ∃ next next',
       lookup2 (bracket s) (S i) (j / 2) = Some next
       ∧ lookup2 b' (S i) (j / 2) = Some next'
       ∧ isSlotParticipant w next'
       ∧ (∀ p, (if decide (j mod 2 = 0)
                then Match.participant2 next else Match.participant1 next) = Some p →
               isSlotParticipant p next')
       ∧ Match.winner next' = Match.winner next)
  ∧ (∀ i' j', (i', j') ≠ (i, j) → (i', j') ≠ (S i, j / 2) →
              lookup2 b' i' j' = lookup2 (bracket s) i' j').
Proof.
  intros Hreach Hthird Hfind Hw b'.
  destruct (reachable_wfShape s Hreach) as [HR Hwf].
  set (R := length (bracket s)) in *.
  destruct (wfShape_findMatch_inv _ _ _ _ _ _ Hwf Hfind) as (Hid & Hj & Hm).
  destruct (wfShape_lookup2 _ _ _ _ _ Hwf Hm) as (Hi & _ & _ & _ & Hmi & Hnext).
  assert (b' = resolveInBracket matchId w (bracket s)) as ->.
  { unfold b'. rewrite bracket_handleSetWinner. by apply resolvedBracket_bracket_branch. }
  unfold resolveInBracket. rewrite Hfind, Hw.
  set (b1 := updateMatch i j (withWinner (Some w)) (bracket s)).
  assert (lookup2 b1 i j = Some (withWinner (Some w) m)) as Hb1.
  { unfold b1. rewrite lookup2_updateMatch, decide_True by done. by rewrite Hm. }
  assert (∀ i' j', (i', j') ≠ (i, j) → lookup2 b1 i' j' = lookup2 (bracket s) i' j') as Hb1'.
  { intros i' j' Hne. unfold b1. rewrite lookup2_updateMatch.
    rewrite decide_False; [done|]. intros [-> ->]. done. }
  destruct (decide (S i < R)) as [Hlt|Hge].
  - destruct (wfShape_link _ _ _ _ _ Hwf Hm Hlt) as (next & Hnext0 & Hlink).
    rewrite Hlink.
    pose proof (wfShape_findMatch _ _ _ _ _ Hwf Hnext0) as Hfind'.
    assert (findMatch (Match.id next) b1 = Some (S i, j / 2, next)) as ->.
    { unfold b1. rewrite findMatch_updateMatch by done. rewrite Hfind'. simpl.
      rewrite decide_False; [done|]. lia. }
    split; [|split].
    + rewrite lookup2_updateMatch, decide_False by lia. done.
    + intros _. exists next, (placeWinner (Match.matchIndex m) w next).
      split; [done|]. split.
      { rewrite lookup2_updateMatch, decide_True by done.
        rewrite Hb1' by (intros [=]; lia). by rewrite Hnext0. }
      destruct (placeWinner_places (Match.matchIndex m) w next) as [Hin Hother].
      split; [done|]. split; [|apply winner_placeWinner].
      intros p Hp. apply Hother. rewrite Hmi.
      destruct (decide (j mod 2 = 0)) as [Hmod|Hmod].
      * replace (Z.rem (Z.of_nat j) 2 =? 0)%Z with true; [done|].
        symmetry. apply Z.eqb_eq. rewrite Z.rem_mod_nonneg by lia. lia.
      * replace (Z.rem (Z.of_nat j) 2 =? 0)%Z with false; [done|].
        symmetry. apply Z.eqb_neq. rewrite Z.rem_mod_nonneg by lia. lia.
    + intros i' j' Hne1 Hne2. rewrite lookup2_updateMatch.
      rewrite decide_False; [by apply Hb1'|]. intros [-> ->]. done.
  - rewrite Hnext.
    split; [done|]. split; [intros; lia|].
    intros i' j' Hne _. by apply Hb1'.
Qed.

Lemma winner_advances_to_next_round_witness :
  let four := [Participant.mk 11 "a" (Some 100%Q) 0; Participant.mk 12 "b" (Some 90%Q) 0;
               Participant.mk 13 "c" (Some 80%Q) 0; Participant.mk 14 "d" (Some 70%Q) 0] in
  let c := Participant.mk 13 "c" (Some 80%Q) 3 in
  let s0 := (handleStartBracket four getInitialState).2 in
  ∃ final, lookup2 (bracket (handleSetWinner 1 c s0)) 1 0 = Some final
           ∧ isSlotParticipant c final.
Proof.
  intros four c s0.
  assert (reachable s0) as Hreach.
  { apply (reachable_start four getInitialState); [reflexivity|vm_compute; reflexivity]. }
  assert (∀ t, thirdPlaceMatch s0 = Some t → 1%Z ≠ Match.id t) as Hthird.
  { intros t Ht. vm_compute in Ht. discriminate Ht. }
  destruct (winner_advances_to_next_round 1 c s0 0 1
              (Match.mk 1 0 1 (Some (Participant.mk 12 "b" (Some 90%Q) 2)) (Some c) None
                 (Some 2%Z)) Hreach Hthird)
    as (_ & Hadv & _); [vm_compute; reflexivity|reflexivity|].
  destruct Hadv as (next & next' & _ & Hnext' & Hin & _); [vm_compute; lia|].
  exists next'. split; [exact Hnext'|exact Hin].
Defined.

(** X10. In a run the phase is BRACKET or FINISHED; it is FINISHED whenever
    the final, and the third-place match if there is one, have a winner;
    and once FINISHED it stays so under every further selection. *)
Theorem run_phase_is_bracket_or_finished s :
  reachable s →
  (phase s = BRACKET ∨ phase s = FINISHED)
  ∧ (isTournamentFinished (bracket s) (thirdPlaceMatch s) = true → phase s = FINISHED)
  ∧ (∀ matchId w, phase s = FINISHED → phase (handleSetWinner matchId w s) = FINISHED).
Proof.
  intros Hreach. split; [|split].
  - induction Hreach as [allParticipants prev s Hnone Hstart|matchId winner s _ IH].
    + left. unfold handleStartBracket in Hstart.
      destruct (decide _); [done|]. by injection Hstart as <-.
    + rewrite phase_handleSetWinner. destruct (isTournamentFinished _ _); auto.
  - by destruct (reachable_reachInv s Hreach) as (n & _ & _ & _ & Hphase).
  - intros matchId w Hfin. rewrite phase_handleSetWinner, Hfin.
    by destruct (isTournamentFinished _ _).
Qed.

Lemma run_phase_is_bracket_or_finished_witness :
  let two := [Participant.mk 11 "a" (Some 100%Q) 0; Participant.mk 12 "b" (Some 90%Q) 0] in
  let a := Participant.mk 11 "a" (Some 100%Q) 1 in
  let s0 := (handleStartBracket two getInitialState).2 in
  phase s0 = BRACKET ∧ phase (handleSetWinner 0 a s0) = FINISHED.
Proof.
  intros two a s0.
  assert (reachable s0) as Hreach.
  { apply (reachable_start two getInitialState); [reflexivity|vm_compute; reflexivity]. }
  split; [vm_compute; reflexivity|].
  apply (proj1 (proj2 (run_phase_is_bracket_or_finished (handleSetWinner 0 a s0)
                         (reachable_setWinner 0 a s0 Hreach)))).
  vm_compute. reflexivity.
Defined.

(** * The season table *)

(** ** The sort by total *)

Lemma insertByTotal_perm a l : insertByTotal a l ≡ₚ a :: l.
Proof.
  induction l as [|b l IH]; simpl; [done|].
  destruct (Qltb (totalOf a) (totalOf b)); [|done].
  rewrite IH. apply perm_swap.
Qed.

Lemma sortByTotalDesc_perm l : sortByTotalDesc l ≡ₚ l.
Proof.
  induction l as [|a l IH]; simpl; [done|].
  by rewrite insertByTotal_perm, IH.
Qed.

Lemma insertByTotal_sorted a l :
  StronglySorted totalGe l → StronglySorted totalGe (insertByTotal a l).
Proof.
  induction l as [|b l IH]; intros Hsorted; simpl.
  - by repeat constructor.
  - apply StronglySorted_inv in Hsorted as [Hl Hb].
    destruct (Qltb_spec (totalOf a) (totalOf b)) as [Hlt|Hge].
    + constructor; [by apply IH|].
      rewrite insertByTotal_perm. constructor; [|done].
      unfold totalGe. by apply Qlt_le_weak.
    + apply Qnot_lt_le in Hge.
      constructor; [by constructor|].
      constructor; [done|].
      eapply Forall_impl; [exact Hb|]. unfold totalGe. intros x Hx.
      by apply Qle_trans with (totalOf b).
Qed.

Lemma sortByTotalDesc_sorted l : StronglySorted totalGe (sortByTotalDesc l).
Proof.
  induction l as [|a l IH]; simpl; [constructor|]. by apply insertByTotal_sorted.
Qed.

Lemma insertByTotal_stable z a l :
  filter (λ st, totalOf st == z) (insertByTotal a l)
  = filter (λ st, totalOf st == z) (a :: l).
Proof.
  induction l as [|b l IH]; simpl; [done|].
  destruct (Qltb_spec (totalOf a) (totalOf b)) as [Hlt|Hge]; [|done].
  rewrite (filter_cons _ b), IH, !filter_cons.
  destruct (decide (totalOf b == z)) as [Hb|Hb], (decide (totalOf a == z)) as [Ha|Ha];
    try done.
  rewrite Ha, Hb in Hlt. by apply Qlt_irrefl in Hlt.
Qed.

Lemma sortByTotalDesc_stable z l :
  filter (λ st, totalOf st == z) (sortByTotalDesc l) = filter (λ st, totalOf st == z) l.
Proof.
  induction l as [|a l IH]; simpl; [done|].
  rewrite insertByTotal_stable, !filter_cons, IH. done.
Qed.

(** X11. Returning to the championship gives every row of the season table
    exactly one more entry, the points of the competition for the row's id,
    keeps the rows' ids and names, and orders the table by total,
    descending, rows of equal total staying in the order they had; the
    competition counter goes up by one, the phase is CHAMPIONSHIP_VIEW, and
    the rest of the state, bracket included, is as it was. *)
Theorem returnToChampionship_table prev :
  let s' := handleReturnToChampionship prev in
  let rows := withCompetitionPoints (pointsToAddOf prev) <$> standings prev in
  standings s' ≡ₚ rows
  ∧ StronglySorted totalGe (standings s')
  ∧ (∀ z, filter (λ st, totalOf st == z) (standings s')
          = filter (λ st, totalOf st == z) rows)
  ∧ (∀ k st, standings prev !! k = Some st →
       ∃ row, rows !! k = Some row
              ∧ ChampionshipStanding.id row = ChampionshipStanding.id st
              ∧ ChampionshipStanding.name row = ChampionshipStanding.name st
              ∧ ChampionshipStanding.pointsPerCompetition row
                = (ChampionshipStanding.pointsPerCompetition st
                   ++ [pointsOf (pointsToAddOf prev) (ChampionshipStanding.id st)])%list)
  ∧ phase s' = CHAMPIONSHIP_VIEW
  ∧ competitionsHeld s' = (competitionsHeld prev + 1)%Z
  ∧ competitionParticipants s' = competitionParticipants prev
  ∧ bracket s' = bracket prev
  ∧ thirdPlaceMatch s' = thirdPlaceMatch prev
  ∧ totalCompetitions s' = totalCompetitions prev.
Proof.
  intros s' rows. split; [apply sortByTotalDesc_perm|].
  split; [apply sortByTotalDesc_sorted|].
  split; [intros z; apply sortByTotalDesc_stable|].
  split; [|done].
  intros k st Hst. exists (withCompetitionPoints (pointsToAddOf prev) st).
  split; [|done]. unfold rows. by rewrite list_lookup_fmap, Hst.
Qed.

Lemma returnToChampionship_table_witness :
  let a := ChampionshipStanding.mk 11 "a" [] in
  let b := ChampionshipStanding.mk 12 "b" [] in
  let two := [Participant.mk 11 "a" (Some 90%Q) 0; Participant.mk 12 "b" (Some 100%Q) 0] in
  let s0 := setStandings [a; b] getInitialState in
  let s1 := (handleStartBracket two (handleStartCompetition s0)).2 in
  let s2 := handleSetWinner 0 (Participant.mk 12 "b" (Some 100%Q) 1) s1 in
  ∃ row, (withCompetitionPoints (pointsToAddOf s2) <$> standings s2) !! 1 = Some row
         ∧ ChampionshipStanding.id row = 12%Z.
Proof.
  intros a b two s0 s1 s2.
  destruct (returnToChampionship_table s2) as (_ & _ & _ & Hrows & _).
  destruct (Hrows 1 b) as (row & Hrow & Hid & _); [reflexivity|].
  exists row. split; [exact Hrow|exact Hid].
Defined.

(** ** The invariant of the table *)

Lemma standingsInSync_frame s s' :
  standings s' = standings s → competitionsHeld s' = competitionsHeld s →
  standingsInSync s → standingsInSync s'.
Proof. unfold standingsInSync. by intros -> ->. Qed.

(** X12. One entry per competition held in every row of the season table
    is an invariant of the handlers: starting a competition, generating the
    bracket, selecting a winner and returning to the championship all keep
    it. *)
Theorem handlers_keep_standings_in_sync prev :
  standingsInSync prev →
  standingsInSync (handleStartCompetition prev)
  ∧ (∀ allParticipants, standingsInSync (handleStartBracket allParticipants prev).2)
  ∧ (∀ matchId winner, standingsInSync (handleSetWinner matchId winner prev))
  ∧ standingsInSync (handleReturnToChampionship prev).
Proof.
  intros Hsync. split; [by apply standingsInSync_frame with prev|].
  split; [|split].
  - intros allParticipants. apply standingsInSync_frame with prev; [| |done];
      unfold handleStartBracket; by destruct (decide _).
  - intros matchId winner.
    destruct (frame_handleSetWinner matchId winner prev) as (Hst & _ & _ & Hch).
    by apply standingsInSync_frame with prev.
  - destruct Hsync as [Hpos Hrows]. split; [simpl; lia|].
    intros row Hrow. simpl in Hrow. rewrite sortByTotalDesc_perm in Hrow.
    apply list_elem_of_fmap in Hrow as (st & -> & Hst).
    simpl. rewrite length_app. simpl. specialize (Hrows st Hst). lia.
Qed.

Lemma handlers_keep_standings_in_sync_witness :
  let s0 := setStandings [ChampionshipStanding.mk 11 "a" [12%Q]]
              (handleReturnToChampionship getInitialState) in
  standingsInSync (handleReturnToChampionship s0).
Proof.
  intros s0.
  apply (handlers_keep_standings_in_sync s0). split; [simpl; lia|].
  intros standing Hin. apply list_elem_of_singleton in Hin. subst standing. reflexivity.
Defined.

(** ** The points of a competition *)

Lemma pointsOf_addPoints id points m id' :
  pointsOf (addPoints id points m) id'
  = if decide (id' = id) then (pointsOf m id + points)%Q else pointsOf m id'.
Proof.
  unfold pointsOf, addPoints. destruct (decide (id' = id)) as [->|Hne].
  - by rewrite lookup_insert_eq.
  - by rewrite lookup_insert_ne.
Qed.

Lemma ptsLe_refl m : ptsLe m m.
Proof. intros id. apply Qle_refl. Qed.

Lemma ptsLe_trans m1 m2 m3 : ptsLe m1 m2 → ptsLe m2 m3 → ptsLe m1 m3.
Proof. intros H12 H23 id. by apply Qle_trans with (pointsOf m2 id). Qed.

Lemma ptsLe_addPoints id points m : (0 <= points)%Q → ptsLe m (addPoints id points m).
Proof.
  intros Hpos id'. rewrite pointsOf_addPoints.
  destruct (decide (id' = id)) as [->|_]; lra.
Qed.

Lemma ptsLe_foldl {A} (f : gmap Z Q → A → gmap Z Q) l m :
  (∀ m x, ptsLe m (f m x)) → ptsLe m (foldl f m l).
Proof.
  intros Hf. revert m. induction l as [|x l IH]; intros m; simpl; [apply ptsLe_refl|].
  by apply ptsLe_trans with (f m x).
Qed.

Lemma ptsLe_awardIf p points m : (0 <= points)%Q → ptsLe m (awardIf p points m).
Proof.
  intros Hpos. destruct p as [p|]; simpl; [by apply ptsLe_addPoints|apply ptsLe_refl].
Qed.

Lemma ptsLe_awardLoser top4Ids points m mt :
  (0 <= points)%Q → ptsLe m (awardLoser top4Ids points m mt).
Proof.
  intros Hpos. unfold awardLoser. destruct (roundLoser mt) as [loser|]; [|apply ptsLe_refl].
  destruct (decide _); [apply ptsLe_refl|by apply ptsLe_addPoints].
Qed.

Lemma ptsLe_awardMapping b top4Ids m mapping :
  (0 <= mapping.2)%Q → ptsLe m (awardMapping b top4Ids m mapping).
Proof.
  intros Hpos. unfold awardMapping.
  destruct (list_find _ b) as [[k round]|]; [|apply ptsLe_refl].
  apply ptsLe_foldl. intros m' mt. by apply ptsLe_awardLoser.
Qed.

Lemma ptsLe_roundAwards b top4Ids m :
  ptsLe m (foldl (awardMapping b top4Ids) m pointMapping).
Proof.
  unfold pointMapping. simpl.
  repeat (eapply ptsLe_trans; [|apply ptsLe_awardMapping; simpl; lra]).
  apply ptsLe_refl.
Qed.

Lemma qualificationPointsOf_nonneg rank : (0 <= qualificationPointsOf rank)%Q.
Proof.
  unfold qualificationPointsOf.
  repeat match goal with
    | |- context [if ?c then _ else _] => destruct c
    end; lra.
Qed.

Lemma ptsLe_qualificationAwards index ranking m :
  ptsLe m (qualificationAwards index ranking m).
Proof.
  revert index m. induction ranking as [|p rest IH]; intros index m; simpl;
    [apply ptsLe_refl|].
  eapply ptsLe_trans; [|apply IH].
  apply ptsLe_addPoints, qualificationPointsOf_nonneg.
Qed.

Lemma pointsAfterQualification_nonneg standings competitionParticipants id :
  (0 <= pointsOf (pointsAfterQualification standings competitionParticipants) id)%Q.
Proof.
  unfold pointsAfterQualification. cbv zeta.
  eapply Qle_trans; [|apply ptsLe_qualificationAwards].
  unfold pointsOf. rewrite initial_points_zero. lra.
Qed.

(** The handler's chain of [let]s as two folds. *)
Lemma pointsToAddOf_folds prev :
  pointsToAddOf prev
  = foldl (awardMapping (bracket prev)
             (list_to_set (filter (λ id, id ≠ 0%Z) (omap idOf (fst <$> podiumOf prev)))))
      (foldl (λ m x, awardIf x.1 x.2 m)
         (pointsAfterQualification (standings prev) (competitionParticipants prev))
         (podiumOf prev))
      pointMapping.
Proof. reflexivity. Qed.

Lemma ptsLe_podium podium m : 
  (∀ x, x ∈ podium → (0 <= x.2)%Q) →
  ptsLe m (foldl (λ m (x : option Participant.t * Q), awardIf x.1 x.2 m) m podium).
Proof.
  revert m. induction podium as [|x podium IH]; intros m Hpos; simpl; [apply ptsLe_refl|].
  eapply ptsLe_trans; [|apply IH].
  - apply ptsLe_awardIf, Hpos. constructor.
  - intros y Hy. apply Hpos. by constructor.
Qed.

Lemma podium_at_least podium m k p points :
  (∀ x, x ∈ podium → (0 <= x.2)%Q) →
  (∀ id, 0 <= pointsOf m id)%Q →
  podium !! k = Some (Some p, points) →
  (points <= pointsOf (foldl (λ m (x : option Participant.t * Q), awardIf x.1 x.2 m) m podium)
               (Participant.id p))%Q.
Proof.
  revert m k. induction podium as [|x podium IH]; intros m k Hpos Hm Hk; [done|].
  simpl. destruct k as [|k].
  - injection Hk as ->. simpl.
    eapply Qle_trans; [|apply ptsLe_podium; intros y Hy; apply Hpos; by constructor].
    rewrite pointsOf_addPoints, decide_True by done.
    specialize (Hm (Participant.id p)). lra.
  - apply (IH _ k); [intros y Hy; apply Hpos; by constructor| |done].
    intros id. eapply Qle_trans; [apply (Hm id)|].
    apply ptsLe_awardIf, Hpos. constructor.
Qed.

Lemma podiumOf_nonneg prev x : x ∈ podiumOf prev → (0 <= x.2)%Q.
Proof.
  unfold podiumOf. cbv zeta. intros Hx.
  repeat (apply elem_of_cons in Hx as [->|Hx]; [simpl; lra|]).
  by apply elem_of_nil in Hx.
Qed.

Lemma roundLoser_slot m p : roundLoser m = Some p → isSlotParticipant p m.
Proof.
  unfold roundLoser, isSlotParticipant. destruct (decide _); auto.
Qed.

Lemma otherOf_slot m x p :
  otherOf m x = Some p → ∃ mt, m = Some mt ∧ isSlotParticipant p mt.
Proof.
  unfold otherOf, isSlotParticipant. destruct m as [mt|]; simpl.
  - destruct (decide _); eauto.
  - by destruct (decide _).
Qed.

Lemma awardIf_other p points m id :
  idOf p ≠ Some id → pointsOf (awardIf p points m) id = pointsOf m id.
Proof.
  destruct p as [p|]; simpl; [|done]. intros Hne.
  rewrite pointsOf_addPoints, decide_False; [done|]. congruence.
Qed.

Lemma awardLoser_other top4Ids points m mt id :
  (∀ p, isSlotParticipant p mt → Participant.id p = id → id ∈ top4Ids) →
  pointsOf (awardLoser top4Ids points m mt) id = pointsOf m id.
Proof.
  intros Hslot. unfold awardLoser. destruct (roundLoser mt) as [loser|] eqn:Hloser; [|done].
  destruct (decide (Participant.id loser ∈ top4Ids)) as [Hin|Hout]; [done|].
  rewrite pointsOf_addPoints, decide_False; [done|].
  intros ->. apply Hout. apply (Hslot loser); [by apply roundLoser_slot|done].
Qed.

Lemma roundAwards_other b top4Ids m id :
  (∀ i j mt p, lookup2 b i j = Some mt → isSlotParticipant p mt →
               Participant.id p = id → id ∈ top4Ids) →
  pointsOf (foldl (awardMapping b top4Ids) m pointMapping) id = pointsOf m id.
Proof.
  intros Hslot.
  assert (∀ mapping m, pointsOf (awardMapping b top4Ids m mapping) id = pointsOf m id) as Hone.
  { intros mapping m'. unfold awardMapping.
    destruct (list_find _ b) as [[i round]|] eqn:Hfind; [|done].
    apply list_find_Some in Hfind as (Hround & _).
    assert (∀ j mt, round !! j = Some mt →
              ∀ p, isSlotParticipant p mt → Participant.id p = id → id ∈ top4Ids) as Hr.
    { intros j mt Hmt p. apply (Hslot i j). apply lookup2_Some. eauto. }
    clear Hround. revert m'. induction round as [|mt round IH]; intros m'; simpl; [done|].
    rewrite IH.
    - apply awardLoser_other. apply (Hr 0). done.
    - intros j mt' Hmt'. apply (Hr (S j)). done. }
  generalize pointMapping. intros l. revert m.
  induction l as [|mapping l IH]; intros m; simpl; [done|].
  by rewrite IH, Hone.
Qed.

(** Someone who took no part is given no points. *)
Lemma tookNoPart_no_points prev id :
  tookNoPart id prev → pointsOf (pointsToAddOf prev) id = 0%Q.
Proof.
  intros (Hqual & Hbracket & Hthird). rewrite pointsToAddOf_folds.
  set (finalMatch := finalMatchOf (bracket prev)).
  set (winner := finalMatch ≫= Match.winner).
  set (runnerUp := otherOf finalMatch winner).
  set (thirdPlace := thirdPlaceMatch prev ≫= Match.winner).
  set (fourthPlace := otherOf (thirdPlaceMatch prev) thirdPlace).
  set (qual := pointsAfterQualification (standings prev) (competitionParticipants prev)).
  rewrite roundAwards_other.
  2: { intros i j mt p Hmt Hslot Hid. exfalso.
       apply (Hbracket i j mt p Hmt); [by left|done]. }
  assert (∀ mt p, finalMatch = Some mt →
            isSlotParticipant p mt ∨ Match.winner mt = Some p → Participant.id p ≠ id)
    as Hfinal.
  { intros mt p Hfm. unfold finalMatch, finalMatchOf in Hfm.
    apply bind_Some in Hfm as (round & Hlast & Hhead).
    apply last_Some in Hlast as (rest & Hb).
    apply (Hbracket (length rest) 0 mt p). apply lookup2_Some. exists round. split.
    - rewrite Hb. by rewrite lookup_app_r, Nat.sub_diag by lia.
    - by destruct round. }
  assert (idOf winner ≠ Some id) as Hw.
  { unfold winner. destruct finalMatch as [mt|] eqn:Hfm; [|done]. simpl.
    destruct (Match.winner mt) as [p|] eqn:Hp; [|done]. simpl. intros [= Hid].
    apply (Hfinal mt p eq_refl); [by right|done]. }
  assert (idOf runnerUp ≠ Some id) as Hr.
  { destruct runnerUp as [p|] eqn:Hp; [|done]. simpl. intros [= Hid].
    apply otherOf_slot in Hp as (mt & Hmt & Hslot).
    apply (Hfinal mt p Hmt); [by left|done]. }
  assert (idOf thirdPlace ≠ Some id) as Ht.
  { unfold thirdPlace. destruct (thirdPlaceMatch prev) as [mt|] eqn:Hfm; [|done]. simpl.
    destruct (Match.winner mt) as [p|] eqn:Hp; [|done]. simpl. intros [= Hid].
    apply (Hthird mt p eq_refl); [by right|done]. }
  assert (idOf fourthPlace ≠ Some id) as Hf.
  { destruct fourthPlace as [p|] eqn:Hp; [|done]. simpl. intros [= Hid].
    apply otherOf_slot in Hp as (mt & Hmt & Hslot).
    apply (Hthird mt p Hmt); [by left|done]. }
  unfold podiumOf. cbv zeta. fold finalMatch winner runnerUp thirdPlace fourthPlace.
  simpl. rewrite !awardIf_other by done.
  unfold qual, pointsAfterQualification. cbv zeta. unfold pointsOf.
  rewrite qualificationAwards_other.
  + apply initial_points_zero.
  + unfold qualified. rewrite filter_qualifies.
    intros Hin. apply Hqual.
    apply list_elem_of_fmap in Hin as (p & -> & Hp).
    apply list_elem_of_fmap. exists p. split; [done|].
    by rewrite sortByScoreDesc_perm in Hp.
Qed.

(** X13. The points of a competition are never negative; the winner of the
    final receives at least 100 of them, the other finalist at least 88, the
    winner of the third-place match at least 76 and its other participant at
    least 64; an id of nobody who took part receives 0. *)
Theorem competition_points_bounds prev :
  let finalMatch := finalMatchOf (bracket prev) in
  let winner := finalMatch ≫= Match.winner in
  let runnerUp := otherOf finalMatch winner in
  let thirdPlace := thirdPlaceMatch prev ≫= Match.winner in
  let fourthPlace := otherOf (thirdPlaceMatch prev) thirdPlace in
  let awarded := pointsOf (pointsToAddOf prev) in
  (∀ id, 0 <= awarded id)%Q
  ∧ (∀ p, winner = Some p → 100 <= awarded (Participant.id p))%Q
  ∧ (∀ p, runnerUp = Some p → 88 <= awarded (Participant.id p))%Q
  ∧ (∀ p, thirdPlace = Some p → 76 <= awarded (Participant.id p))%Q
  ∧ (∀ p, fourthPlace = Some p → 64 <= awarded (Participant.id p))%Q
  ∧ (∀ id, tookNoPart id prev → awarded id = 0%Q).
Proof.
  intros finalMatch winner runnerUp thirdPlace fourthPlace awarded.
  unfold awarded. rewrite pointsToAddOf_folds.
  set (qual := pointsAfterQualification (standings prev) (competitionParticipants prev)).
  assert (∀ k p points, podiumOf prev !! k = Some (Some p, points) →
            (points <= pointsOf
               (foldl (awardMapping (bracket prev)
                         (list_to_set (filter (λ id, id ≠ 0%Z)
                                         (omap idOf (fst <$> podiumOf prev)))))
                  (foldl (λ m x, awardIf x.1 x.2 m) qual (podiumOf prev)) pointMapping)
               (Participant.id p))%Q) as Hplace.
  { intros k p points Hk. eapply Qle_trans; [|apply ptsLe_roundAwards].
    apply podium_at_least with k; [apply podiumOf_nonneg| |done].
    intros id. apply pointsAfterQualification_nonneg. }
  split; [|split; [|split; [|split; [|split]]]].
  - intros id. eapply Qle_trans; [|apply ptsLe_roundAwards].
    eapply Qle_trans; [|apply ptsLe_podium, podiumOf_nonneg].
    apply pointsAfterQualification_nonneg.
  - intros p Hp. apply (Hplace 0). unfold podiumOf. cbv zeta. fold finalMatch winner.
    by rewrite Hp.
  - intros p Hp. apply (Hplace 1). unfold podiumOf. cbv zeta.
    fold finalMatch winner runnerUp. by rewrite Hp.
  - intros p Hp. apply (Hplace 2). unfold podiumOf. cbv zeta. fold thirdPlace.
    by rewrite Hp.
  - intros p Hp. apply (Hplace 3). unfold podiumOf. cbv zeta.
    fold thirdPlace fourthPlace. by rewrite Hp.
  - intros id. apply tookNoPart_no_points.
Qed.

Lemma competition_points_bounds_witness :
  let a := ChampionshipStanding.mk 11 "a" [] in
  let b := ChampionshipStanding.mk 12 "b" [] in
  let two := [Participant.mk 11 "a" (Some 90%Q) 0; Participant.mk 12 "b" (Some 100%Q) 0] in
  let s0 := setStandings [a; b] getInitialState in
  let s1 := (handleStartBracket two (handleStartCompetition s0)).2 in
  let s2 := handleSetWinner 0 (Participant.mk 12 "b" (Some 100%Q) 1) s1 in
  (100 <= pointsOf (pointsToAddOf s2) 12)%Q ∧ pointsOf (pointsToAddOf s2) 13 = 0%Q.
Proof.
  intros a b two s0 s1 s2.
  destruct (competition_points_bounds s2) as (_ & Hw & _ & _ & _ & Hnone).
  split.
  - apply (Hw (Participant.mk 12 "b" (Some 100%Q) 1)). reflexivity.
  - apply Hnone. split; [|split].
    + vm_compute. intros Hin. apply elem_of_nil in Hin. exact Hin.
    + intros i j m p Hm Hp.
      destruct i as [|[|]]; [destruct j as [|[|]]| |]; vm_compute in Hm; try discriminate Hm.
      injection Hm as <-. destruct Hp as [[Hp|Hp]|Hp]; injection Hp as <-; discriminate.
    + intros t p Ht. vm_compute in Ht. discriminate Ht.
Defined.

Lemma podium_other podium m id :
  (∀ k q points, podium !! k = Some (Some q, points) → Participant.id q ≠ id) →
  pointsOf (foldl (λ m (x : option Participant.t * Q), awardIf x.1 x.2 m) m podium) id
  = pointsOf m id.
Proof.
  revert m. induction podium as [|x podium IH]; intros m Hne; simpl; [done|].
  rewrite IH by (intros k q points Hk; by apply (Hne (S k) q points)).
  apply awardIf_other. destruct x as [[q|] points]; simpl; [|done].
  intros [= Hid]. by apply (Hne 0 q points).
Qed.

Lemma podium_exact podium m k p points :
  podium !! k = Some (Some p, points) →
  (∀ k' q points', k' ≠ k → podium !! k' = Some (Some q, points') →
                   Participant.id q ≠ Participant.id p) →
  pointsOf (foldl (λ m (x : option Participant.t * Q), awardIf x.1 x.2 m) m podium)
    (Participant.id p)
  = (pointsOf m (Participant.id p) + points)%Q.
Proof.
  revert m k. induction podium as [|x podium IH]; intros m k Hk Hne; [done|].
  simpl. destruct k as [|k].
  - injection Hk as ->. simpl.
    rewrite podium_other by (intros k q points' Hq; by apply (Hne (S k) q points')).
    by rewrite pointsOf_addPoints, decide_True.
  - rewrite (IH _ k); [|done|].
    2: { intros k' q points' Hk' Hq. apply (Hne (S k') q points'); [lia|done]. }
    f_equal. apply awardIf_other. destruct x as [[q|] points']; simpl; [|done].
    intros [= Hid]. by apply (Hne 0 q points').
Qed.

(** X14. Someone on the podium whose id is not 0 and is not the id of
    another one on the podium receives exactly their qualification points
    and the points of their place (100, 88, 76 or 64): no round points are
    added on top. *)
Theorem podium_points_exact prev k p points :
  podiumOf prev !! k = Some (Some p, points) →
  Participant.id p ≠ 0%Z →
  (∀ k' q points', k' ≠ k → podiumOf prev !! k' = Some (Some q, points') →
                   Participant.id q ≠ Participant.id p) →
  pointsOf (pointsToAddOf prev) (Participant.id p)
  = (pointsOf (pointsAfterQualification (standings prev) (competitionParticipants prev))
       (Participant.id p) + points)%Q.
Proof.
  intros Hk Hid Hne. rewrite pointsToAddOf_folds.
  rewrite roundAwards_other; [by apply podium_exact with k|].
  intros _ _ _ _ _ _ _. apply elem_of_list_to_set, list_elem_of_filter. split; [done|].
  apply list_elem_of_omap. exists (Some p). split; [|done].
  apply list_elem_of_fmap. exists (Some p, points). split; [done|].
  by apply list_elem_of_lookup_2 with k.
Qed.

Lemma podium_points_exact_witness :
  let a := ChampionshipStanding.mk 11 "a" [] in
  let b := ChampionshipStanding.mk 12 "b" [] in
  let two := [Participant.mk 11 "a" (Some 90%Q) 0; Participant.mk 12 "b" (Some 100%Q) 0] in
  let s0 := setStandings [a; b] getInitialState in
  let s1 := (handleStartBracket two (handleStartCompetition s0)).2 in
  let s2 := handleSetWinner 0 (Participant.mk 12 "b" (Some 100%Q) 1) s1 in
  pointsOf (pointsToAddOf s2) 12
  = (pointsOf (pointsAfterQualification (standings s2) (competitionParticipants s2)) 12
     + 100)%Q.
Proof.
  intros a b two s0 s1 s2.
  apply (podium_points_exact s2 0 (Participant.mk 12 "b" (Some 100%Q) 1) 100%Q).
  - reflexivity.
  - discriminate.
  - intros k' q points' Hne Hk'.
    destruct k' as [|[|[|[|]]]]; [by destruct Hne| | | |]; vm_compute in Hk';
      try discriminate Hk'.
    injection Hk' as <- _. intros Heq. vm_compute in Heq. discriminate Heq.
Defined.

(** ** The qualification points in the table *)

Lemma rankPoints_qualificationAwards index ranking m id :
  pointsOf (qualificationAwards index ranking m) id
  == pointsOf m id + rankPointsOf index ranking id.
Proof.
  revert index m. induction ranking as [|p rest IH]; intros index m; simpl.
  - lra.
  - rewrite IH, pointsOf_addPoints.
    destruct (decide (id = Participant.id p)) as [->|Hne].
    + rewrite decide_True by done. lra.
    + rewrite decide_False by done. lra.
Qed.

Lemma rankPointsOf_absent index ranking id :
  id ∉ Participant.id <$> ranking → rankPointsOf index ranking id == 0.
Proof.
  revert index. induction ranking as [|p rest IH]; intros index Hid; simpl; [lra|].
  rewrite fmap_cons in Hid. apply not_elem_of_cons in Hid as [Hne Hid].
  rewrite decide_False by done. rewrite IH by done. lra.
Qed.

Lemma rankPointsOf_once index ranking i p :
  ranking !! i = Some p →
  (∀ j q, ranking !! j = Some q → Participant.id q = Participant.id p → j = i) →
  rankPointsOf index ranking (Participant.id p)
  == qualificationPointsOf (Z.of_nat (index + i) + 1).
Proof.
  revert index i. induction ranking as [|q rest IH]; intros index i Hi Honce; [done|].
  simpl. destruct i as [|i].
  - injection Hi as ->. rewrite decide_True by done.
    rewrite rankPointsOf_absent.
    + rewrite Nat.add_0_r. lra.
    + intros Hin. apply list_elem_of_fmap in Hin as (q & Hq & Hin).
      apply list_elem_of_lookup in Hin as [j Hj].
      by specialize (Honce (S j) q Hj (eq_sym Hq)).
  - rewrite decide_False.
    2: { intros Hq. by specialize (Honce 0 q eq_refl Hq). }
    rewrite (IH (S index) i Hi).
    + replace (S index + i) with (index + S i) by lia. lra.
    + intros j q' Hj Hq'. specialize (Honce (S j) q' Hj Hq'). lia.
Qed.

Lemma ptsShift_foldl {A} d (f : gmap Z Q → A → gmap Z Q) l m m' :
  (∀ m m' a, ptsShift d m m' → ptsShift d (f m a) (f m' a)) →
  ptsShift d m m' → ptsShift d (foldl f m l) (foldl f m' l).
Proof.
  intros Hf. revert m m'. induction l as [|a l IH]; intros m m' Hm; simpl; [done|].
  by apply IH, Hf.
Qed.

Lemma ptsShift_addPoints d id points m m' :
  ptsShift d m m' → ptsShift d (addPoints id points m) (addPoints id points m').
Proof.
  intros Hm x. rewrite !pointsOf_addPoints.
  destruct (decide (x = id)) as [->|_]; [|apply Hm].
  rewrite (Hm id). lra.
Qed.

Lemma ptsShift_awardIf d p points m m' :
  ptsShift d m m' → ptsShift d (awardIf p points m) (awardIf p points m').
Proof. destruct p as [p|]; simpl; [apply ptsShift_addPoints|done]. Qed.

Lemma ptsShift_awardMapping d b top4Ids mapping m m' :
  ptsShift d m m' →
  ptsShift d (awardMapping b top4Ids m mapping) (awardMapping b top4Ids m' mapping).
Proof.
  intros Hm. unfold awardMapping.
  destruct (list_find _ b) as [[k round]|]; [|done].
  apply ptsShift_foldl; [|done]. clear. intros m m' mt Hm. unfold awardLoser.
  destruct (roundLoser mt) as [loser|]; [|done].
  destruct (decide _); [done|by apply ptsShift_addPoints].
Qed.

(** The points of a competition are the qualification points of the rank
    table and, on top, what the handler gives when nobody has qualified:
    the points of the places and of the rounds. *)
Lemma pointsToAddOf_split prev id :
  pointsOf (pointsToAddOf prev) id
  == rankPointsOf 0 (qualified (competitionParticipants prev)) id
     + pointsOf (pointsToAddOf (setCompetitionParticipants [] prev)) id.
Proof.
  rewrite !pointsToAddOf_folds.
  change (podiumOf (setCompetitionParticipants [] prev)) with (podiumOf prev).
  change (bracket (setCompetitionParticipants [] prev)) with (bracket prev).
  set (d := rankPointsOf 0 (qualified (competitionParticipants prev))).
  assert (ptsShift d
            (pointsAfterQualification (standings prev) (competitionParticipants prev))
            (pointsAfterQualification (standings (setCompetitionParticipants [] prev))
               (competitionParticipants (setCompetitionParticipants [] prev)))) as Hbase.
  { intros x. unfold pointsAfterQualification. cbv zeta.
    rewrite rankPoints_qualificationAwards. simpl. unfold d. lra. }
  rewrite Qplus_comm.
  revert id. fold (ptsShift d).
  apply ptsShift_foldl; [intros; by apply ptsShift_awardMapping|].
  apply ptsShift_foldl; [intros; by apply ptsShift_awardIf|].
  exact Hbase.
Qed.

(** C8. The qualification ranking is the participants of positive score,
    by descending score, ties in input order.  Returning to the
    championship appends to every row of the season table the points of
    the rank table for the ranks held under the row's id, added to what
    the bracket brings (the points of the places and of the rounds, which
    do not depend on the qualification and are 0 for an id that is nowhere
    in the bracket).  For an id held by one participant of the ranking, at
    position [i], the points of the rank table are those of rank [i + 1]:
    12, 10, 8, 6 for ranks 1 to 4, then 4 for 5-6, 3 for 7-8, 2 for 9-12,
    1 for 13-16, 0.5 for 17-24, 0.25 for 25-32 and 0 beyond; for an id
    that is not in the ranking they are 0. *)
Theorem qualification_points_by_rank prev :
  let entrants := competitionParticipants prev in
  let ranking := qualified entrants in
  let bracketPoints := pointsOf (pointsToAddOf (setCompetitionParticipants [] prev)) in
  (ranking ≡ₚ filter qualifies entrants
   ∧ StronglySorted scoreGe ranking
   ∧ ∀ z, filter (λ p, scoreOf p == z) ranking
          = filter (λ p, scoreOf p == z) (filter qualifies entrants))
  ∧ (∀ row, row ∈ standings prev →
       ∃ entry,
         ChampionshipStanding.mk (ChampionshipStanding.id row) (ChampionshipStanding.name row)
           (ChampionshipStanding.pointsPerCompetition row ++ [entry])
         ∈ standings (handleReturnToChampionship prev)
         ∧ entry == rankPointsOf 0 ranking (ChampionshipStanding.id row)
                    + bracketPoints (ChampionshipStanding.id row))
  ∧ (∀ i p, ranking !! i = Some p →
       (∀ j q, ranking !! j = Some q → Participant.id q = Participant.id p → j = i) →
       let rank := (Z.of_nat i + 1)%Z in
       ∃ points,
         rankPointsOf 0 ranking (Participant.id p) == points
         ∧ (rank = 1 → points == 12)%Z
         ∧ (rank = 2 → points == 10)%Z
         ∧ (rank = 3 → points == 8)%Z
         ∧ (rank = 4 → points == 6)%Z
         ∧ (5 ≤ rank ≤ 6 → points == 4)%Z
         ∧ (7 ≤ rank ≤ 8 → points == 3)%Z
         ∧ (9 ≤ rank ≤ 12 → points == 2)%Z
         ∧ (13 ≤ rank ≤ 16 → points == 1)%Z
         ∧ (17 ≤ rank ≤ 24 → points == 1 # 2)%Z
         ∧ (25 ≤ rank ≤ 32 → points == 1 # 4)%Z
         ∧ (32 < rank → points == 0)%Z)
  ∧ (∀ id, id ∉ Participant.id <$> ranking → rankPointsOf 0 ranking id == 0)
  ∧ (∀ id, (0 <= bracketPoints id)%Q)
  ∧ (∀ id,
       (∀ i j m p, lookup2 (bracket prev) i j = Some m →
          isSlotParticipant p m ∨ Match.winner m = Some p → Participant.id p ≠ id) →
       (∀ t p, thirdPlaceMatch prev = Some t →
          isSlotParticipant p t ∨ Match.winner t = Some p → Participant.id p ≠ id) →
       bracketPoints id == 0).
Proof.
  intros entrants ranking bracketPoints.
  split; [|split; [|split; [|split; [|split]]]].
  - unfold ranking, qualified. rewrite <- filter_qualifies.
    split; [apply sortByScoreDesc_perm|].
    split; [apply sortByScoreDesc_sorted|]. intros z. apply sortByScoreDesc_stable.
  - intros row Hrow.
    exists (pointsOf (pointsToAddOf prev) (ChampionshipStanding.id row)).
    split; [|apply pointsToAddOf_split].
    simpl. rewrite sortByTotalDesc_perm. apply list_elem_of_fmap. by exists row.
  - intros i p Hi Honce rank. eexists. split.
    + rewrite (rankPointsOf_once 0 ranking i p Hi Honce). reflexivity.
    + simpl. fold rank.
      assert (1 ≤ rank)%Z as Hrank by (unfold rank; lia).
      unfold qualificationPointsOf.
      repeat split; intros Hr;
        repeat match goal with
          | |- context [(?a =? ?b)%Z] => destruct (Z.eqb_spec a b); try lia
          | |- context [(?a <=? ?b)%Z] => destruct (Z.leb_spec a b); try lia
          end; simpl; reflexivity.
  - intros id. apply rankPointsOf_absent.
  - intros id. unfold bracketPoints. rewrite pointsToAddOf_folds.
    eapply Qle_trans; [|apply ptsLe_roundAwards].
    eapply Qle_trans; [|apply ptsLe_podium, podiumOf_nonneg].
    apply pointsAfterQualification_nonneg.
  - intros id Hbracket Hthird. unfold bracketPoints.
    rewrite tookNoPart_no_points; [reflexivity|].
    split; [|split; [exact Hbracket|exact Hthird]].
    simpl. apply not_elem_of_nil.
Qed.

Lemma qualification_points_by_rank_witness :
  let rows := [ChampionshipStanding.mk 11 "a" []; ChampionshipStanding.mk 12 "b" [];
               ChampionshipStanding.mk 13 "c" []; ChampionshipStanding.mk 14 "d" []] in
  let entrants := [Participant.mk 11 "a" (Some 70%Q) 0; Participant.mk 12 "b" (Some 100%Q) 0;
                   Participant.mk 13 "c" (Some 0%Q) 0; Participant.mk 14 "d" (Some 100%Q) 0] in
  let prev := setCompetitionParticipants entrants (setStandings rows getInitialState) in
  qualified entrants !! 1 = Some (Participant.mk 14 "d" (Some 100%Q) 0)
  ∧ ∃ entry, ChampionshipStanding.mk 14 "d" [entry]
             ∈ standings (handleReturnToChampionship prev)
             ∧ entry == 10.
Proof.
  intros rows entrants prev.
  assert (qualified entrants !! 1 = Some (Participant.mk 14 "d" (Some 100%Q) 0)) as Hi
    by (vm_compute; reflexivity).
  split; [exact Hi|].
  destruct (qualification_points_by_rank prev)
    as (_ & Hrows & Hrank & _ & _ & Hnone).
  destruct (Hrows (ChampionshipStanding.mk 14 "d" []))
    as (entry & Hentry & Hsum).
  { unfold prev, rows. simpl. rewrite !elem_of_cons. auto. }
  exists entry. split; [exact Hentry|].
  destruct (Hrank 1 (Participant.mk 14 "d" (Some 100%Q) 0) Hi)
    as (points & Hpoints & _ & H2 & _).
  { intros j q Hj Hq.
    destruct j as [|[|[|[|]]]]; vm_compute in Hj; try discriminate Hj;
      injection Hj as <-; first [reflexivity|discriminate Hq]. }
  simpl in Hsum, Hpoints. rewrite Hsum, Hpoints, (H2 eq_refl), Hnone; [reflexivity| |].
  - intros i j m p Hm. apply lookup2_Some in Hm as (round & Hround & _). done.
  - intros t p Ht. done.
Defined.

(** * The session store *)

Lemma firstSession_Some sessionId db pos session :
  firstSession sessionId db = Some (pos, session) →
  sessions db !! pos = Some session ∧ Session.sessionId session = sessionId.
Proof. intros Hfirst. apply list_find_Some in Hfirst as (? & ? & _). done. Qed.

(** A patch of the first document of a session, which keeps its session id,
    is read back under that id and leaves every other session as it was. *)
Lemma firstSession_patched f sessionId pos session db regs sessionId2 :
  firstSession sessionId db = Some (pos, session) →
  (∀ s, Session.sessionId (f s) = Session.sessionId s) →
  firstSession sessionId2 (mkDatabase (alter f pos (sessions db)) regs)
  = if decide (sessionId2 = sessionId) then Some (pos, f session)
    else firstSession sessionId2 db.
Proof.
  intros Hfirst Hf. unfold firstSession in *. simpl.
  rewrite list_find_alter by (intros s; by rewrite Hf).
  destruct (decide (sessionId2 = sessionId)) as [->|Hne].
  - rewrite Hfirst. cbn [fmap option_fmap option_map]. by rewrite decide_True.
  - destruct (list_find (λ s, Session.sessionId s = sessionId2) (sessions db))
      as [[k x]|] eqn:Hfind; [|done].
    cbn [fmap option_fmap option_map].
    rewrite decide_False; [done|]. intros ->.
    apply list_find_Some in Hfind as (Hk & Hx & _).
    apply list_find_Some in Hfirst as (Hpos & Hs & _). congruence.
Qed.

Lemma getSessionWithSecret_patched f sessionId pos session db regs sessionId2 :
  firstSession sessionId db = Some (pos, session) →
  (∀ s, Session.sessionId (f s) = Session.sessionId s) →
  getSessionWithSecret sessionId2 (mkDatabase (alter f pos (sessions db)) regs)
  = if decide (sessionId2 = sessionId) then Some (f session)
    else getSessionWithSecret sessionId2 db.
Proof.
  intros Hfirst Hf. unfold getSessionWithSecret.
  rewrite (firstSession_patched f sessionId pos session) by done.
  by destruct (decide _).
Qed.

Lemma getSession_getSessionWithSecret sessionId db :
  getSession sessionId db = publicSessionOf <$> getSessionWithSecret sessionId db.
Proof.
  unfold getSession, getSessionWithSecret.
  by destruct (firstSession sessionId db) as [[pos session]|].
Qed.

(** X15. Creating a session never fails and returns the admin secret that
    is stored for the session id afterwards.  If the id exists already, the
    store is left as it is and the existing secret is returned, whatever
    secret was generated; if not, the new session is in the initial state.
    Any later creation under the same id returns the same secret; the other
    sessions and the registration records are untouched. *)
Theorem createSession_returns_the_stored_secret _id _creationTime now secret sessionId db :
  ∃ adminSecret db',
    createSession _id _creationTime now secret sessionId db
    = Returned (sessionId, adminSecret) db'
    ∧ (∃ full, getSessionWithSecret sessionId db' = Some full
               ∧ Session.adminSecret full = adminSecret)
    ∧ (∀ full, getSessionWithSecret sessionId db = Some full →
               adminSecret = Session.adminSecret full ∧ db' = db)
    ∧ (getSessionWithSecret sessionId db = None →
       adminSecret = secret
       ∧ getSession sessionId db'
         = Some (PublicSession.mk _id _creationTime sessionId getInitialState now now))
    ∧ (∀ _id2 _creationTime2 now2 secret2,
         createSession _id2 _creationTime2 now2 secret2 sessionId db'
         = Returned (sessionId, adminSecret) db')
    ∧ (∀ sessionId2, sessionId2 ≠ sessionId →
         getSessionWithSecret sessionId2 db' = getSessionWithSecret sessionId2 db)
    ∧ registrations db' = registrations db.
Proof.
  unfold createSession, getSessionWithSecret.
  destruct (firstSession sessionId db) as [[pos existing]|] eqn:Hfirst.
  - exists (Session.adminSecret existing), db. simpl.
    split; [done|]. split; [rewrite Hfirst; exists existing; split; reflexivity|]. split; [by intros full [= <-]|].
    split; [done|]. split; [|done]. intros. by rewrite Hfirst.
  - set (new := Session.mk _id _creationTime sessionId secret _ now now).
    exists secret, (mkDatabase (sessions db ++ [new]) (registrations db)).
    assert (firstSession sessionId (mkDatabase (sessions db ++ [new]) (registrations db))
            = Some (length (sessions db), new)) as Hnew.
    { unfold firstSession in *. simpl. apply list_find_Some.
      apply list_find_None in Hfirst. rewrite Forall_forall in Hfirst.
      split; [by rewrite lookup_app_r, Nat.sub_diag by lia|]. split; [done|].
      intros j y Hj Hlt. rewrite lookup_app_l in Hj by done.
      apply Hfirst. by apply list_elem_of_lookup_2 with j. }
    split; [done|]. split; [rewrite Hnew; exists new; split; reflexivity|]. split; [done|].
    split; [|split; [|split; [|done]]].
    + intros _. split; [done|]. unfold getSession. by rewrite Hnew.
    + intros. by rewrite Hnew.
    + intros sessionId2 Hne. unfold firstSession. simpl. f_equal.
      destruct (list_find _ (sessions db)) as [[k x]|] eqn:Hfind.
      * apply list_find_Some. apply list_find_Some in Hfind as (Hk & Hx & Hbefore).
        split; [by apply lookup_app_l_Some|]. split; [done|].
        intros j y Hj Hlt. apply (Hbefore j y); [|done].
        apply lookup_lt_Some in Hk. by rewrite lookup_app_l in Hj by lia.
      * apply list_find_None. apply list_find_None in Hfind.
        apply Forall_app. split; [done|]. constructor; [|constructor].
        simpl. congruence.
Qed.

Lemma updateSessionState_returned now sessionId adminSecret state db :
  ((∃ db', updateSessionState now sessionId adminSecret state db = Returned tt db')
   ↔ ∃ full, getSessionWithSecret sessionId db = Some full
             ∧ Session.adminSecret full = adminSecret)
  ∧ ∀ db', updateSessionState now sessionId adminSecret state db = Returned tt db' →
      (∃ full full',
          getSessionWithSecret sessionId db = Some full
          ∧ getSessionWithSecret sessionId db' = Some full'
          ∧ Session.state full' = state
          ∧ Session.updatedAt full' = now
          ∧ Session.adminSecret full' = Session.adminSecret full
          ∧ Session._id full' = Session._id full
          ∧ Session.createdAt full' = Session.createdAt full)
      ∧ PublicSession.state <$> getSession sessionId db' = Some state
      ∧ (∀ sessionId2, sessionId2 ≠ sessionId →
           getSessionWithSecret sessionId2 db' = getSessionWithSecret sessionId2 db)
      ∧ registrations db' = registrations db.
Proof.
  unfold updateSessionState.
  destruct (firstSession sessionId db) as [[pos session]|] eqn:Hfirst.
  2: { unfold getSessionWithSecret. rewrite Hfirst. split; [|done].
       split; [by intros [db' ?]|by intros (full & ? & _)]. }
  assert (getSessionWithSecret sessionId db = Some session) as Hget.
  { unfold getSessionWithSecret. by rewrite Hfirst. }
  rewrite Hget.
  destruct (decide (Session.adminSecret session = adminSecret)) as [Hsecret|Hsecret].
  - split; [split; eauto|]. intros db' [= <-].
    assert (∀ sessionId2,
              getSessionWithSecret sessionId2
                (mkDatabase (alter (patchState state now) pos (sessions db)) (registrations db))
              = if decide (sessionId2 = sessionId) then Some (patchState state now session)
                else getSessionWithSecret sessionId2 db) as Hpatched.
    { intros sessionId2. by apply getSessionWithSecret_patched. }
    split; [|split; [|split; [|done]]].
    + exists session, (patchState state now session). split; [done|].
      split; [|done]. by rewrite Hpatched, decide_True.
    + by rewrite getSession_getSessionWithSecret, Hpatched, decide_True.
    + intros sessionId2 Hne. by rewrite Hpatched, decide_False.
  - split; [|done]. split; [by intros [db' ?]|].
    intros (full & [= <-] & Heq). done.
Qed.

(** X16. A state update goes through exactly when the session exists and
    the secret offered is the stored one.  It is then read back: the session
    holds the state passed and the time of the update, with its id, secret
    and creation time as before; the other sessions and the registration
    records are untouched. *)
Theorem updateSessionState_authorized_round_trip now sessionId adminSecret state db :
  ((∃ db', updateSessionState now sessionId adminSecret state db = Returned tt db')
   ↔ ∃ full, getSessionWithSecret sessionId db = Some full
             ∧ Session.adminSecret full = adminSecret)
  ∧ ∀ db', updateSessionState now sessionId adminSecret state db = Returned tt db' →
      (∃ full full',
          getSessionWithSecret sessionId db = Some full
          ∧ getSessionWithSecret sessionId db' = Some full'
          ∧ Session.state full' = state
          ∧ Session.updatedAt full' = now
          ∧ Session.adminSecret full' = Session.adminSecret full
          ∧ Session._id full' = Session._id full
          ∧ Session.createdAt full' = Session.createdAt full)
      ∧ PublicSession.state <$> getSession sessionId db' = Some state
      ∧ (∀ sessionId2, sessionId2 ≠ sessionId →
           getSessionWithSecret sessionId2 db' = getSessionWithSecret sessionId2 db)
      ∧ registrations db' = registrations db.
Proof. apply updateSessionState_returned. Qed.

Lemma updateSessionState_authorized_round_trip_witness :
  let db := mkDatabase [Session.mk 7 1 "dmec-1" "k3x9" getInitialState 1 2] [] in
  let state := handleStartCompetition getInitialState in
  ∃ db', updateSessionState 5 "dmec-1" "k3x9" state db = Returned tt db'
         ∧ PublicSession.state <$> getSession "dmec-1" db' = Some state.
Proof.
  intros db state.
  destruct (updateSessionState_authorized_round_trip 5 "dmec-1" "k3x9" state db)
    as [Hiff Hback].
  destruct (proj2 Hiff) as [db' Hdb'].
  { exists (Session.mk 7 1 "dmec-1" "k3x9" getInitialState 1 2).
    split; reflexivity. }
  exists db'. split; [exact Hdb'|].
  exact (proj1 (proj2 (Hback db' Hdb'))).
Defined.

Lemma createSession_returns_the_stored_secret_witness :
  ∃ db1, createSession 7 1 2 "k3x9" "dmec-1" (mkDatabase [] []) = Returned ("dmec-1", "k3x9") db1
         ∧ createSession 8 3 4 "q0v4" "dmec-1" db1 = Returned ("dmec-1", "k3x9") db1.
Proof.
  destruct (createSession_returns_the_stored_secret 7 1 2 "k3x9" "dmec-1" (mkDatabase [] []))
    as (adminSecret & db1 & Hcreate & _ & _ & Hnew & Hagain & _).
  destruct Hnew as [-> _]; [reflexivity|].
  exists db1. split; [exact Hcreate|]. exact (Hagain 8%Z 3%Z 4%Z "q0v4").
Defined.

(** ** Registrations in the store *)

Lemma existsb_standing_name nameLower (l : list ChampionshipStanding.t) :
  existsb (λ p, bool_decide (toLowerCase (ChampionshipStanding.name p) = nameLower)) l = true
  ↔ ∃ p, p ∈ l ∧ toLowerCase (ChampionshipStanding.name p) = nameLower.
Proof.
  rewrite existsb_exists. split; intros (p & Hp & Hname); exists p.
  - split; [by apply list_elem_of_In|by apply bool_decide_eq_true in Hname].
  - split; [by apply list_elem_of_In|by apply bool_decide_eq_true].
Qed.

Lemma getPendingRegistrations_app sessionId sessions1 sessions2 regs r :
  getPendingRegistrations sessionId (mkDatabase sessions1 (regs ++ [r]))
  = (getPendingRegistrations sessionId (mkDatabase sessions2 regs)
     ++ (if decide (Registration.sessionId r = sessionId ∧ Registration.processed r = false)
         then [r] else []))%list.
Proof.
  unfold getPendingRegistrations. simpl. rewrite filter_app. f_equal.
Qed.

Lemma zeros_Some n z :
  zeros n = Some z ↔ ((0 ≤ n < 2 ^ 32)%Z ∧ z = replicate (Z.to_nat n) 0%Q).
Proof.
  unfold zeros.
  destruct (Z.leb_spec 0 n), (Z.ltb_spec n (2 ^ 32)); simpl; split;
    try (intros [= <-]; split; [lia|done]); try done;
    try (intros [? ->]; first [done|lia]).
Qed.

Lemma registerParticipant_returned now sessionId name db participantId
    returnedName db' :
  registerParticipant now sessionId name db = Returned (participantId, returnedName) db' →
  participantId = now ∧ returnedName = trim name
  ∧ (∃ full full',
       getSessionWithSecret sessionId db = Some full
       ∧ getSessionWithSecret sessionId db' = Some full'
       ∧ standings (Session.state full')
         = (standings (Session.state full)
            ++ [ChampionshipStanding.mk now (trim name)
                  (replicate (Z.to_nat (competitionsHeld (Session.state full))) 0%Q)])%list
       ∧ Session.state full' = setStandings (standings (Session.state full')) (Session.state full)
       ∧ Session.adminSecret full' = Session.adminSecret full
       ∧ (standingsInSync (Session.state full) → standingsInSync (Session.state full'))
       ∧ ∀ p, p ∈ standings (Session.state full) →
              toLowerCase (ChampionshipStanding.name p) ≠ trim (toLowerCase name))
  ∧ getPendingRegistrations sessionId db'
    = (getPendingRegistrations sessionId db
       ++ [Registration.mk sessionId now (trim name) now false])%list
  ∧ (∀ sessionId2, sessionId2 ≠ sessionId →
       getSessionWithSecret sessionId2 db' = getSessionWithSecret sessionId2 db
       ∧ getPendingRegistrations sessionId2 db' = getPendingRegistrations sessionId2 db).
Proof.
  unfold registerParticipant.
  destruct (firstSession sessionId db) as [[pos session]|] eqn:Hfirst; [|done].
  cbv zeta.
  destruct (existsb _ (standings (Session.state session))) eqn:Hdup; [done|].
  destruct (list_find _ (registrations db)) as [[k r]|]; [done|].
  destruct (zeros (competitionsHeld (Session.state session))) as [z|] eqn:Hz; [|done].
  apply zeros_Some in Hz as [Hheld ->].
  intros [= <- <- <-].
  set (new := ChampionshipStanding.mk now (trim name) _).
  set (f := patchStandings (standings (Session.state session) ++ [new]) now).
  assert (∀ sessionId2,
            getSessionWithSecret sessionId2
              (mkDatabase (alter f pos (sessions db))
                 (registrations db ++ [Registration.mk sessionId now (trim name) now false]))
            = if decide (sessionId2 = sessionId) then Some (f session)
              else getSessionWithSecret sessionId2 db) as Hpatched.
  { intros sessionId2. by apply getSessionWithSecret_patched. }
  split; [done|]. split; [done|]. split; [|split].
  - exists session, (f session).
    split; [unfold getSessionWithSecret; by rewrite Hfirst|].
    split; [by rewrite Hpatched, decide_True|].
    split; [done|]. split; [done|]. split; [done|]. split.
    + intros [Hpos Hrows]. split; [done|].
      intros row Hrow. simpl in Hrow. apply elem_of_app in Hrow as [Hrow|Hrow].
      * by apply Hrows.
      * apply list_elem_of_singleton in Hrow as ->. simpl.
        rewrite length_replicate. lia.
    + intros p Hp Hname. apply not_true_iff_false in Hdup. apply Hdup.
      apply existsb_standing_name. by exists p.
  - rewrite (getPendingRegistrations_app _ _ (sessions db)).
    rewrite decide_True by done. by destruct db.
  - intros sessionId2 Hne. split; [by rewrite Hpatched, decide_False|].
    rewrite (getPendingRegistrations_app _ _ (sessions db)).
    rewrite decide_False by (simpl; intros [? _]; congruence).
    rewrite app_nil_r. by destruct db.
Qed.

(** X17. A registration that goes through returns the time of the call as
    the participant id and the trimmed name.  The session then has one more
    row at the end of its standings, with that id and name and a zero for
    every competition held, and nothing else of its state is changed; one
    unprocessed registration record is added, which the pending query of
    the session returns last.  No row of the standings had a name whose
    lower-case form is the lower-cased and trimmed name submitted; the other
    sessions and their pending registrations are untouched. *)
Theorem registerParticipant_adds_row_and_record now sessionId name db participantId
    returnedName db' :
  registerParticipant now sessionId name db = Returned (participantId, returnedName) db' →
  participantId = now ∧ returnedName = trim name
  ∧ (∃ full full',
       getSessionWithSecret sessionId db = Some full
       ∧ getSessionWithSecret sessionId db' = Some full'
       ∧ standings (Session.state full')
         = (standings (Session.state full)
            ++ [ChampionshipStanding.mk now (trim name)
                  (replicate (Z.to_nat (competitionsHeld (Session.state full))) 0%Q)])%list
       ∧ Session.state full' = setStandings (standings (Session.state full')) (Session.state full)
       ∧ Session.adminSecret full' = Session.adminSecret full
       ∧ (standingsInSync (Session.state full) → standingsInSync (Session.state full'))
       ∧ ∀ p, p ∈ standings (Session.state full) →
              toLowerCase (ChampionshipStanding.name p) ≠ trim (toLowerCase name))
  ∧ getPendingRegistrations sessionId db'
    = (getPendingRegistrations sessionId db
       ++ [Registration.mk sessionId now (trim name) now false])%list
  ∧ (∀ sessionId2, sessionId2 ≠ sessionId →
       getSessionWithSecret sessionId2 db' = getSessionWithSecret sessionId2 db
       ∧ getPendingRegistrations sessionId2 db' = getPendingRegistrations sessionId2 db).
Proof. apply registerParticipant_returned. Qed.

Lemma registerParticipant_adds_row_and_record_witness :
  let db := mkDatabase [Session.mk 7 1 "dmec-1" "k3x9" getInitialState 1 2] [] in
  ∃ db', registerParticipant 5 "dmec-1" " Mari " db = Returned (5%Z, "Mari") db'
         ∧ getPendingRegistrations "dmec-1" db' = [Registration.mk "dmec-1" 5 "Mari" 5 false].
Proof.
  intros db.
  assert (∃ db', registerParticipant 5 "dmec-1" " Mari " db = Returned (5%Z, "Mari") db')
    as [db' Hdb'] by (eexists; vm_compute; reflexivity).
  exists db'. split; [exact Hdb'|].
  exact (proj1 (proj2 (proj2 (proj2
           (registerParticipant_adds_row_and_record 5 "dmec-1" " Mari " db 5 "Mari" db' Hdb'))))).
Defined.

(** X18. Once a registration has gone through, every further registration
    in the session under a name that, lower-cased and trimmed, is the
    lower-case form of the registered name is refused, and so is adding
    such a name by the admin. *)
Theorem registered_name_blocks_its_variants now sessionId name db result db' now2 name2 :
  registerParticipant now sessionId name db = Returned result db' →
  trim (toLowerCase name2) = toLowerCase (trim name) →
  registerParticipant now2 sessionId name2 db' = Thrown ALREADY_REGISTERED
  ∧ ∀ adminSecret, ∃ message,
      addParticipant now2 sessionId adminSecret name2 db' = Thrown message.
Proof.
  intros Hreg Hname. destruct result as [participantId returnedName].
  destruct (registerParticipant_returned _ _ _ _ _ _ _ Hreg)
    as (_ & _ & (full & full' & _ & Hfull' & Hst & _) & _).
  unfold getSessionWithSecret in Hfull'.
  destruct (firstSession sessionId db') as [[pos' session']|] eqn:Hfirst'; [|done].
  injection Hfull' as ->.
  set (row := ChampionshipStanding.mk now (trim name)
                (replicate (Z.to_nat (competitionsHeld (Session.state full))) 0%Q)) in *.
  assert (existsb (λ p, bool_decide (toLowerCase (ChampionshipStanding.name p)
                                     = trim (toLowerCase name2)))
            (standings (Session.state full')) = true) as Hdup.
  { apply existsb_standing_name. exists row. split.
    - rewrite Hst. apply elem_of_app. right. by apply list_elem_of_singleton.
    - done. }
  split.
  - apply registerParticipant_standings_duplicate with pos' full' row; [done| |].
    + rewrite Hst. apply elem_of_app. right. by apply list_elem_of_singleton.
    + done.
  - intros adminSecret. unfold addParticipant. rewrite Hfirst'. cbv zeta.
    destruct (decide _); [|eauto]. rewrite Hdup. eauto.
Qed.

Lemma registered_name_blocks_its_variants_witness :
  let db := mkDatabase [Session.mk 7 1 "dmec-1" "k3x9" getInitialState 1 2] [] in
  let variant := stringOfCodePoints [0x00A0]%Z ++ " ÜLLE õun " in
  ∃ db', registerParticipant 5 "dmec-1" "Ülle Õun" db = Returned (5%Z, "Ülle Õun") db'
         ∧ registerParticipant 6 "dmec-1" variant db' = Thrown ALREADY_REGISTERED.
Proof.
  intros db variant.
  assert (∃ db', registerParticipant 5 "dmec-1" "Ülle Õun" db
                 = Returned (5%Z, "Ülle Õun") db')
    as [db' Hdb'] by (eexists; vm_compute; reflexivity).
  exists db'. split; [exact Hdb'|].
  apply (registered_name_blocks_its_variants 5 "dmec-1" "Ülle Õun" db (5%Z, "Ülle Õun") db' 6
           variant Hdb').
  vm_compute. reflexivity.
Defined.

(** ** Adding and removing rows *)

Lemma setStandings_same s l : l = standings s → setStandings l s = s.
Proof. intros ->. by destruct s. Qed.

Lemma filter_all {A} (P : A → Prop) `{!∀ x, Decision (P x)} (l : list A) :
  (∀ x, x ∈ l → P x) → filter P l = l.
Proof.
  induction l as [|x l IH]; intros Hall; [done|].
  rewrite filter_cons, decide_True by (apply Hall; constructor).
  f_equal. apply IH. intros y Hy. apply Hall. by constructor.
Qed.

Lemma removeParticipant_returned now sessionId adminSecret participantId
    db db' :
  removeParticipant now sessionId adminSecret participantId db = Returned tt db' →
  (∃ full full',
      getSessionWithSecret sessionId db = Some full
      ∧ Session.adminSecret full = adminSecret
      ∧ getSessionWithSecret sessionId db' = Some full'
      ∧ (∀ p, p ∈ standings (Session.state full')
              ↔ p ∈ standings (Session.state full) ∧ ChampionshipStanding.id p ≠ participantId)
      ∧ standings (Session.state full') `sublist_of` standings (Session.state full)
      ∧ Session.state full' = setStandings (standings (Session.state full')) (Session.state full)
      ∧ ∀ now2 db'',
          removeParticipant now2 sessionId adminSecret participantId db' = Returned tt db'' →
          ∃ full'', getSessionWithSecret sessionId db'' = Some full''
                    ∧ Session.state full'' = Session.state full')
  ∧ registrations db' = registrations db
  ∧ (∀ sessionId2, sessionId2 ≠ sessionId →
       getSessionWithSecret sessionId2 db' = getSessionWithSecret sessionId2 db).
Proof.
  unfold removeParticipant at 1.
  destruct (firstSession sessionId db) as [[pos session]|] eqn:Hfirst; [|done].
  destruct (decide (Session.adminSecret session = adminSecret)) as [Hsecret|]; [|done].
  intros [= <-].
  set (kept := filter (λ p, ChampionshipStanding.id p ≠ participantId)
                 (standings (Session.state session))).
  assert (∀ sessionId2,
            getSessionWithSecret sessionId2
              (mkDatabase (alter (patchStandings kept now) pos (sessions db)) (registrations db))
            = if decide (sessionId2 = sessionId) then Some (patchStandings kept now session)
              else getSessionWithSecret sessionId2 db) as Hpatched.
  { intros sessionId2. by apply getSessionWithSecret_patched. }
  split; [|split; [done|]].
  - exists session, (patchStandings kept now session).
    split; [unfold getSessionWithSecret; by rewrite Hfirst|]. split; [done|].
    split; [by rewrite Hpatched, decide_True|].
    split; [intros p; simpl; unfold kept; rewrite list_elem_of_filter; tauto|].
    split; [apply sublist_filter|]. split; [done|].
    intros now2 db''. unfold removeParticipant.
    assert (firstSession sessionId
              (mkDatabase (alter (patchStandings kept now) pos (sessions db)) (registrations db))
            = Some (pos, patchStandings kept now session)) as Hfirst1.
    { rewrite (firstSession_patched _ sessionId pos session) by done.
      by rewrite decide_True. }
    rewrite Hfirst1.
    rewrite decide_True by done. intros [= <-].
    exists (patchStandings (filter (λ p, ChampionshipStanding.id p ≠ participantId) kept) now2
              (patchStandings kept now session)).
    split.
    + pose proof (getSessionWithSecret_patched
                    (patchStandings
                       (filter (λ p, ChampionshipStanding.id p ≠ participantId) kept) now2)
                    sessionId pos _ _ (registrations db) sessionId Hfirst1 (λ _, eq_refl))
        as Hget.
      rewrite decide_True in Hget by done. exact Hget.
    + simpl. rewrite (filter_all _ kept); [done|].
      intros p Hp. unfold kept in Hp. by apply list_elem_of_filter in Hp as [? _].
  - intros sessionId2 Hne. by rewrite Hpatched, decide_False.
Qed.

(** X19. Removing, with the admin secret, deletes from the standings of the
    session exactly the rows with the given id and keeps the others in
    their order; the rest of the session's state, the registration records
    and the other sessions are untouched, and a second removal of the same
    id finds nothing to delete. *)
Theorem removeParticipant_deletes_the_rows_of_the_id now sessionId adminSecret participantId
    db db' :
  removeParticipant now sessionId adminSecret participantId db = Returned tt db' →
  (∃ full full',
      getSessionWithSecret sessionId db = Some full
      ∧ Session.adminSecret full = adminSecret
      ∧ getSessionWithSecret sessionId db' = Some full'
      ∧ (∀ p, p ∈ standings (Session.state full')
              ↔ p ∈ standings (Session.state full) ∧ ChampionshipStanding.id p ≠ participantId)
      ∧ standings (Session.state full') `sublist_of` standings (Session.state full)
      ∧ Session.state full' = setStandings (standings (Session.state full')) (Session.state full)
      ∧ ∀ now2 db'',
          removeParticipant now2 sessionId adminSecret participantId db' = Returned tt db'' →
          ∃ full'', getSessionWithSecret sessionId db'' = Some full''
                    ∧ Session.state full'' = Session.state full')
  ∧ registrations db' = registrations db
  ∧ (∀ sessionId2, sessionId2 ≠ sessionId →
       getSessionWithSecret sessionId2 db' = getSessionWithSecret sessionId2 db).
Proof. apply removeParticipant_returned. Qed.

Lemma removeParticipant_deletes_the_rows_of_the_id_witness :
  let state := setStandings [ChampionshipStanding.mk 5 "Mari" []; ChampionshipStanding.mk 6 "Jaan" []]
                 getInitialState in
  let db := mkDatabase [Session.mk 7 1 "dmec-1" "k3x9" state 1 2] [] in
  ∃ db', removeParticipant 9 "dmec-1" "k3x9" 5 db = Returned tt db'
         ∧ registrations db' = [].
Proof.
  intros state db.
  assert (∃ db', removeParticipant 9 "dmec-1" "k3x9" 5 db = Returned tt db')
    as [db' Hdb'] by (eexists; vm_compute; reflexivity).
  exists db'. split; [exact Hdb'|].
  exact (proj1 (proj2
           (removeParticipant_deletes_the_rows_of_the_id 9 "dmec-1" "k3x9" 5 db db' Hdb'))).
Defined.

(** X20. A row added by the admin, under an id that no row of the session
    has yet, is taken out again by removing that id: the state of the
    session is then what it was before the addition, as are the
    registration records and the other sessions. *)
Theorem addParticipant_then_removeParticipant now sessionId adminSecret name db row db1 now2 :
  addParticipant now sessionId adminSecret name db = Returned row db1 →
  (∀ full p, getSessionWithSecret sessionId db = Some full →
             p ∈ standings (Session.state full) → ChampionshipStanding.id p ≠ now) →
  ChampionshipStanding.id row = now
  ∧ ChampionshipStanding.name row = trim name
  ∧ ∃ db2,
      removeParticipant now2 sessionId adminSecret (ChampionshipStanding.id row) db1
      = Returned tt db2
      ∧ (∃ full full2,
            getSessionWithSecret sessionId db = Some full
            ∧ getSessionWithSecret sessionId db2 = Some full2
            ∧ Session.state full2 = Session.state full
            ∧ Session.adminSecret full2 = Session.adminSecret full)
      ∧ registrations db2 = registrations db
      ∧ (∀ sessionId2, sessionId2 ≠ sessionId →
           getSessionWithSecret sessionId2 db2 = getSessionWithSecret sessionId2 db).
Proof.
  unfold addParticipant.
  destruct (firstSession sessionId db) as [[pos session]|] eqn:Hfirst; [|done].
  destruct (decide (Session.adminSecret session = adminSecret)) as [Hsecret|]; [|done].
  cbv zeta. destruct (existsb _ _); [done|].
  destruct (zeros (competitionsHeld (Session.state session))) as [z|]; [|done].
  intros [= <- <-] Hfresh. split; [done|]. split; [done|].
  set (row := ChampionshipStanding.mk now (trim name) _).
  set (f := patchStandings (standings (Session.state session) ++ [row]) now).
  assert (firstSession sessionId (mkDatabase (alter f pos (sessions db)) (registrations db))
          = Some (pos, f session)) as Hfirst1.
  { rewrite (firstSession_patched f sessionId pos session) by done. by rewrite decide_True. }
  unfold removeParticipant. rewrite Hfirst1.
  rewrite decide_True by done. eexists. split; [done|].
  assert (filter (λ p, ChampionshipStanding.id p ≠ ChampionshipStanding.id row)
            (standings (Session.state (f session)))
          = standings (Session.state session)) as Hkept.
  { simpl. rewrite filter_app, filter_cons, decide_False, filter_nil, app_nil_r by tauto.
    apply filter_all. intros p Hp. apply (Hfresh session p); [|done].
    unfold getSessionWithSecret. by rewrite Hfirst. }
  rewrite Hkept.
  pose proof (λ sessionId2,
                getSessionWithSecret_patched
                  (patchStandings (standings (Session.state session)) now2)
                  sessionId pos _ _ (registrations db) sessionId2 Hfirst1 (λ _, eq_refl))
    as Hget2.
  split; [|split; [done|]].
  - exists session, (patchStandings (standings (Session.state session)) now2 (f session)).
    split; [unfold getSessionWithSecret; by rewrite Hfirst|].
    split.
    + specialize (Hget2 sessionId). rewrite decide_True in Hget2 by done. exact Hget2.
    + split; [|done].
      change (setStandings (standings (Session.state session)) (Session.state session)
              = Session.state session).
      by apply setStandings_same.
  - intros sessionId2 Hne.
    specialize (Hget2 sessionId2). rewrite decide_False in Hget2 by done.
    etrans; [exact Hget2|].
    rewrite (getSessionWithSecret_patched f sessionId pos session) by done.
    by rewrite decide_False.
Qed.

Lemma addParticipant_then_removeParticipant_witness :
  let db := mkDatabase [Session.mk 7 1 "dmec-1" "k3x9" getInitialState 1 2] [] in
  ∃ row db1, addParticipant 5 "dmec-1" "k3x9" " Mari" db = Returned row db1
             ∧ ChampionshipStanding.name row = "Mari".
Proof.
  intros db.
  assert (∃ row db1, addParticipant 5 "dmec-1" "k3x9" " Mari" db = Returned row db1)
    as (row & db1 & Hadd) by (do 2 eexists; vm_compute; reflexivity).
  exists row, db1. split; [exact Hadd|].
  destruct (addParticipant_then_removeParticipant 5 "dmec-1" "k3x9" " Mari" db row db1 6 Hadd)
    as (_ & Hname & _).
  - intros full p Hfull Hp. vm_compute in Hfull. injection Hfull as <-.
    simpl in Hp. by apply elem_of_nil in Hp.
  - exact Hname.
Defined.

(** X21. The registration record outlives the row: after a registration
    and any removal in the session by the admin, a registration under the
    same name, up to surrounding white space, is refused. *)
Theorem removed_name_cannot_register_again now sessionId name db result db1
    now2 adminSecret participantId db2 now3 name3 :
  registerParticipant now sessionId name db = Returned result db1 →
  removeParticipant now2 sessionId adminSecret participantId db1 = Returned tt db2 →
  trim name3 = trim name →
  registerParticipant now3 sessionId name3 db2 = Thrown ALREADY_REGISTERED.
Proof.
  intros Hreg Hrem Hname. destruct result as [pid returnedName].
  destruct (registerParticipant_returned _ _ _ _ _ _ _ Hreg)
    as (_ & _ & _ & Hpending & _).
  destruct (removeParticipant_returned _ _ _ _ _ _ Hrem)
    as ((_ & full' & _ & _ & Hfull' & _) & Hregs & _).
  unfold getSessionWithSecret in Hfull'.
  destruct (firstSession sessionId db2) as [[pos session]|] eqn:Hfirst; [|done].
  apply registerParticipant_pending_duplicate
    with pos session (Registration.mk sessionId now (trim name) now false); [done| |done|done].
  rewrite Hregs.
  assert (Registration.mk sessionId now (trim name) now false
          ∈ getPendingRegistrations sessionId db1) as Hin.
  { rewrite Hpending. apply elem_of_app. right. by apply list_elem_of_singleton. }
  unfold getPendingRegistrations in Hin. by apply list_elem_of_filter in Hin as [_ ?].
Qed.

Lemma removed_name_cannot_register_again_witness :
  let db := mkDatabase [Session.mk 7 1 "dmec-1" "k3x9" getInitialState 1 2] [] in
  ∃ db1 db2,
    registerParticipant 5 "dmec-1" "Mari" db = Returned (5%Z, "Mari") db1
    ∧ removeParticipant 6 "dmec-1" "k3x9" 5 db1 = Returned tt db2
    ∧ registerParticipant 8 "dmec-1" " Mari " db2 = Thrown ALREADY_REGISTERED.
Proof.
  intros db.
  assert (∃ db1, registerParticipant 5 "dmec-1" "Mari" db = Returned (5%Z, "Mari") db1)
    as [db1 Hdb1] by (eexists; vm_compute; reflexivity).
  assert (∃ db2, removeParticipant 6 "dmec-1" "k3x9" 5 db1 = Returned tt db2) as [db2 Hdb2].
  { revert Hdb1. vm_compute. intros [= <-]. eexists. reflexivity. }
  exists db1, db2. split; [exact Hdb1|]. split; [exact Hdb2|].
  apply (removed_name_cannot_register_again 5 "dmec-1" "Mari" db (5%Z, "Mari") db1
           6 "k3x9" 5 db2 8 " Mari " Hdb1 Hdb2).
  vm_compute. reflexivity.
Defined.

(** * Registrations in the local state *)

Lemma copyStanding_id p : copyStanding p = p.
Proof. by destruct p. Qed.

Lemma newParticipantsOf_elem convexStandings localStandings p :
  p ∈ newParticipantsOf convexStandings localStandings
  ↔ p ∈ convexStandings
    ∧ ChampionshipStanding.id p ∉ ChampionshipStanding.id <$> localStandings.
Proof.
  unfold newParticipantsOf. cbv zeta. rewrite list_elem_of_filter, elem_of_list_to_set. tauto.
Qed.

Lemma newParticipantsOf_nil convexStandings localStandings :
  (∀ p, p ∈ convexStandings →
        ChampionshipStanding.id p ∈ ChampionshipStanding.id <$> localStandings) →
  newParticipantsOf convexStandings localStandings = [].
Proof.
  intros Hall. destruct (newParticipantsOf _ _) as [|p l] eqn:Hnew; [done|]. exfalso.
  assert (p ∈ newParticipantsOf convexStandings localStandings) as Hp
    by (rewrite Hnew; constructor).
  apply newParticipantsOf_elem in Hp as [Hp Hnot]. by apply Hnot, Hall.
Qed.

Lemma syncRegistrations_standings convexSession sessionId adminSecret s :
  syncRegistrations convexSession sessionId adminSecret s s
  = setStandings
      (standings s
       ++ match convexSession with
          | Some session =>
              if truthy sessionId && truthy adminSecret
              then newParticipantsOf (standings (PublicSession.state session)) (standings s)
              else []
          | None => []
          end) s.
Proof.
  unfold syncRegistrations. destruct convexSession as [session|].
  2: { rewrite app_nil_r. symmetry. by apply setStandings_same. }
  destruct (truthy sessionId && truthy adminSecret).
  2: { rewrite app_nil_r. symmetry. by apply setStandings_same. }
  cbv zeta. destruct (newParticipantsOf _ _) as [|p l] eqn:Hnew.
  - simpl. rewrite app_nil_r. symmetry. by apply setStandings_same.
  - rewrite decide_True by (simpl; lia). f_equal. f_equal.
    rewrite <- (list_fmap_id (p :: l)) at 2. apply list_fmap_ext.
    intros ? x _. apply copyStanding_id.
Qed.

(** X22. A run of the registration effect on the current state only
    appends rows to the local standings, each a row of the stored session
    whose id no local row has, and changes nothing else.  When the session
    is loaded and the session id and the admin secret are set, every id of
    the stored standings is a local id afterwards.  A second run with the
    same stored session changes nothing, and local ids stay distinct if the
    local and the stored ids each are. *)
Theorem syncRegistrations_appends_the_missing_rows convexSession sessionId adminSecret s :
  let s' := syncRegistrations convexSession sessionId adminSecret s s in
  (∃ added, standings s' = (standings s ++ added)%list
            ∧ ∀ p, p ∈ added →
                (ChampionshipStanding.id p ∉ ChampionshipStanding.id <$> standings s)
                ∧ ∃ session, convexSession = Some session
                             ∧ p ∈ standings (PublicSession.state session))
  ∧ s' = setStandings (standings s') s
  ∧ (∀ session p,
       convexSession = Some session → truthy sessionId = true → truthy adminSecret = true →
       p ∈ standings (PublicSession.state session) →
       ChampionshipStanding.id p ∈ ChampionshipStanding.id <$> standings s')
  ∧ syncRegistrations convexSession sessionId adminSecret s' s' = s'
  ∧ (∀ session,
       convexSession = Some session →
       NoDup (ChampionshipStanding.id <$> standings s) →
       NoDup (ChampionshipStanding.id <$> standings (PublicSession.state session)) →
       NoDup (ChampionshipStanding.id <$> standings s')).
Proof.
  intros s'. unfold s'. rewrite syncRegistrations_standings.
  set (added := match convexSession with
                | Some session =>
                    if truthy sessionId && truthy adminSecret
                    then newParticipantsOf (standings (PublicSession.state session))
                           (standings s)
                    else []
                | None => []
                end).
  assert (∀ p, p ∈ added →
            (ChampionshipStanding.id p ∉ ChampionshipStanding.id <$> standings s)
            ∧ ∃ session, convexSession = Some session
                         ∧ p ∈ standings (PublicSession.state session)) as Hadded.
  { intros p Hp. unfold added in Hp. destruct convexSession as [session|].
    - destruct (truthy sessionId && truthy adminSecret).
      + apply newParticipantsOf_elem in Hp as [Hp Hnot]. eauto.
      + by apply elem_of_nil in Hp.
    - by apply elem_of_nil in Hp. }
  assert (∀ session p,
            convexSession = Some session → truthy sessionId = true →
            truthy adminSecret = true → p ∈ standings (PublicSession.state session) →
            ChampionshipStanding.id p
            ∈ ChampionshipStanding.id <$> (standings s ++ added)%list)
    as Hall.
  { intros session p -> Hsid Hsecret Hp. unfold added. rewrite Hsid, Hsecret. simpl.
    rewrite fmap_app, elem_of_app.
    destruct (decide (ChampionshipStanding.id p ∈ ChampionshipStanding.id <$> standings s))
      as [Hin|Hnot]; [by left|right].
    apply list_elem_of_fmap. exists p. split; [done|]. by apply newParticipantsOf_elem. }
  split; [by exists added|]. split; [done|]. split; [exact Hall|]. split.
  - rewrite syncRegistrations_standings. simpl.
    assert (match convexSession with
            | Some session =>
                if truthy sessionId && truthy adminSecret
                then newParticipantsOf (standings (PublicSession.state session))
                       (standings s ++ added)%list
                else []
            | None => []
            end = []) as ->.
    { destruct convexSession as [session|]; [|done].
      destruct (truthy sessionId) eqn:Hsid, (truthy adminSecret) eqn:Hsecret; try done.
      simpl. apply newParticipantsOf_nil. intros p Hp. by apply (Hall session). }
    rewrite app_nil_r. done.
  - intros session -> Hlocal Hstored. simpl. rewrite fmap_app. apply NoDup_app.
    split; [done|]. split.
    + intros id Hin Hin'. apply list_elem_of_fmap in Hin' as (p & -> & Hp).
      by apply Hadded in Hp as [Hnot _].
    + unfold added. destruct (truthy sessionId && truthy adminSecret); [|constructor].
      unfold newParticipantsOf. cbv zeta.
      eapply sublist_NoDup; [exact Hstored|apply fmap_sublist, sublist_filter].
Qed.

Lemma syncRegistrations_appends_the_missing_rows_witness :
  let mari := ChampionshipStanding.mk 5 "Mari" [] in
  let jaan := ChampionshipStanding.mk 6 "Jaan" [] in
  let stored := PublicSession.mk 7 1 "dmec-1" (setStandings [mari; jaan] getInitialState) 1 2 in
  let s := setStandings [jaan] getInitialState in
  5%Z ∈ ChampionshipStanding.id
        <$> standings (syncRegistrations (Some stored) (Some "dmec-1") (Some "k3x9") s s).
Proof.
  intros mari jaan stored s.
  destruct (syncRegistrations_appends_the_missing_rows
              (Some stored) (Some "dmec-1") (Some "k3x9") s) as (_ & _ & Hall & _).
  apply (Hall stored mari); [reflexivity..|]. constructor.
Defined.

(** X23. What the admin saves is what the effect reads back: after a state
    update that went through, a run of the registration effect with the
    stored session changes nothing in the state that was saved. *)
Theorem saved_state_is_a_fixed_point_of_the_effect now sessionId adminSecret s db db' :
  updateSessionState now sessionId adminSecret s db = Returned tt db' →
  syncRegistrations (getSession sessionId db') (Some sessionId) (Some adminSecret) s s = s.
Proof.
  intros Hupdate.
  destruct (updateSessionState_returned now sessionId adminSecret s db)
    as [_ Hback].
  destruct (Hback db' Hupdate) as (_ & Hstate & _).
  rewrite syncRegistrations_standings.
  destruct (getSession sessionId db') as [session|]; [|done].
  injection Hstate as Hstate.
  assert (newParticipantsOf (standings (PublicSession.state session)) (standings s) = [])
    as Hnone.
  { apply newParticipantsOf_nil. rewrite Hstate. intros p Hp.
    apply list_elem_of_fmap. eauto. }
  rewrite Hnone. destruct (_ && _); rewrite app_nil_r; by apply setStandings_same.
Qed.

Lemma saved_state_is_a_fixed_point_of_the_effect_witness :
  let db := mkDatabase [Session.mk 7 1 "dmec-1" "k3x9" getInitialState 1 2] [] in
  let s := setStandings [ChampionshipStanding.mk 5 "Mari" []] getInitialState in
  ∃ db', updateSessionState 9 "dmec-1" "k3x9" s db = Returned tt db'
         ∧ syncRegistrations (getSession "dmec-1" db') (Some "dmec-1") (Some "k3x9") s s = s.
Proof.
  intros db s.
  assert (∃ db', updateSessionState 9 "dmec-1" "k3x9" s db = Returned tt db') as [db' Hdb']
    by (eexists; vm_compute; reflexivity).
  exists db'. split; [exact Hdb'|].
  exact (saved_state_is_a_fixed_point_of_the_effect 9 "dmec-1" "k3x9" s db db' Hdb').
Defined.

(** X24. A registration reaches the admin's table: after a registration
    that went through, a run of the effect with the stored session, in a
    local state that has no row with the new id, leaves the local standings
    with a row of that id and of the trimmed name. *)
Theorem registration_reaches_the_local_standings now sessionId name db result db'
    adminSecret s :
  registerParticipant now sessionId name db = Returned result db' →
  truthy (Some sessionId) = true → truthy (Some adminSecret) = true →
  now ∉ ChampionshipStanding.id <$> standings s →
  ∃ row, row ∈ standings (syncRegistrations (getSession sessionId db') (Some sessionId)
                            (Some adminSecret) s s)
         ∧ ChampionshipStanding.id row = now
         ∧ ChampionshipStanding.name row = trim name.
Proof.
  intros Hreg Hsid Hsecret Hfresh. destruct result as [pid returnedName].
  destruct (registerParticipant_returned _ _ _ _ _ _ _ Hreg)
    as (_ & _ & (full & full' & _ & Hfull' & Hst & _) & _).
  rewrite syncRegistrations_standings, getSession_getSessionWithSecret, Hfull'.
  cbn [fmap option_fmap option_map]. rewrite Hsid, Hsecret.
  cbn [andb publicSessionOf PublicSession.state].
  set (row := ChampionshipStanding.mk now (trim name)
                (replicate (Z.to_nat (competitionsHeld (Session.state full))) 0%Q)) in *.
  exists row. split; [|done]. apply elem_of_app. right.
  apply newParticipantsOf_elem. split; [|done].
  rewrite Hst. apply elem_of_app. right. by apply list_elem_of_singleton.
Qed.

Lemma registration_reaches_the_local_standings_witness :
  let db := mkDatabase [Session.mk 7 1 "dmec-1" "k3x9" getInitialState 1 2] [] in
  ∃ db' row,
    registerParticipant 5 "dmec-1" " Mari " db = Returned (5%Z, "Mari") db'
    ∧ row ∈ standings (syncRegistrations (getSession "dmec-1" db') (Some "dmec-1")
                         (Some "k3x9") getInitialState getInitialState)
    ∧ ChampionshipStanding.name row = "Mari".
Proof.
  intros db.
  assert (∃ db', registerParticipant 5 "dmec-1" " Mari " db = Returned (5%Z, "Mari") db')
    as [db' Hdb'] by (eexists; vm_compute; reflexivity).
  destruct (registration_reaches_the_local_standings 5 "dmec-1" " Mari " db (5%Z, "Mari") db'
              "k3x9" getInitialState Hdb')
    as (row & Hrow & _ & Hname); [reflexivity|reflexivity| |].
  - simpl. intros Hin. apply elem_of_nil in Hin. exact Hin.
  - exists db', row. split; [exact Hdb'|]. split; [exact Hrow|exact Hname].
Defined.

(** * Starting a competition *)

(** X25. Starting a competition lists every row of the season table as a
    participant with the row's id and name, no score and seed 0, and clears
    the bracket and the third-place match.  With the participants as they
    then are the bracket cannot be generated, since nobody has a score; a
    bracket generated later from this state starts a run; and returning to
    the championship right away gives every row a 0 for the competition. *)
Theorem startCompetition_lists_the_table_unscored s :
  let s' := handleStartCompetition s in
  phase s' = QUALIFICATION ∧ bracket s' = [] ∧ thirdPlaceMatch s' = None
  ∧ standings s' = standings s
  ∧ (∀ k, competitionParticipants s' !! k
          = (λ row, Participant.mk (ChampionshipStanding.id row)
                      (ChampionshipStanding.name row) None 0) <$> standings s !! k)
  ∧ (∀ prev, handleStartBracket (competitionParticipants s') prev
             = (Some (NotEnoughQualifiers MIN_PARTICIPANTS), prev))
  ∧ (∀ allParticipants s1, handleStartBracket allParticipants s' = (None, s1) → reachable s1)
  ∧ (∀ id, pointsOf (pointsToAddOf s') id = 0%Q)
  ∧ (∀ row, row ∈ standings (handleReturnToChampionship s') →
            last (ChampionshipStanding.pointsPerCompetition row) = Some 0%Q).
Proof.
  intros s'.
  assert (filter (λ p, hasPositiveScore p = true) (competitionParticipants s') = []) as Hnone.
  { unfold s', handleStartCompetition. simpl.
    induction (standings s) as [|row l IH]; [done|]. simpl.
    rewrite filter_cons, decide_False by done. exact IH. }
  assert (∀ id, pointsOf (pointsToAddOf s') id = 0%Q) as Hzero.
  { intros id. apply tookNoPart_no_points. split; [|split].
    - rewrite <- filter_qualifies, Hnone. apply not_elem_of_nil.
    - intros i j m p Hm. apply lookup2_Some in Hm as (round & Hround & _). done.
    - intros t p Ht. done. }
  split; [done|]. split; [done|]. split; [done|]. split; [done|].
  split; [intros k; apply list_lookup_fmap|].
  split; [|split; [|split; [exact Hzero|]]].
  - intros prev. unfold handleStartBracket, qualifiedParticipants. rewrite Hnone.
    by rewrite decide_True by (simpl; unfold MIN_PARTICIPANTS; lia).
  - intros allParticipants s1 Hstart. by apply (reachable_start allParticipants s').
  - intros row Hrow. simpl in Hrow. rewrite sortByTotalDesc_perm in Hrow.
    apply list_elem_of_fmap in Hrow as (st & -> & _). simpl.
    rewrite last_snoc. f_equal. apply Hzero.
Qed.

Lemma startCompetition_lists_the_table_unscored_witness :
  let s := setStandings [ChampionshipStanding.mk 5 "Mari" [12%Q]] getInitialState in
  Forall (λ row, last (ChampionshipStanding.pointsPerCompetition row) = Some 0%Q)
    (standings (handleReturnToChampionship (handleStartCompetition s))).
Proof.
  intros s. apply Forall_forall.
  exact (proj2 (proj2 (proj2 (proj2 (proj2 (proj2 (proj2 (proj2
           (startCompetition_lists_the_table_unscored s))))))))).
Defined.

(** * The seeding order in general *)

(** X26. For every bracket size that is a power of two the seeding loop
    produces that many seeds: every seed from 1 to the size exactly once,
    seed 1 first, seed 2 first in the second half, and at each pair of
    adjacent positions a seed of the better half followed by the seed that
    adds up with it to the size plus one. *)
Theorem seeding_order_is_a_permutation R :
  let B := 2 ^ R in
  let order := finalSeedOrder B in
  length order = B
  ∧ NoDup order
  ∧ (∀ z, z ∈ order ↔ (1 ≤ z ≤ Z.of_nat B)%Z)
  ∧ order !! 0 = Some 1%Z
  ∧ (1 ≤ R → order !! (B / 2) = Some 2%Z)
  ∧ (1 ≤ R → ∀ j, j < B / 2 →
       ∃ s, 1 ≤ s ≤ B / 2
            ∧ order !! (2 * j) = Some (Z.of_nat s)
            ∧ order !! (S (2 * j)) = Some (Z.of_nat (B + 1 - s))).
Proof.
  intros B order. unfold order, B.
  split; [apply length_finalSeedOrder|].
  rewrite finalSeedOrder_pow2.
  split; [|split; [|split; [|split]]].
  - apply NoDup_alt. intros i j z. apply seeds_iter_inj.
  - intros z. split.
    + intros Hz. apply list_elem_of_lookup in Hz as [k Hk].
      by apply seeds_iter_range in Hk.
    + intros Hz. destruct (seeds_iter_surj R (Z.to_nat z) ltac:(lia)) as [k Hk].
      rewrite Z2Nat.id in Hk by lia. by apply list_elem_of_lookup_2 with k.
  - destruct (seeds_iter_surj R 1) as [k Hk].
    { split; [lia|]. apply Nat.neq_0_lt_0, Nat.pow_nonzero. lia. }
    by rewrite (seed_one_position _ _ Hk) in Hk.
  - intros HR. destruct R as [|R']; [lia|].
    destruct (seeds_iter_surj (S R') 2) as [k Hk].
    { rewrite Nat.pow_succ_r'.
      assert (1 ≤ 2 ^ R') by (apply Nat.neq_0_lt_0, Nat.pow_nonzero; lia). lia. }
    rewrite (seed_two_position _ _ Hk) in Hk.
    rewrite Nat.pow_succ_r'. replace (2 * 2 ^ R' / 2) with (2 ^ R') by lia. exact Hk.
  - intros HR j Hj.
    assert (2 ^ R / 2 = 2 ^ (R - 1)) as Hhalf.
    { destruct R as [|R']; [lia|]. rewrite Nat.pow_succ_r'.
      replace (S R' - 1) with R' by lia. lia. }
    rewrite Hhalf in Hj |- *. rewrite <- finalSeedOrder_pow2.
    by apply finalSeedOrder_pairs.
Qed.

Lemma seeding_order_is_a_permutation_witness :
  ∃ s, 1 ≤ s ≤ 8 ∧ finalSeedOrder 16 !! 6 = Some (Z.of_nat s)
       ∧ finalSeedOrder 16 !! 7 = Some (Z.of_nat (17 - s)).
Proof.
  destruct (seeding_order_is_a_permutation 4) as (_ & _ & _ & _ & _ & Hpairs).
  destruct (Hpairs ltac:(lia) 3 ltac:(vm_compute; lia)) as (s & Hs & Heven & Hodd).
  exists s. split; [exact Hs|]. split; [exact Heven|exact Hodd].
Defined.

(** * The spectators' view *)

Lemma insertByScore_head a l :
  Forall (λ c, (scoreOf c <= scoreOf a)%Q) l → insertByScore a l = a :: l.
Proof.
  destruct l as [|b l]; [done|]. intros Hall. apply Forall_cons in Hall as [Hb _]. simpl.
  destruct (Qltb_spec (scoreOf a) (scoreOf b)) as [Hlt|_]; [|done].
  exfalso. by apply (Qlt_not_le _ _ Hlt).
Qed.

Lemma filter_insertByScore (P : Participant.t → Prop) `{!∀ p, Decision (P p)} a l :
  StronglySorted scoreGe l →
  filter P (insertByScore a l)
  = if decide (P a) then insertByScore a (filter P l) else filter P l.
Proof.
  induction l as [|b l IH]; intros Hsorted.
  - simpl. rewrite filter_cons, filter_nil. by destruct (decide (P a)).
  - apply StronglySorted_inv in Hsorted as [Hl Hb]. simpl.
    destruct (Qltb_spec (scoreOf a) (scoreOf b)) as [Hlt|Hge].
    + rewrite (filter_cons _ b), IH by done. rewrite (filter_cons _ b).
      destruct (decide (P a)), (decide (P b)); try done.
      simpl. by destruct (Qltb_spec (scoreOf a) (scoreOf b)).
    + rewrite (filter_cons _ a). destruct (decide (P a)); [|done].
      rewrite insertByScore_head; [done|].
      apply Qnot_lt_le in Hge.
      assert (Forall (λ c, (scoreOf c <= scoreOf a)%Q) (b :: l)) as Hall.
      { constructor; [done|]. eapply Forall_impl; [exact Hb|].
        intros c Hc. by apply Qle_trans with (scoreOf b). }
      rewrite Forall_forall in Hall. apply Forall_forall.
      intros c Hc. apply list_elem_of_filter in Hc as [_ Hc]. by apply Hall.
Qed.

(** Filtering the ranking is ranking the filtered list. *)
Lemma filter_sortByScoreDesc (P : Participant.t → Prop) `{!∀ p, Decision (P p)} l :
  filter P (sortByScoreDesc l) = sortByScoreDesc (filter P l).
Proof.
  induction l as [|a l IH]; [done|]. simpl.
  rewrite filter_insertByScore by apply sortByScoreDesc_sorted.
  rewrite filter_cons, IH. by destruct (decide (P a)).
Qed.

Lemma qualifies_scoreOf p :
  qualifies p ↔ is_Some (Participant.score p) ∧ (0 < scoreOf p)%Q.
Proof.
  unfold qualifies, scoreOf. destruct (Participant.score p) as [sc|]; simpl.
  - split; [eauto|by intros [_ ?]].
  - split; [done|]. intros [Hsome _]. by apply is_Some_None in Hsome.
Qed.

Lemma take_qualifiers (l : list Participant.t) :
  StronglySorted scoreGe l →
  Forall (λ p, is_Some (Participant.score p)) l →
  take (length (filter qualifies l)) l = filter qualifies l.
Proof.
  induction l as [|b l IH]; intros Hsorted Hscored; [done|].
  apply StronglySorted_inv in Hsorted as [Hl Hb].
  apply Forall_cons in Hscored as [Hbs Hls].
  rewrite filter_cons. destruct (decide (qualifies b)) as [Hq|Hq].
  - simpl. f_equal. by apply IH.
  - assert (filter qualifies l = []) as ->; [|done].
    destruct (filter qualifies l) as [|c rest] eqn:Hfilter; [done|]. exfalso.
    assert (c ∈ filter qualifies l) as Hc by (rewrite Hfilter; constructor).
    apply list_elem_of_filter in Hc as [Hqc Hc].
    rewrite Forall_forall in Hb. apply Hq. apply qualifies_scoreOf. split; [done|].
    apply qualifies_scoreOf in Hqc as [_ Hpos].
    apply Qlt_le_trans with (scoreOf c); [done|]. by apply Hb.
Qed.

Lemma sortByTotalDesc_sorted_id l : StronglySorted totalGe l → sortByTotalDesc l = l.
Proof.
  induction l as [|a l IH]; intros Hsorted; [done|].
  apply StronglySorted_inv in Hsorted as [Hl Ha]. simpl. rewrite IH by done.
  destruct l as [|b l]; [done|]. apply Forall_cons in Ha as [Hb _]. simpl.
  destruct (Qltb_spec (totalOf a) (totalOf b)) as [Hlt|_]; [|done].
  exfalso. by apply (Qlt_not_le _ _ Hlt).
Qed.

(** X27. The spectators' qualification list holds the participants that
    have a score, ranked by score, descending, stably.  The qualifiers,
    those of positive score, come first in it, and they come in seeding
    order: the entry at position k, for k below the number of qualifiers,
    is the participant the bracket generation gives seed k + 1. *)
Theorem live_qualification_list_shows_the_seeding participants :
  let live := sortedParticipants participants in
  let n := length (filter qualifies participants) in
  live ≡ₚ filter (λ p, is_Some (Participant.score p)) participants
  ∧ StronglySorted scoreGe live
  ∧ take n live = filter qualifies live
  ∧ imap withSeed (take n live) = qualifiedParticipants participants
  ∧ (∀ k p, k < n → live !! k = Some p →
            qualifiedParticipants participants !! k = Some (withSeed k p)).
Proof.
  intros live n. unfold live, sortedParticipants.
  set (scored := filter (λ p, is_Some (Participant.score p)) participants).
  assert (filter qualifies scored = filter qualifies participants) as Hscored.
  { unfold scored. rewrite list_filter_filter. apply list_filter_iff.
    intros p. rewrite qualifies_scoreOf. tauto. }
  assert (filter qualifies (sortByScoreDesc scored)
          = sortByScoreDesc (filter qualifies participants)) as Hfilter.
  { by rewrite filter_sortByScoreDesc, Hscored. }
  assert (take n (sortByScoreDesc scored) = filter qualifies (sortByScoreDesc scored))
    as Htake.
  { unfold n. rewrite <- (length_sortByScoreDesc (filter qualifies participants)), <- Hfilter.
    apply take_qualifiers; [apply sortByScoreDesc_sorted|].
    apply Forall_forall. intros p Hp. rewrite sortByScoreDesc_perm in Hp.
    unfold scored in Hp. by apply list_elem_of_filter in Hp as [? _]. }
  assert (imap withSeed (take n (sortByScoreDesc scored)) = qualifiedParticipants participants)
    as Hseeded.
  { rewrite Htake, Hfilter. unfold qualifiedParticipants. by rewrite filter_qualifies. }
  split; [apply sortByScoreDesc_perm|]. split; [apply sortByScoreDesc_sorted|].
  split; [done|]. split; [done|].
  intros k p Hk Hp. rewrite <- Hseeded, list_lookup_imap, lookup_take_lt, Hp by done. done.
Qed.

Lemma live_qualification_list_shows_the_seeding_witness :
  let ps := [Participant.mk 11 "a" (Some 0%Q) 0; Participant.mk 12 "b" (Some 90%Q) 0;
             Participant.mk 13 "c" None 0; Participant.mk 14 "d" (Some 95%Q) 0] in
  qualifiedParticipants ps !! 1 = Some (Participant.mk 12 "b" (Some 90%Q) 2).
Proof.
  intros ps.
  destruct (live_qualification_list_shows_the_seeding ps) as (_ & _ & _ & _ & Hseed).
  apply (Hseed 1 (Participant.mk 12 "b" (Some 90%Q) 0)); [vm_compute; lia|].
  vm_compute. reflexivity.
Defined.

(** X28. The spectators' season table is the stored rows ranked by total,
    descending, stably; rows that are stored in that order are shown in
    the order they are stored in, which is the case of the rows that
    returning to the championship leaves. *)
Theorem live_table_shows_the_stored_order standings0 :
  sortedStandings standings0 ≡ₚ standings0
  ∧ StronglySorted totalGe (sortedStandings standings0)
  ∧ (∀ z, filter (λ st, totalOf st == z) (sortedStandings standings0)
          = filter (λ st, totalOf st == z) standings0)
  ∧ (StronglySorted totalGe standings0 → sortedStandings standings0 = standings0)
  ∧ (∀ prev, standings0 = standings (handleReturnToChampionship prev) →
             sortedStandings standings0 = standings0).
Proof.
  unfold sortedStandings.
  split; [apply sortByTotalDesc_perm|]. split; [apply sortByTotalDesc_sorted|].
  split; [intros z; apply sortByTotalDesc_stable|].
  split; [apply sortByTotalDesc_sorted_id|].
  intros prev ->. apply sortByTotalDesc_sorted_id. simpl. apply sortByTotalDesc_sorted.
Qed.

Lemma live_table_shows_the_stored_order_witness :
  let s := setStandings [ChampionshipStanding.mk 5 "Mari" [12%Q];
                         ChampionshipStanding.mk 6 "Jaan" [100%Q]] getInitialState in
  let table := standings (handleReturnToChampionship s) in
  sortedStandings table = table.
Proof.
  intros s table.
  exact (proj2 (proj2 (proj2 (proj2 (live_table_shows_the_stored_order table)))) s eq_refl).
Defined.
